(** * QTree: a quadtree image compressor (qtree.h, qtree.cpp)

    A shallow embedding of the QTree class: tree construction with
    area-weighted colour averaging, rendering, pruning, horizontal flip and
    counter-clockwise rotation, followed by the properties of the design
    document that can be settled on it.

    Conventions.
    - [unsigned int] and [int] are 32 bits wide; values are integers of [Z]
      and every wrap-around is written with [u32] (and [to_int]).
    - [double] is Rocq's primitive binary64 [float].
    - A [Node*] that owns its target is a value of [Node]: [nullptr] or
      [mkNode] with the seven fields of the C++ class.  The tree is owned by
      exactly one QTree, so in-place mutation is a function from the tree
      before to the tree after.
    - Code that the C++ standard leaves undefined (a pixel access out of the
      raster, an integer division by zero) and recursion that does not come
      back are [None]. *)

From Stdlib Require Import ZArith List Lia Bool Floats Uint63.
Import ListNotations.
Local Open Scope Z_scope.

(** ** Machine integers *)

Definition u32 (z : Z) : Z := z mod 2 ^ 32.

(** Conversion of an [unsigned int] value to [int] (two's complement). *)
Definition to_int (z : Z) : Z := (z + 2 ^ 31) mod 2 ^ 32 - 2 ^ 31.

(** Conversion of an [int] to [unsigned char], as the pixel constructor
    stores its channels. *)
Definition u8 (z : Z) : Z := z mod 256.

(** Conversion of an [unsigned int] to [double]; exact below 2^53. *)
Definition uint_to_double (z : Z) : float :=
  PrimFloat.of_uint63 (Uint63.of_Z z).

Definition pair_eqb (p q : Z * Z) : bool :=
  (fst p =? fst q) && (snd p =? snd q).

(** ** The option monad, for code that may be undefined *)

Definition obind {A B : Type} (m : option A) (k : A -> option B) : option B :=
  match m with
  | Some x => k x
  | None => None
  end.

Notation "x <- m ;; k" := (obind m (fun x => k))
  (at level 61, m at next level, right associativity).

(** [for (unsigned i = 0; i < n; i++) body], the index [i] counted up from
    the first argument. *)
Fixpoint for_loop {A : Type} (n : nat) (i : Z) (body : Z -> A -> option A)
    (s : A) : option A :=
  match n with
  | O => Some s
  | S n' => s' <- body i s ;; for_loop n' (i + 1) body s'
  end.

(** ** Pixels and rasters (imgUtil) *)

(** Modelled from the spec: imgUtil/RGBAPixel.h is not part of the sources.
    A pixel has three integer channels of 8-bit range and one continuous
    alpha channel. *)
Record RGBAPixel : Type := mkRGBAPixel {
  r : Z;
  g : Z;
  b : Z;
  a : float
}.

(** Modelled from the spec: the constructor [RGBAPixel(r, g, b, a)] called
    with [int] channels, which it stores in 8 bits. *)
Definition RGBAPixel_of (r g b : Z) (a : float) : RGBAPixel :=
  mkRGBAPixel (u8 r) (u8 g) (u8 b) a.

Definition channels_ok (p : RGBAPixel) : Prop :=
  0 <= r p <= 255 /\ 0 <= g p <= 255 /\ 0 <= b p <= 255.

Module PNG.

(** Modelled from the spec: imgUtil/PNG.h is not part of the sources.  A
    raster is a mutable 2-D grid of pixels with width and height queries
    and access by coordinate, valid for [0 <= x < width] and
    [0 <= y < height]; an access out of range is undefined. *)
Record t : Type := mk {
  width : Z;
  height : Z;
  imageData : Z -> Z -> RGBAPixel
}.

Definition inside (img : t) (x y : Z) : bool :=
  (0 <=? x) && (x <? width img) && (0 <=? y) && (y <? height img).

Definition getPixel (img : t) (x y : Z) : option RGBAPixel :=
  if inside img x y then Some (imageData img x y) else None.

(** [*img.getPixel(x, y) = c] *)
Definition setPixel (img : t) (x y : Z) (c : RGBAPixel) : option t :=
  if inside img x y then
    Some (mk (width img) (height img)
            (fun x' y' =>
               if (x' =? x) && (y' =? y) then c else imageData img x' y'))
  else None.

(** Modelled from the spec: the constructor [PNG(w, h)].  The colour of the
    pixels of a fresh raster is not fixed by the sources; it is the
    parameter [blank]. *)
Definition create (blank : RGBAPixel) (w h : Z) : t :=
  mk w h (fun _ _ => blank).

(** A raster given by its rows, for concrete examples; coordinates out of
    the rows read [dflt]. *)
Definition of_rows (dflt : RGBAPixel) (rows : list (list RGBAPixel)) : t :=
  mk (Z.of_nat (length (hd [] rows))) (Z.of_nat (length rows))
     (fun x y => nth (Z.to_nat x) (nth (Z.to_nat y) rows []) dflt).

(** Two rasters are the same image: same size, same pixel everywhere. *)
Definition same (i1 i2 : t) : Prop :=
  width i1 = width i2 /\ height i1 = height i2 /\
  forall x y, 0 <= x < width i1 -> 0 <= y < height i1 ->
    imageData i1 x y = imageData i2 x y.

End PNG.

(** ** Nodes and trees (qtree.h) *)

(** A value of [Node] is what a [Node*] owns: nothing ([nullptr]) or a node
    with its corners, its average colour and its four children. *)
Inductive Node : Type :=
| nullptr : Node
| mkNode (upLeft lowRight : Z * Z) (avg : RGBAPixel) (NW NE SW SE : Node).

Definition isNull (nd : Node) : bool :=
  match nd with
  | nullptr => true
  | mkNode _ _ _ _ _ _ _ => false
  end.

(** [!nd->NW && !nd->NE && !nd->SW && !nd->SE] *)
Definition noChildren (NW NE SW SE : Node) : bool :=
  isNull NW && isNull NE && isNull SW && isNull SE.

Definition black : RGBAPixel := mkRGBAPixel 0 0 0 1.
Definition white : RGBAPixel := mkRGBAPixel 255 255 255 1.

(** Field accesses; on [nullptr] they are never used by the code and read a
    fixed value here. *)
Definition upLeft (nd : Node) : Z * Z :=
  match nd with
  | nullptr => (0, 0)
  | mkNode ul _ _ _ _ _ _ => ul
  end.

Definition lowRight (nd : Node) : Z * Z :=
  match nd with
  | nullptr => (0, 0)
  | mkNode _ lr _ _ _ _ _ => lr
  end.

Definition avg (nd : Node) : RGBAPixel :=
  match nd with
  | nullptr => black
  | mkNode _ _ c _ _ _ _ => c
  end.

Record QTree : Type := mkQTree {
  root : Node;
  height : Z;
  width : Z
}.

(** ** Construction (QTree::QTree, QTree::BuildNode) *)

(** [total += child->avg.channel * area] on an [int] accumulator: the product
    and the sum are taken in [unsigned int], the result is stored back in
    an [int]. *)
Definition acc_int (total channel area : Z) : Z :=
  to_int (u32 (u32 total + u32 (channel * area))).

(** [total += child->avg.a * area] on a [double] accumulator. *)
Definition acc_double (total alpha : float) (area : Z) : float :=
  PrimFloat.add total (PrimFloat.mul alpha (uint_to_double area)).

(** The four accumulators of BuildNode: totalR, totalG, totalB, totalA. *)
Definition Totals : Type := (Z * Z * Z * float)%type.

(** [if (child != nullptr) { totalR += ...; totalB += ...; ... }] *)
Definition addChild (tot : Totals) (child : Node) (area : Z) : Totals :=
  match child with
  | nullptr => tot
  | mkNode _ _ c _ _ _ _ =>
      let '(tR, tG, tB, tA) := tot in
      (acc_int tR (r c) area, acc_int tG (g c) area, acc_int tB (b c) area,
       acc_double tA (a c) area)
  end.

(** Lines 177 to 222 of qtree.cpp: the colour of an internal node from its
    children.  The division [total / totalArea] of an [int] by an
    [unsigned int] is an unsigned division; by zero it is undefined. *)
Definition averageOf (ul lr : Z * Z) (midX midY : Z) (NW NE SW SE : Node)
    : option RGBAPixel :=
  let areaNW := u32 ((midX - fst ul + 1) * (midY - snd ul + 1)) in
  let areaNE := u32 ((fst lr - (midX + 1) + 1) * (midY - snd ul + 1)) in
  let areaSW := u32 ((midX - fst ul + 1) * (snd lr - (midY + 1) + 1)) in
  let areaSE := u32 ((fst lr - (midX + 1) + 1) * (snd lr - (midY + 1) + 1)) in
  let totalArea := u32 ((fst lr - fst ul + 1) * (snd lr - snd ul + 1)) in
  let tot0 : Totals := (0, 0, 0, 0%float) in
  let tot1 := addChild tot0 NW areaNW in
  let tot2 := addChild tot1 NE areaNE in
  let tot3 := addChild tot2 SW areaSW in
  let '(totalR, totalG, totalB, totalA) := addChild tot3 SE areaSE in
  if totalArea =? 0 then None
  else
    Some (RGBAPixel_of (to_int (u32 totalR / totalArea))
                       (to_int (u32 totalG / totalArea))
                       (to_int (u32 totalB / totalArea))
                       (PrimFloat.div totalA (uint_to_double totalArea))).

(** BuildNode.  The C++ recursion has no bound of its own; [fuel] bounds its
    depth, and running out of it is [None] (see [BuildNode_returns] for the
    fuel that suffices). *)
Fixpoint BuildNode (fuel : nat) (img : PNG.t) (ul lr : Z * Z)
    : option Node :=
  match fuel with
  | O => None
  | S fuel' =>
      if pair_eqb ul lr then
        p <- PNG.getPixel img (fst ul) (snd ul) ;;
        Some (mkNode ul lr p nullptr nullptr nullptr nullptr)
      else
        let midX := u32 (fst ul + fst lr) / 2 in
        let midY := u32 (snd ul + snd lr) / 2 in
        NW <- BuildNode fuel' img ul (midX, midY) ;;
        kids <-
          (if fst lr =? fst ul then
             SW <- BuildNode fuel' img (fst ul, u32 (midY + 1))
                     (midX, snd lr) ;;
             Some (nullptr, SW, nullptr)
           else
             NE <- BuildNode fuel' img (u32 (midX + 1), snd ul)
                     (fst lr, midY) ;;
             if negb (snd ul =? snd lr) then
               SW <- BuildNode fuel' img (fst ul, u32 (midY + 1))
                       (midX, snd lr) ;;
               SE <- BuildNode fuel' img (u32 (midX + 1), u32 (midY + 1))
                       lr ;;
               Some (NE, SW, SE)
             else Some (NE, nullptr, nullptr)) ;;
        let '(NE, SW, SE) := kids in
        c <- averageOf ul lr midX midY NW NE SW SE ;;
        Some (mkNode ul lr c NW NE SW SE)
  end.

(** The constructor [QTree(const PNG&)].  The fuel [width + height] is
    enough for every raster whose corner arithmetic does not wrap. *)
Definition QTree_of_PNG (imIn : PNG.t) : option QTree :=
  let width := PNG.width imIn in
  let height := PNG.height imIn in
  let ul := (0, 0) in
  let lr := (u32 (width - 1), u32 (height - 1)) in
  rt <- BuildNode (Z.to_nat (width + height)) imIn ul lr ;;
  Some (mkQTree rt height width).

(** ** Rendering (QTree::Render, renderNode, draw) *)

Definition draw (img : PNG.t) (startX startY scale : Z) (color : RGBAPixel)
    : option PNG.t :=
  for_loop (Z.to_nat scale) 0
    (fun x img1 =>
       for_loop (Z.to_nat scale) 0
         (fun y img2 =>
            PNG.setPixel img2 (u32 (startX + x)) (u32 (startY + y)) color)
         img1)
    img.

Fixpoint renderNode (nd : Node) (img : PNG.t) (scale : Z) : option PNG.t :=
  match nd with
  | nullptr => Some img
  | mkNode ul _ c NW NE SW SE =>
      if noChildren NW NE SW SE then
        draw img (u32 (fst ul * scale)) (u32 (snd ul * scale)) scale c
      else
        img1 <- renderNode NW img scale ;;
        img2 <- renderNode NE img1 scale ;;
        img3 <- renderNode SW img2 scale ;;
        renderNode SE img3 scale
  end.

Definition Render (blank : RGBAPixel) (t : QTree) (scale : Z)
    : option PNG.t :=
  let img := PNG.create blank (u32 (width t * scale)) (u32 (height t * scale)) in
  renderNode (root t) img scale.

(** ** Pruning (QTree::Prune, pruneSt, leavesUnderTol, clearSt) *)

Section Pruning.

(** [RGBAPixel::distanceTo], of imgUtil; not part of the sources. *)
Variable distanceTo : RGBAPixel -> RGBAPixel -> float.

Fixpoint leavesUnderTol (node : Node) (tolerance : float)
    (avg0 : RGBAPixel) : bool :=
  match node with
  | nullptr => true
  | mkNode _ _ c NW NE SW SE =>
      if noChildren NW NE SW SE then
        PrimFloat.leb (distanceTo c avg0) tolerance
      else
        leavesUnderTol NW tolerance avg0 && leavesUnderTol NE tolerance avg0
        && leavesUnderTol SW tolerance avg0
        && leavesUnderTol SE tolerance avg0
  end.

(** clearSt empties the four subtrees, deletes them and resets the four
    pointers; what remains of the node is its corners and its colour.
    (It also prints a line per node, which no property here observes.) *)
Definition clearSt (node : Node) : Node :=
  match node with
  | nullptr => nullptr
  | mkNode ul lr c _ _ _ _ => mkNode ul lr c nullptr nullptr nullptr nullptr
  end.

Fixpoint pruneSt (node : Node) (tolerance : float) : Node :=
  match node with
  | nullptr => nullptr
  | mkNode ul lr c NW NE SW SE =>
      if noChildren NW NE SW SE then node
      else if leavesUnderTol node tolerance c then clearSt node
      else
        mkNode ul lr c (pruneSt NW tolerance) (pruneSt NE tolerance)
               (pruneSt SW tolerance) (pruneSt SE tolerance)
  end.

Definition Prune (t : QTree) (tolerance : float) : QTree :=
  mkQTree (pruneSt (root t) tolerance) (height t) (width t).

End Pruning.

(** ** Horizontal flip (QTree::FlipHorizontal, flipHorizontal) *)

(** [width] is the member of the enclosing QTree. *)
Fixpoint flipHorizontal (width : Z) (nd : Node) : Node :=
  match nd with
  | nullptr => nullptr
  | mkNode ul lr c NW NE SW SE =>
      (* swap(nd->NW, nd->NE); swap(nd->SW, nd->SE); *)
      let '(NW1, NE1) := (NE, NW) in
      let '(SW1, SE1) := (SE, SW) in
      let newLx := u32 (width - 1 - fst lr) in
      let newRx := u32 (width - 1 - fst ul) in
      let '(ulx, lrx) :=
        if newLx >? newRx then (newRx, newLx) else (newLx, newRx) in
      mkNode (ulx, snd ul) (lrx, snd lr) c
             (flipHorizontal width NW1) (flipHorizontal width NE1)
             (flipHorizontal width SW1) (flipHorizontal width SE1)
  end.

Definition FlipHorizontal (t : QTree) : QTree :=
  mkQTree (flipHorizontal (width t) (root t)) (height t) (width t).

(** ** Rotation (QTree::RotateCCW, rotateCCW) *)

(** [height] is the member of the enclosing QTree at the time of the call. *)
Fixpoint rotateCCW (height : Z) (nd : Node) : Node :=
  match nd with
  | nullptr => nullptr
  | mkNode ul lr c NW NE SW SE =>
      (* nd->NW = NE; nd->SW = NW; nd->SE = SW; nd->NE = SE; *)
      let uL := (snd ul, u32 (height - fst lr - 1)) in
      let lR := (snd lr, u32 (height - fst ul - 1)) in
      mkNode uL lR c
             (rotateCCW height NE) (rotateCCW height SE)
             (rotateCCW height NW) (rotateCCW height SW)
  end.

Definition RotateCCW (t : QTree) : QTree :=
  let temp := height t in
  let t1 := mkQTree (root t) (width t) (width t) in   (* height = width; *)
  let t2 := mkQTree (root t1) (height t1) temp in     (* width = temp;   *)
  mkQTree (rotateCCW (height t2) (root t2)) (height t2) (width t2).

(** ** Counting (QTree::CountNodes, QTree::CountLeaves) *)

(** Modelled from the spec: CountNodes is declared in qtree.h ("counts the
    number of nodes in the tree") and defined outside the sources.  The
    count is kept as a natural number. *)
Fixpoint CountNodes (nd : Node) : nat :=
  match nd with
  | nullptr => 0
  | mkNode _ _ _ NW NE SW SE =>
      (1 + CountNodes NW + CountNodes NE + CountNodes SW + CountNodes SE)%nat
  end.

(** Modelled from the spec: CountLeaves is declared in qtree.h ("counts the
    number of leaves in the tree") and defined outside the sources. *)
Fixpoint CountLeaves (nd : Node) : nat :=
  match nd with
  | nullptr => 0
  | mkNode _ _ _ NW NE SW SE =>
      if noChildren NW NE SW SE then 1%nat
      else (CountLeaves NW + CountLeaves NE + CountLeaves SW + CountLeaves SE)%nat
  end.

(** ** Concrete rasters *)

(** The 2x2 scenario of the design document. *)
Definition img2x2 : PNG.t :=
  PNG.of_rows black
    [ [mkRGBAPixel 255 0 0 1; mkRGBAPixel 0 255 0 1];
      [mkRGBAPixel 0 0 255 1; mkRGBAPixel 255 255 0 1] ].

Definition leaf (x y : Z) (c : RGBAPixel) : Node :=
  mkNode (x, y) (x, y) c nullptr nullptr nullptr nullptr.

(** ** Memory: the operations of the class on an explicit heap of nodes *)

(** The functions above take a tree as a value, which is enough as long as
    a tree has one owner.  Copying and deleting are about the nodes
    themselves, so they are modelled on an explicit heap of nodes; the
    other operations are written on the heap as well, pointer by pointer,
    so that the functions on values can be checked against them.  Addresses
    are never handed out twice (as in CompCert's memory model); a read or a
    write through a pointer that is not allocated, and a [delete] of such a
    pointer, are undefined ([None]); [delete nullptr] does nothing. *)
Module Mem.

(** A [Node*]: [None] is nullptr. *)
Definition Ptr : Type := option nat.

(** A node in memory: the fields of class Node. *)
Record Cell : Type := mkCell {
  upLeft : Z * Z;
  lowRight : Z * Z;
  avg : RGBAPixel;
  NW : Ptr;
  NE : Ptr;
  SW : Ptr;
  SE : Ptr
}.

Record Heap : Type := mkHeap {
  cells : nat -> option Cell;
  next : nat
}.

Definition update (f : nat -> option Cell) (a : nat) (v : option Cell)
    : nat -> option Cell :=
  fun a' => if Nat.eqb a' a then v else f a'.

(** Modelled from the spec: [new Node(ul, lr, a)]; the constructor of Node
    is declared in qtree.h and defined outside the sources, a fresh node has
    its four children absent. *)
Definition new_Node (h : Heap) (ul lr : Z * Z) (a : RGBAPixel)
    : Heap * nat :=
  (mkHeap (update (cells h) (next h)
             (Some (mkCell ul lr a None None None None)))
          (S (next h)),
   next h).

(** [*p], for reading. *)
Definition load (h : Heap) (a : nat) : option Cell := cells h a.

(** [*p = c], for writing a field. *)
Definition store (h : Heap) (a : nat) (c : Cell) : option Heap :=
  match cells h a with
  | Some _ => Some (mkHeap (update (cells h) a (Some c)) (next h))
  | None => None
  end.

(** [delete p] *)
Definition delete (h : Heap) (p : Ptr) : option Heap :=
  match p with
  | None => Some h
  | Some a =>
      match cells h a with
      | Some _ => Some (mkHeap (update (cells h) a None) (next h))
      | None => None
      end
  end.

Definition set_NW (c : Cell) (p : Ptr) : Cell :=
  mkCell (upLeft c) (lowRight c) (avg c) p (NE c) (SW c) (SE c).
Definition set_NE (c : Cell) (p : Ptr) : Cell :=
  mkCell (upLeft c) (lowRight c) (avg c) (NW c) p (SW c) (SE c).
Definition set_SW (c : Cell) (p : Ptr) : Cell :=
  mkCell (upLeft c) (lowRight c) (avg c) (NW c) (NE c) p (SE c).
Definition set_SE (c : Cell) (p : Ptr) : Cell :=
  mkCell (upLeft c) (lowRight c) (avg c) (NW c) (NE c) (SW c) p.

(** [dst->field = copy(src->field)] for one child: the child pointer is
    read from [src], the subtree copied, the result written in [dst]. *)
Definition copy_child (copy : Heap -> Ptr -> option (Heap * Ptr))
    (get : Cell -> Ptr) (set : Cell -> Ptr -> Cell)
    (h : Heap) (src dst : nat) : option Heap :=
  c <- load h src ;;
  res <- copy h (get c) ;;
  d <- load (fst res) dst ;;
  store (fst res) dst (set d (snd res)).

(** QTree::copy.  [fuel] bounds the depth of the recursion. *)
Fixpoint copy (fuel : nat) (h : Heap) (nd : Ptr) : option (Heap * Ptr) :=
  match fuel with
  | O => None
  | S fuel' =>
      match nd with
      | None => Some (h, None)
      | Some a =>
          c <- load h a ;;
          let (h0, newRoot) := new_Node h (upLeft c) (lowRight c) (avg c) in
          h1 <- copy_child (copy fuel') NW set_NW h0 a newRoot ;;
          h2 <- copy_child (copy fuel') NE set_NE h1 a newRoot ;;
          h3 <- copy_child (copy fuel') SW set_SW h2 a newRoot ;;
          h4 <- copy_child (copy fuel') SE set_SE h3 a newRoot ;;
          Some (h4, Some newRoot)
      end
  end.

(** A recursive call on one child, [f(nd->field)]. *)
Definition on_child (f : Heap -> Ptr -> option Heap)
    (get : Cell -> Ptr) (h : Heap) (a : nat) : option Heap :=
  c <- load h a ;; f h (get c).

(** QTree::clear.  The assignment [nd = nullptr] at its end changes the
    parameter only. *)
Fixpoint clear (fuel : nat) (h : Heap) (nd : Ptr) : option Heap :=
  match fuel with
  | O => None
  | S fuel' =>
      match nd with
      | None => Some h
      | Some a =>
          h1 <- on_child (clear fuel') NW h a ;;
          h2 <- on_child (clear fuel') NE h1 a ;;
          h3 <- on_child (clear fuel') SW h2 a ;;
          h4 <- on_child (clear fuel') SE h3 a ;;
          delete h4 (Some a)
      end
  end.

(** [delete node->field] *)
Definition delete_child (get : Cell -> Ptr) (h : Heap) (a : nat)
    : option Heap :=
  c <- load h a ;; delete h (get c).

(** [node->field = nullptr] *)
Definition reset_child (set : Cell -> Ptr -> Cell) (h : Heap) (a : nat)
    : option Heap :=
  c <- load h a ;; store h a (set c None).

(** QTree::clearSt (the line it prints is left out). *)
Fixpoint clearSt (fuel : nat) (h : Heap) (node : Ptr) : option Heap :=
  match fuel with
  | O => None
  | S fuel' =>
      match node with
      | None => Some h
      | Some a =>
          h1 <- on_child (clearSt fuel') NW h a ;;
          h2 <- on_child (clearSt fuel') NE h1 a ;;
          h3 <- on_child (clearSt fuel') SW h2 a ;;
          h4 <- on_child (clearSt fuel') SE h3 a ;;
          h5 <- delete_child NW h4 a ;;
          h6 <- delete_child NE h5 a ;;
          h7 <- delete_child SW h6 a ;;
          h8 <- delete_child SE h7 a ;;
          h9 <- reset_child set_NW h8 a ;;
          h10 <- reset_child set_NE h9 a ;;
          h11 <- reset_child set_SW h10 a ;;
          reset_child set_SE h11 a
      end
  end.

(** [p->field = q] *)
Definition set_child (set : Cell -> Ptr -> Cell) (h : Heap) (p : nat)
    (q : Ptr) : option Heap :=
  c <- load h p ;; store h p (set c q).

(** [if (child != nullptr) { totalR += child->avg.r * area; ... }] *)
Definition addChild (h : Heap) (tot : Totals) (child : Ptr) (area : Z)
    : option Totals :=
  match child with
  | None => Some tot
  | Some p =>
      c <- load h p ;;
      let '(tR, tG, tB, tA) := tot in
      Some (acc_int tR (r (avg c)) area, acc_int tG (g (avg c)) area,
            acc_int tB (b (avg c)) area, acc_double tA (a (avg c)) area)
  end.

(** Lines 177 to 222 of qtree.cpp, reading the children through their
    pointers. *)
Definition averageOf (h : Heap) (ul lr : Z * Z) (midX midY : Z)
    (nw ne sw se : Ptr) : option RGBAPixel :=
  let areaNW := u32 ((midX - fst ul + 1) * (midY - snd ul + 1)) in
  let areaNE := u32 ((fst lr - (midX + 1) + 1) * (midY - snd ul + 1)) in
  let areaSW := u32 ((midX - fst ul + 1) * (snd lr - (midY + 1) + 1)) in
  let areaSE := u32 ((fst lr - (midX + 1) + 1) * (snd lr - (midY + 1) + 1)) in
  let totalArea := u32 ((fst lr - fst ul + 1) * (snd lr - snd ul + 1)) in
  let tot0 : Totals := (0, 0, 0, 0%float) in
  tot1 <- addChild h tot0 nw areaNW ;;
  tot2 <- addChild h tot1 ne areaNE ;;
  tot3 <- addChild h tot2 sw areaSW ;;
  tot4 <- addChild h tot3 se areaSE ;;
  let '(totalR, totalG, totalB, totalA) := tot4 in
  if totalArea =? 0 then None
  else
    Some (RGBAPixel_of (to_int (u32 totalR / totalArea))
                       (to_int (u32 totalG / totalArea))
                       (to_int (u32 totalB / totalArea))
                       (PrimFloat.div totalA (uint_to_double totalArea))).

(** Lines 177 to 228 of qtree.cpp: the colour from the children, the new
    node, and its four pointers. *)
Definition newInternal (h : Heap) (ul lr : Z * Z) (midX midY : Z)
    (nw ne sw se : Ptr) : option (Heap * Ptr) :=
  c <- averageOf h ul lr midX midY nw ne sw se ;;
  let (h0, newNode) := new_Node h ul lr c in
  h1 <- set_child set_NW h0 newNode nw ;;
  h2 <- set_child set_NE h1 newNode ne ;;
  h3 <- set_child set_SW h2 newNode sw ;;
  h4 <- set_child set_SE h3 newNode se ;;
  Some (h4, Some newNode).

(** QTree::BuildNode, allocating the nodes. *)
Fixpoint BuildNode (fuel : nat) (img : PNG.t) (h : Heap) (ul lr : Z * Z)
    : option (Heap * Ptr) :=
  match fuel with
  | O => None
  | S fuel' =>
      if pair_eqb ul lr then
        p <- PNG.getPixel img (fst ul) (snd ul) ;;
        let (h', nd) := new_Node h ul lr p in
        Some (h', Some nd)
      else
        let midX := u32 (fst ul + fst lr) / 2 in
        let midY := u32 (snd ul + snd lr) / 2 in
        r1 <- BuildNode fuel' img h ul (midX, midY) ;;
        kids <-
          (if fst lr =? fst ul then
             r2 <- BuildNode fuel' img (fst r1) (fst ul, u32 (midY + 1))
                     (midX, snd lr) ;;
             Some (fst r2, None, snd r2, None)
           else
             r2 <- BuildNode fuel' img (fst r1) (u32 (midX + 1), snd ul)
                     (fst lr, midY) ;;
             if negb (snd ul =? snd lr) then
               r3 <- BuildNode fuel' img (fst r2) (fst ul, u32 (midY + 1))
                       (midX, snd lr) ;;
               r4 <- BuildNode fuel' img (fst r3)
                       (u32 (midX + 1), u32 (midY + 1)) lr ;;
               Some (fst r4, snd r2, snd r3, snd r4)
             else Some (fst r2, snd r2, None, None)) ;;
        let '(h1, ne, sw, se) := kids in
        newInternal h1 ul lr midX midY (snd r1) ne sw se
  end.

(** [!p] *)
Definition isNull (p : Ptr) : bool :=
  match p with
  | None => true
  | Some _ => false
  end.

(** [!node->NW && !node->NE && !node->SW && !node->SE] *)
Definition no_children (c : Cell) : bool :=
  isNull (NW c) && isNull (NE c) && isNull (SW c) && isNull (SE c).

(** QTree::renderNode; it reads the nodes and writes the raster. *)
Fixpoint renderNode (fuel : nat) (h : Heap) (nd : Ptr) (img : PNG.t)
    (scale : Z) : option PNG.t :=
  match fuel with
  | O => None
  | S fuel' =>
      match nd with
      | None => Some img
      | Some p =>
          c <- load h p ;;
          if no_children c then
            draw img (u32 (fst (upLeft c) * scale))
              (u32 (snd (upLeft c) * scale)) scale (avg c)
          else
            img1 <- renderNode fuel' h (NW c) img scale ;;
            img2 <- renderNode fuel' h (NE c) img1 scale ;;
            img3 <- renderNode fuel' h (SW c) img2 scale ;;
            renderNode fuel' h (SE c) img3 scale
      end
  end.

(** QTree::leavesUnderTol; [&&] stops at the first false operand. *)
Fixpoint leavesUnderTol (distanceTo : RGBAPixel -> RGBAPixel -> float)
    (fuel : nat) (h : Heap) (node : Ptr) (tolerance : float)
    (avg0 : RGBAPixel) : option bool :=
  match fuel with
  | O => None
  | S fuel' =>
      match node with
      | None => Some true
      | Some a =>
          c <- load h a ;;
          if no_children c then
            Some (PrimFloat.leb (distanceTo (avg c) avg0) tolerance)
          else
            b1 <- leavesUnderTol distanceTo fuel' h (NW c) tolerance avg0 ;;
            if negb b1 then Some false else
            b2 <- leavesUnderTol distanceTo fuel' h (NE c) tolerance avg0 ;;
            if negb b2 then Some false else
            b3 <- leavesUnderTol distanceTo fuel' h (SW c) tolerance avg0 ;;
            if negb b3 then Some false else
            leavesUnderTol distanceTo fuel' h (SE c) tolerance avg0
      end
  end.

(** QTree::pruneSt *)
Fixpoint pruneSt (distanceTo : RGBAPixel -> RGBAPixel -> float)
    (fuel : nat) (h : Heap) (node : Ptr) (tolerance : float)
    : option Heap :=
  match fuel with
  | O => None
  | S fuel' =>
      match node with
      | None => Some h
      | Some a =>
          c <- load h a ;;
          if no_children c then Some h
          else
            under <- leavesUnderTol distanceTo fuel h node tolerance (avg c) ;;
            if (under : bool) then clearSt fuel h node
            else
              let rec := fun h p => pruneSt distanceTo fuel' h p tolerance in
              h1 <- on_child rec NW h a ;;
              h2 <- on_child rec NE h1 a ;;
              h3 <- on_child rec SW h2 a ;;
              on_child rec SE h3 a
      end
  end.

(** QTree::flipHorizontal; [width] is the member of the enclosing QTree.
    The two swaps and the writes of the corners all go to [*nd], and are
    one store here. *)
Fixpoint flipHorizontal (width : Z) (fuel : nat) (h : Heap) (nd : Ptr)
    : option Heap :=
  match fuel with
  | O => None
  | S fuel' =>
      match nd with
      | None => Some h
      | Some a =>
          c <- load h a ;;
          let newLx := u32 (width - 1 - fst (lowRight c)) in
          let newRx := u32 (width - 1 - fst (upLeft c)) in
          let '(ulx, lrx) :=
            if newLx >? newRx then (newRx, newLx) else (newLx, newRx) in
          h0 <- store h a (mkCell (ulx, snd (upLeft c)) (lrx, snd (lowRight c))
                             (avg c) (NE c) (NW c) (SE c) (SW c)) ;;
          h1 <- on_child (flipHorizontal width fuel') NW h0 a ;;
          h2 <- on_child (flipHorizontal width fuel') NE h1 a ;;
          h3 <- on_child (flipHorizontal width fuel') SW h2 a ;;
          on_child (flipHorizontal width fuel') SE h3 a
      end
  end.

(** QTree::rotateCCW; [height] is the member of the enclosing QTree at the
    time of the call.  The writes to [*nd] are one store; the recursive
    calls go NW, NE, SE, SW as in the source. *)
Fixpoint rotateCCW (height : Z) (fuel : nat) (h : Heap) (nd : Ptr)
    : option Heap :=
  match fuel with
  | O => None
  | S fuel' =>
      match nd with
      | None => Some h
      | Some a =>
          c <- load h a ;;
          let uL := (snd (upLeft c), u32 (height - fst (lowRight c) - 1)) in
          let lR := (snd (lowRight c), u32 (height - fst (upLeft c) - 1)) in
          h0 <- store h a (mkCell uL lR (avg c) (NE c) (SE c) (NW c) (SW c)) ;;
          h1 <- on_child (rotateCCW height fuel') NW h0 a ;;
          h2 <- on_child (rotateCCW height fuel') NE h1 a ;;
          h3 <- on_child (rotateCCW height fuel') SE h2 a ;;
          on_child (rotateCCW height fuel') SW h3 a
      end
  end.

(** A QTree object: its three members. *)
Record Obj : Type := mkObj {
  root : Ptr;
  height : Z;
  width : Z
}.

(** The constructor [QTree(const PNG&)], with the fuel of the constructor
    on values. *)
Definition QTree_of_PNG (h : Heap) (imIn : PNG.t) : option (Heap * Obj) :=
  let w := PNG.width imIn in
  let ht := PNG.height imIn in
  let ul := (0, 0) in
  let lr := (u32 (w - 1), u32 (ht - 1)) in
  res <- BuildNode (Z.to_nat (w + ht)) imIn h ul lr ;;
  Some (fst res, mkObj (snd res) ht w).

(** QTree::Clear: [root] is not reset. *)
Definition Clear (fuel : nat) (h : Heap) (this : Obj) : option (Heap * Obj) :=
  h' <- clear fuel h (root this) ;;
  Some (h', mkObj (root this) 0 0).

(** QTree::Copy *)
Definition Copy (fuel : nat) (h : Heap) (this other : Obj)
    : option (Heap * Obj) :=
  res <- copy fuel h (root other) ;;
  Some (fst res, mkObj (snd res) (height other) (width other)).

(** QTree::Render; [blank] is the pixel of a fresh raster. *)
Definition Render (blank : RGBAPixel) (fuel : nat) (h : Heap) (this : Obj)
    (scale : Z) : option PNG.t :=
  let img := PNG.create blank (u32 (width this * scale))
               (u32 (height this * scale)) in
  renderNode fuel h (root this) img scale.

(** QTree::Prune *)
Definition Prune (distanceTo : RGBAPixel -> RGBAPixel -> float)
    (fuel : nat) (h : Heap) (this : Obj) (tolerance : float) : option Heap :=
  pruneSt distanceTo fuel h (root this) tolerance.

(** QTree::FlipHorizontal *)
Definition FlipHorizontal (fuel : nat) (h : Heap) (this : Obj)
    : option Heap :=
  flipHorizontal (width this) fuel h (root this).

(** QTree::RotateCCW *)
Definition RotateCCW (fuel : nat) (h : Heap) (this : Obj)
    : option (Heap * Obj) :=
  let temp := height this in
  let this1 := mkObj (root this) (width this) (width this) in
  let this2 := mkObj (root this1) (height this1) temp in
  h' <- rotateCCW (height this2) fuel h (root this2) ;;
  Some (h', this2).

(** The QTree objects of the program, by address. *)
Definition Objs : Type := nat -> Obj.

Definition setObj (objs : Objs) (i : nat) (o : Obj) : Objs :=
  fun j => if Nat.eqb j i then o else objs j.

(** [QTree::operator=], on the objects at the addresses [this] and [rhs]. *)
Definition assign (fuel : nat) (h : Heap) (objs : Objs) (this rhs : nat)
    : option (Heap * Objs) :=
  if negb (Nat.eqb this rhs) then
    r1 <- Clear fuel h (objs this) ;;
    let objs1 := setObj objs this (snd r1) in
    r2 <- Copy fuel (fst r1) (objs1 this) (objs1 rhs) ;;
    Some (fst r2, setObj objs1 this (snd r2))
  else Some (h, objs).

End Mem.

(** * Vocabulary of the properties *)

(** ** Rectangles and built trees *)

(** The area of the rectangle [[ul, lr]], corners included. *)
Definition area (ul lr : Z * Z) : Z :=
  (fst lr - fst ul + 1) * (snd lr - snd ul + 1).

(** The rasters the constructor is meant for: at least one pixel, sides
    below 2^31 (the bound of the PNG format, which keeps the midpoint sums of
    BuildNode from wrapping) and fewer than 2^32 pixels (so that no area
    wraps to zero). *)
Definition PNG_ok (img : PNG.t) : Prop :=
  1 <= PNG.width img < 2 ^ 31 /\ 1 <= PNG.height img < 2 ^ 31 /\
  PNG.width img * PNG.height img < 2 ^ 32.

(** The recursion of BuildNode as a relation between a rectangle and the
    node built for it, without fuel and without wrap-around: the four cases
    are the single pixel, the 1-pixel-wide column, the 1-pixel-tall row and
    the general rectangle. *)
Inductive Built (img : PNG.t) : Z * Z -> Z * Z -> Node -> Prop :=
| Built_pixel (x y : Z) :
    Built img (x, y) (x, y) (mkNode (x, y) (x, y) (PNG.imageData img x y)
                               nullptr nullptr nullptr nullptr)
| Built_column (x y1 y2 : Z) (c : RGBAPixel) (nw sw : Node) :
    y1 < y2 ->
    Built img (x, y1) (x, (y1 + y2) / 2) nw ->
    Built img (x, (y1 + y2) / 2 + 1) (x, y2) sw ->
    averageOf (x, y1) (x, y2) x ((y1 + y2) / 2) nw nullptr sw nullptr
      = Some c ->
    Built img (x, y1) (x, y2) (mkNode (x, y1) (x, y2) c nw nullptr sw nullptr)
| Built_row (x1 x2 y : Z) (c : RGBAPixel) (nw ne : Node) :
    x1 < x2 ->
    Built img (x1, y) ((x1 + x2) / 2, y) nw ->
    Built img ((x1 + x2) / 2 + 1, y) (x2, y) ne ->
    averageOf (x1, y) (x2, y) ((x1 + x2) / 2) y nw ne nullptr nullptr
      = Some c ->
    Built img (x1, y) (x2, y) (mkNode (x1, y) (x2, y) c nw ne nullptr nullptr)
| Built_quad (x1 x2 y1 y2 : Z) (c : RGBAPixel) (nw ne sw se : Node) :
    x1 < x2 -> y1 < y2 ->
    Built img (x1, y1) ((x1 + x2) / 2, (y1 + y2) / 2) nw ->
    Built img ((x1 + x2) / 2 + 1, y1) (x2, (y1 + y2) / 2) ne ->
    Built img (x1, (y1 + y2) / 2 + 1) ((x1 + x2) / 2, y2) sw ->
    Built img ((x1 + x2) / 2 + 1, (y1 + y2) / 2 + 1) (x2, y2) se ->
    averageOf (x1, y1) (x2, y2) ((x1 + x2) / 2) ((y1 + y2) / 2) nw ne sw se
      = Some c ->
    Built img (x1, y1) (x2, y2) (mkNode (x1, y1) (x2, y2) c nw ne sw se).

(** The integer part of [averageOf], one channel at a time. *)
Definition chanTotal (ch : RGBAPixel -> Z) (tot : Z) (child : Node)
    (ar : Z) : Z :=
  match child with
  | nullptr => tot
  | mkNode _ _ c _ _ _ _ => acc_int tot (ch c) ar
  end.

Definition chanAverage (ch : RGBAPixel -> Z) (ul lr : Z * Z) (midX midY : Z)
    (NW NE SW SE : Node) : Z :=
  let areaNW := u32 ((midX - fst ul + 1) * (midY - snd ul + 1)) in
  let areaNE := u32 ((fst lr - (midX + 1) + 1) * (midY - snd ul + 1)) in
  let areaSW := u32 ((midX - fst ul + 1) * (snd lr - (midY + 1) + 1)) in
  let areaSE := u32 ((fst lr - (midX + 1) + 1) * (snd lr - (midY + 1) + 1)) in
  let totalArea := u32 ((fst lr - fst ul + 1) * (snd lr - snd ul + 1)) in
  let total :=
    chanTotal ch (chanTotal ch (chanTotal ch (chanTotal ch 0 NW areaNW)
                                           NE areaNE) SW areaSW) SE areaSE in
  u8 (to_int (u32 total / totalArea)).

(** ** Leaves, tiling and the split rule *)

(** The leaves of a tree, in the order in which renderNode visits them. *)
Fixpoint leaves (nd : Node) : list Node :=
  match nd with
  | nullptr => []
  | mkNode _ _ _ NW NE SW SE =>
      if noChildren NW NE SW SE then [nd]
      else leaves NW ++ leaves NE ++ leaves SW ++ leaves SE
  end.

Definition inRect (ul lr : Z * Z) (x y : Z) : bool :=
  (fst ul <=? x) && (x <=? fst lr) && (snd ul <=? y) && (y <=? snd lr).

(** The rectangle of the node [l] contains the pixel [(x, y)]. *)
Definition covers (x y : Z) (l : Node) : bool :=
  inRect (upLeft l) (lowRight l) x y.

(** The number of leaf rectangles that contain the pixel [(x, y)]. *)
Definition coverCount (nd : Node) (x y : Z) : nat :=
  length (filter (covers x y) (leaves nd)).

Definition hasRect (nd : Node) (ul lr : Z * Z) : bool :=
  negb (isNull nd) && pair_eqb (upLeft nd) ul && pair_eqb (lowRight nd) lr.

(** The split rule of the design document, as a check on a tree: a
    one-pixel rectangle is a leaf; a 1-pixel-wide rectangle has NW and SW
    only, a 1-pixel-tall one NW and NE only, any other all four children;
    the children's rectangles are cut at the floor midpoints, the upper and
    left parts taking the odd row and column. *)
Fixpoint split_rule (nd : Node) : bool :=
  match nd with
  | nullptr => false
  | mkNode ul lr _ NW NE SW SE =>
      let midX := (fst ul + fst lr) / 2 in
      let midY := (snd ul + snd lr) / 2 in
      if pair_eqb ul lr then noChildren NW NE SW SE
      else if fst ul =? fst lr then
        hasRect NW ul (midX, midY) && isNull NE
        && hasRect SW (fst ul, midY + 1) (midX, snd lr) && isNull SE
        && split_rule NW && split_rule SW
      else if snd ul =? snd lr then
        hasRect NW ul (midX, midY)
        && hasRect NE (midX + 1, snd ul) (fst lr, midY)
        && isNull SW && isNull SE
        && split_rule NW && split_rule NE
      else
        hasRect NW ul (midX, midY)
        && hasRect NE (midX + 1, snd ul) (fst lr, midY)
        && hasRect SW (fst ul, midY + 1) (midX, snd lr)
        && hasRect SE (midX + 1, midY + 1) lr
        && split_rule NW && split_rule NE && split_rule SW && split_rule SE
  end.

(** Every rectangle of the tree lies in the image [W] x [H], its upper left
    corner first. *)
Fixpoint inBounds (W H : Z) (nd : Node) : Prop :=
  match nd with
  | nullptr => True
  | mkNode ul lr _ NW NE SW SE =>
      (0 <= fst ul <= fst lr /\ fst lr < W) /\
      (0 <= snd ul <= snd lr /\ snd lr < H) /\
      inBounds W H NW /\ inBounds W H NE /\ inBounds W H SW /\ inBounds W H SE
  end.

(** ** The canvas *)

(** The destination block of a leaf at scale [s]: [s] x [s] canvas pixels
    from the scaled upper left corner of the leaf. *)
Definition inBlock (sx sy s X Y : Z) : bool :=
  (sx <=? X) && (X <? sx + s) && (sy <=? Y) && (Y <? sy + s).

(** renderNode draws the leaves one after the other. *)
Fixpoint drawAll (L : list Node) (img : PNG.t) (scale : Z) : option PNG.t :=
  match L with
  | [] => Some img
  | l :: L' =>
      img1 <- draw img (u32 (fst (upLeft l) * scale))
                (u32 (snd (upLeft l) * scale)) scale (avg l) ;;
      drawAll L' img1 scale
  end.

(** The colour a leaf leaves at the canvas pixel [(X, Y)]: its own in its
    block, the one that was there elsewhere. *)
Definition paint (scale X Y : Z) (under : RGBAPixel) (l : Node) : RGBAPixel :=
  if inBlock (fst (upLeft l) * scale) (snd (upLeft l) * scale) scale X Y
  then avg l else under.

(** The block of the leaf [l] lies on a canvas of [W] x [H] pixels. *)
Definition blockOnCanvas (W H scale : Z) (l : Node) : Prop :=
  0 <= fst (upLeft l) /\ fst (upLeft l) * scale + scale <= W /\
  0 <= snd (upLeft l) /\ snd (upLeft l) * scale + scale <= H.

(** A list of leaves that holds one single-pixel leaf per pixel of a
    [W] x [H] image, with the colours of [f]: the leaves of an unpruned
    tree. *)
Definition PixelLeaves (f : Z -> Z -> RGBAPixel) (W H : Z) (L : list Node)
    : Prop :=
  (forall l, In l L ->
     exists x y, l = leaf x y (f x y) /\ 0 <= x < W /\ 0 <= y < H) /\
  (forall x y, 0 <= x < W -> 0 <= y < H -> In (leaf x y (f x y)) L).

(** ** Paths in the tree *)

Inductive Quadrant : Type := qNW | qNE | qSW | qSE.

Definition child (q : Quadrant) (nd : Node) : Node :=
  match nd with
  | nullptr => nullptr
  | mkNode _ _ _ NW NE SW SE =>
      match q with qNW => NW | qNE => NE | qSW => SW | qSE => SE end
  end.

(** The node reached from [nd] along a path of child pointers. *)
Fixpoint descend (path : list Quadrant) (nd : Node) : Node :=
  match path with
  | [] => nd
  | q :: path' => descend path' (child q nd)
  end.

(** Where the child that rotateCCW stores in quadrant [q] was before:
    [nd->NW = NE; nd->SW = NW; nd->SE = SW; nd->NE = SE]. *)
Definition beforeRotation (q : Quadrant) : Quadrant :=
  match q with qNW => qNE | qSW => qNW | qSE => qSW | qNE => qSE end.

(** ** Trees that the operations produce *)

(** [Reachable distanceTo p t]: the tree [t] was built from a raster and
    then pruned, flipped and rotated any number of times; [p] tells whether
    Prune was among the calls.  [distanceTo] is the pixel distance that Prune
    uses. *)
Inductive Reachable (distanceTo : RGBAPixel -> RGBAPixel -> float)
    : bool -> QTree -> Prop :=
| Reach_build (img : PNG.t) (t : QTree) :
    PNG_ok img -> QTree_of_PNG img = Some t -> Reachable distanceTo false t
| Reach_prune (p : bool) (t : QTree) (tolerance : float) :
    Reachable distanceTo p t ->
    Reachable distanceTo true (Prune distanceTo t tolerance)
| Reach_flip (p : bool) (t : QTree) :
    Reachable distanceTo p t -> Reachable distanceTo p (FlipHorizontal t)
| Reach_rotate (p : bool) (t : QTree) :
    Reachable distanceTo p t -> Reachable distanceTo p (RotateCCW t).

(** The sizes are those of an image and every rectangle lies in it. *)
Definition wellFormed (t : QTree) : Prop :=
  1 <= width t < 2 ^ 31 /\ 1 <= height t < 2 ^ 31 /\
  inBounds (width t) (height t) (root t).

(** ** Sums and means over the raster *)

(** [f lo + f (lo + 1) + ... ], [n] terms. *)
Fixpoint sumZ (n : nat) (lo : Z) (f : Z -> Z) : Z :=
  match n with
  | O => 0
  | S n' => f lo + sumZ n' (lo + 1) f
  end.

(** The sum of one channel over the pixels of the rectangle [[ul, lr]],
    read from the raster row by row. *)
Definition rectSum (ch : RGBAPixel -> Z) (img : PNG.t) (ul lr : Z * Z) : Z :=
  sumZ (Z.to_nat (snd lr - snd ul + 1)) (snd ul)
    (fun y =>
       sumZ (Z.to_nat (fst lr - fst ul + 1)) (fst ul)
         (fun x => ch (PNG.imageData img x y))).

(** The true mean of one channel over a rectangle, truncated. *)
Definition trueMean (ch : RGBAPixel -> Z) (img : PNG.t) (ul lr : Z * Z) : Z :=
  rectSum ch img ul lr / area ul lr.

(** What a child adds to the total of its parent. *)
Definition contrib (ch : RGBAPixel -> Z) (child : Node) (ar : Z) : Z :=
  match child with
  | nullptr => 0
  | mkNode _ _ c _ _ _ _ => ch c * ar
  end.

Definition isLeaf (nd : Node) : bool :=
  match nd with
  | nullptr => false
  | mkNode _ _ _ NW NE SW SE => noChildren NW NE SW SE
  end.

(** Every child that is present is a leaf. *)
Definition childrenAreLeaves (nd : Node) : bool :=
  match nd with
  | nullptr => true
  | mkNode _ _ _ NW NE SW SE =>
      (isNull NW || isLeaf NW) && (isNull NE || isLeaf NE)
      && (isNull SW || isLeaf SW) && (isNull SE || isLeaf SE)
  end.

(** [P] holds of every node of the tree. *)
Fixpoint allNodes (P : Node -> Prop) (nd : Node) : Prop :=
  match nd with
  | nullptr => True
  | mkNode _ _ _ NW NE SW SE =>
      P nd /\ allNodes P NW /\ allNodes P NE /\ allNodes P SW /\ allNodes P SE
  end.

(** The channels of every pixel of the raster are in the 8-bit range. *)
Definition pixelsOk (img : PNG.t) : Prop :=
  forall x y, 0 <= x < PNG.width img -> 0 <= y < PNG.height img ->
    channels_ok (PNG.imageData img x y).

(** The sum of [child.avg * child.area] over the children that are
    present, the area of a child being that of its own rectangle. *)
Definition childSum (ch : RGBAPixel -> Z) (m : Node) : Z :=
  match m with
  | nullptr => 0
  | mkNode _ _ _ NW NE SW SE =>
      contrib ch NW (area (upLeft NW) (lowRight NW))
      + contrib ch NE (area (upLeft NE) (lowRight NE))
      + contrib ch SW (area (upLeft SW) (lowRight SW))
      + contrib ch SE (area (upLeft SE) (lowRight SE))
  end.

(** What holds of the integer channel [ch] of a node of a built tree, [S]
    being the sum of the channel over the rectangle of the node and [A] its
    area: the stored average never exceeds the true mean, it is exact on a
    leaf, it is the quotient of [childSum] by the area on an internal node,
    and it is the truncated true mean when the children are leaves. *)
Definition avgFacts (ch : RGBAPixel -> Z) (img : PNG.t) (m : Node) : Prop :=
  let A := area (upLeft m) (lowRight m) in
  let S := rectSum ch img (upLeft m) (lowRight m) in
  0 < A /\ 0 <= ch (avg m) /\ ch (avg m) * A <= S /\
  (isLeaf m = true -> ch (avg m) * A = S) /\
  (isLeaf m = false -> ch (avg m) = childSum ch m / A) /\
  (childrenAreLeaves m = true -> ch (avg m) = S / A).

(** ** More concrete rasters, and trees *)

Definition red : RGBAPixel := mkRGBAPixel 255 0 0 1.
Definition green : RGBAPixel := mkRGBAPixel 0 255 0 1.

(** One row of two pixels, red then green. *)
Definition img2x1 : PNG.t := PNG.of_rows black [ [red; green] ].

(** One row of three pixels with red channels 1, 0 and 2. *)
Definition img3x1 : PNG.t :=
  PNG.of_rows black
    [ [mkRGBAPixel 1 0 0 1; mkRGBAPixel 0 0 0 1; mkRGBAPixel 2 0 0 1] ].

(** A white raster of 4105 x 4105 pixels. *)
Definition white4105 : PNG.t := PNG.create white 4105 4105.

Definition tree2x2 : QTree :=
  mkQTree
    (mkNode (0, 0) (1, 1) (mkRGBAPixel 127 127 63 1)
       (leaf 0 0 (mkRGBAPixel 255 0 0 1)) (leaf 1 0 (mkRGBAPixel 0 255 0 1))
       (leaf 0 1 (mkRGBAPixel 0 0 255 1)) (leaf 1 1 (mkRGBAPixel 255 255 0 1)))
    2 2.

Definition tree2x1 : QTree :=
  mkQTree (mkNode (0, 0) (1, 0) (mkRGBAPixel 127 127 0 1)
             (leaf 0 0 red) (leaf 1 0 green) nullptr nullptr)
    1 2.

(** A colour that differs from [c]: white when [c] has no red, black
    otherwise. *)
Definition otherThan (c : RGBAPixel) : RGBAPixel :=
  if r c =? 0 then white else black.

(** Modelled from the spec: a pixel distance as the design document asks of
    [distanceTo] (non-negative, symmetric, zero between equal colours): the
    Euclidean distance of the three integer channels.  It stands for
    imgUtil's own where a theorem is run on concrete data. *)
Definition rgbDistance (p q : RGBAPixel) : float :=
  PrimFloat.sqrt
    (uint_to_double ((r p - r q) * (r p - r q) + (g p - g q) * (g p - g q)
                     + (b p - b q) * (b p - b q))).

(** The stored average of channel [ch] against the truncated true mean of
    the rectangle of the node. *)
Definition meanFacts (ch : RGBAPixel -> Z) (img : PNG.t) (n : Node) : Prop :=
  ch (avg n) <= trueMean ch img (upLeft n) (lowRight n) /\
  (childrenAreLeaves n = true ->
   ch (avg n) = trueMean ch img (upLeft n) (lowRight n)).

(** The three integer channels of a node, as a triple. *)
Definition rgb (c : RGBAPixel) : Z * Z * Z := (r c, g c, b c).

(** ** The alpha channel *)

(** What a child adds to the alpha total of its parent: the [double]
    counterpart of [chanTotal]. *)
Definition alphaTotal (tot : float) (child : Node) (ar : Z) : float :=
  match child with
  | nullptr => tot
  | mkNode _ _ c _ _ _ _ => acc_double tot (a c) ar
  end.

(** The sum of [child.avg.a * child.area] over the children that are
    present, taken in [double] from 0.0 in the order NW, NE, SW, SE, the
    area of a child being that of its own rectangle. *)
Definition alphaChildSum (m : Node) : float :=
  match m with
  | nullptr => 0%float
  | mkNode _ _ _ NW NE SW SE =>
      alphaTotal
        (alphaTotal
           (alphaTotal
              (alphaTotal 0%float NW (area (upLeft NW) (lowRight NW)))
              NE (area (upLeft NE) (lowRight NE)))
           SW (area (upLeft SW) (lowRight SW)))
        SE (area (upLeft SE) (lowRight SE))
  end.

(** What holds of the alpha of a node of a built tree: on a leaf it is the
    alpha of its pixel, on an internal node the quotient in [double] of
    [alphaChildSum] by the area. *)
Definition alphaFacts (img : PNG.t) (m : Node) : Prop :=
  (isLeaf m = true ->
   a (avg m) = a (PNG.imageData img (fst (upLeft m)) (snd (upLeft m)))) /\
  (isLeaf m = false ->
   a (avg m) = PrimFloat.div (alphaChildSum m)
                 (uint_to_double (area (upLeft m) (lowRight m)))).

(** [for (i = lo; i < lo + n; i++) acc = step(i, acc)] *)
Fixpoint foldF (n : nat) (lo : Z) (step : Z -> float -> float) (acc : float)
    : float :=
  match n with
  | O => acc
  | S n' => foldF n' (lo + 1) step (step lo acc)
  end.

(** The mean of the alpha of the pixels of the rectangle [[ul, lr]] computed
    directly from the raster: one [double] total, to which the pixels are
    added row by row, divided by the number of pixels. *)
Definition alphaMean (img : PNG.t) (ul lr : Z * Z) : float :=
  PrimFloat.div
    (foldF (Z.to_nat (snd lr - snd ul + 1)) (snd ul)
       (fun y total =>
          foldF (Z.to_nat (fst lr - fst ul + 1)) (fst ul)
            (fun x total' =>
               PrimFloat.add total' (a (PNG.imageData img x y)))
            total)
       0%float)
    (uint_to_double (area ul lr)).

(** One row of 21 black pixels, the first five with alpha 0.375 and the
    others transparent. *)
Definition img21x1 : PNG.t :=
  PNG.mk 21 1
    (fun x _ => mkRGBAPixel 0 0 0 (if x <? 5 then 0.375%float else 0%float)).

(** Two rows of four pixels: red, red, green, blue. *)
Definition blue : RGBAPixel := mkRGBAPixel 0 0 255 1.

Definition img4x2 : PNG.t :=
  PNG.of_rows black [ [red; red; green; blue]; [red; red; green; blue] ].

Definition tree4x2 : QTree :=
  mkQTree
    (mkNode (0, 0) (3, 1) (mkRGBAPixel 127 63 63 1)
       (mkNode (0, 0) (1, 0) red
          (leaf 0 0 red) (leaf 1 0 red) nullptr nullptr)
       (mkNode (2, 0) (3, 0) (mkRGBAPixel 0 127 127 1)
          (leaf 2 0 green) (leaf 3 0 blue) nullptr nullptr)
       (mkNode (0, 1) (1, 1) red
          (leaf 0 1 red) (leaf 1 1 red) nullptr nullptr)
       (mkNode (2, 1) (3, 1) (mkRGBAPixel 0 127 127 1)
          (leaf 2 1 green) (leaf 3 1 blue) nullptr nullptr))
    2 4.

(** ** Tilings kept by the operations *)

(** The leaf rectangles under [nd] tile the rectangle of [nd]: a pixel of
    the rectangle lies in exactly one of them, a pixel outside in none. *)
Definition tiles (nd : Node) : Prop :=
  forall x y, coverCount nd x y
              = Nat.b2n (inRect (upLeft nd) (lowRight nd) x y).

(** Every node of the tree is tiled by the leaves under it. *)
Definition Tiled (nd : Node) : Prop := allNodes tiles nd.

(** What Prune leaves at a place of the tree where the node [n] was and
    the node [n'] is: nothing, or the same corners and colour; a node that
    became a leaf had all its leaves within the tolerance of its colour, a
    node that stayed internal had not. *)
Definition prunedFrom (distanceTo : RGBAPixel -> RGBAPixel -> float)
    (tolerance : float) (n n' : Node) : Prop :=
  n' = nullptr \/
  (isNull n = false /\
   upLeft n' = upLeft n /\ lowRight n' = lowRight n /\ avg n' = avg n /\
   (isLeaf n' = true ->
    isLeaf n = true \/ leavesUnderTol distanceTo n tolerance (avg n) = true) /\
   (isLeaf n' = false ->
    isLeaf n = false /\
    leavesUnderTol distanceTo n tolerance (avg n) = false)).

(** ** Trees in memory *)

(** [Stored h p t F]: in the heap [h] the pointer [p] leads to the tree
    [t], whose nodes are at the addresses [F] (in preorder). *)
Inductive Stored (h : Mem.Heap) : Mem.Ptr -> Node -> list nat -> Prop :=
| Stored_null : Stored h None nullptr []
| Stored_node (a : nat) (ul lr : Z * Z) (c : RGBAPixel)
    (pnw pne psw pse : Mem.Ptr) (tnw tne tsw tse : Node)
    (F1 F2 F3 F4 : list nat) :
    Mem.cells h a = Some (Mem.mkCell ul lr c pnw pne psw pse) ->
    Stored h pnw tnw F1 -> Stored h pne tne F2 ->
    Stored h psw tsw F3 -> Stored h pse tse F4 ->
    Stored h (Some a) (mkNode ul lr c tnw tne tsw tse)
      (a :: F1 ++ F2 ++ F3 ++ F4).

(** No address at or after [next] is allocated. *)
Definition heapOk (h : Mem.Heap) : Prop :=
  forall a, (Mem.next h <= a)%nat -> Mem.cells h a = None.

(** The number of nodes on the longest path from the root down. *)
Fixpoint depth (nd : Node) : nat :=
  match nd with
  | nullptr => 0
  | mkNode _ _ _ NW NE SW SE =>
      S (Nat.max (Nat.max (depth NW) (depth NE))
           (Nat.max (depth SW) (depth SE)))
  end.

(** ** What the operations on the heap are to do *)

(** What a call of copy on a tree [t] does, as a property of the fuel. *)
Definition copySpec (fuel : nat) (t : Node) : Prop :=
  forall h p F,
    heapOk h -> Stored h p t F ->
    exists h' p' F',
      Mem.copy fuel h p = Some (h', p') /\
      Stored h' p' t F' /\ NoDup F' /\
      (forall a, In a F' -> (Mem.next h <= a < Mem.next h')%nat) /\
      (forall a, (a < Mem.next h)%nat -> Mem.cells h' a = Mem.cells h a) /\
      heapOk h' /\ (Mem.next h <= Mem.next h')%nat.

(** What a call of clear on a tree [t] does, as a property of the fuel. *)
Definition clearSpec (fuel : nat) (t : Node) : Prop :=
  forall h p F,
    Stored h p t F -> NoDup F ->
    exists h',
      Mem.clear fuel h p = Some h' /\
      (forall a, In a F -> Mem.cells h' a = None) /\
      (forall a, ~ In a F -> Mem.cells h' a = Mem.cells h a) /\
      Mem.next h' = Mem.next h.

(** The cell of the node [p] points to, if any. *)
Definition top (p : Mem.Ptr) : list nat :=
  match p with
  | None => []
  | Some a => [a]
  end.

(** What a call of clearSt on a tree [t] does, as a property of the fuel:
    the node itself stays, as the node that the functional [clearSt] gives,
    and every node below it is freed. *)
Definition clearStSpec (fuel : nat) (t : Node) : Prop :=
  forall h p F,
    Stored h p t F -> NoDup F ->
    exists h',
      Mem.clearSt fuel h p = Some h' /\
      Stored h' p (clearSt t) (top p) /\
      (forall x, In x F -> p <> Some x -> Mem.cells h' x = None) /\
      (forall x, ~ In x F -> Mem.cells h' x = Mem.cells h x) /\
      Mem.next h' = Mem.next h.

(** What an operation [op] that works in place does on a stored tree [t],
    where [f] is the operation on trees as values: the pointer stays, the
    tree becomes [f t] on cells it had before, the cells it gives up are
    freed, and no other cell is touched. *)
Definition inPlace (op : Mem.Heap -> Mem.Ptr -> option Mem.Heap)
    (f : Node -> Node) (t : Node) : Prop :=
  forall h p F,
    Stored h p t F -> NoDup F ->
    exists h' F',
      op h p = Some h' /\
      Stored h' p (f t) F' /\
      (forall x, In x F' -> In x F) /\ NoDup F' /\
      (forall x, In x F -> ~ In x F' -> Mem.cells h' x = None) /\
      (forall x, ~ In x F -> Mem.cells h' x = Mem.cells h x) /\
      Mem.next h' = Mem.next h.

(** The object [o] owns the tree [t]: its root stores the nodes of [t] in
    the cells [F], no cell twice, and its members are the sizes of [t]. *)
Definition Owns (h : Mem.Heap) (o : Mem.Obj) (t : QTree) (F : list nat)
    : Prop :=
  Stored h (Mem.root o) (root t) F /\ NoDup F /\
  Mem.height o = height t /\ Mem.width o = width t.

(** A heap of four nodes: the tree of [img2x1] in the cells 0, 1 and 2, and
    a tree of one red pixel in the cell 3. *)
Definition heap4 : Mem.Heap :=
  Mem.mkHeap
    (fun a =>
       match a with
       | 0%nat => Some (Mem.mkCell (0, 0) (1, 0) (mkRGBAPixel 127 127 0 1)
                          (Some 1%nat) (Some 2%nat) None None)
       | 1%nat => Some (Mem.mkCell (0, 0) (0, 0) red None None None None)
       | 2%nat => Some (Mem.mkCell (1, 0) (1, 0) green None None None None)
       | 3%nat => Some (Mem.mkCell (0, 0) (0, 0) red None None None None)
       | _ => None
       end)
    4.

Definition obj2x1 : Mem.Obj := Mem.mkObj (Some 0%nat) 1 2.
Definition obj1x1 : Mem.Obj := Mem.mkObj (Some 3%nat) 1 1.
Definition tree1x1 : QTree := mkQTree (leaf 0 0 red) 1 1.

(** Two QTree objects: the one at address 0 owns the 2x1 tree, every other
    one is taken to be the object of the one-pixel tree. *)
Definition objs2 : Mem.Objs :=
  fun i => match i with 0%nat => obj2x1 | _ => obj1x1 end.

(** * Properties *)

(** ** Machine arithmetic *)

Lemma u32_small (z : Z) : 0 <= z < 2 ^ 32 -> u32 z = z.
Proof. intros Hz. unfold u32. apply Z.mod_small. exact Hz. Qed.

Lemma u32_range (z : Z) : 0 <= u32 z < 2 ^ 32.
Proof. unfold u32. apply Z.mod_pos_bound. lia. Qed.

Lemma u32_to_int (z : Z) : u32 (to_int z) = u32 z.
Proof.
  unfold u32, to_int.
  rewrite Zminus_mod, Zmod_mod, <- Zminus_mod.
  f_equal. lia.
Qed.

Lemma to_int_small (z : Z) : 0 <= z < 2 ^ 31 -> to_int z = z.
Proof.
  intros Hz. unfold to_int. rewrite Z.mod_small; lia.
Qed.

Lemma u8_small (z : Z) : 0 <= z < 256 -> u8 z = z.
Proof. intros Hz. unfold u8. apply Z.mod_small. exact Hz. Qed.

Lemma pair_eqb_eq (p q : Z * Z) : pair_eqb p q = true <-> p = q.
Proof.
  destruct p as [p1 p2], q as [q1 q2]. unfold pair_eqb. simpl.
  rewrite andb_true_iff, !Z.eqb_eq. split.
  - intros [-> ->]. reflexivity.
  - intros H. inversion H. auto.
Qed.

Lemma pair_eqb_refl (p : Z * Z) : pair_eqb p p = true.
Proof. apply pair_eqb_eq. reflexivity. Qed.

Lemma pair_eqb_neq (p q : Z * Z) : pair_eqb p q = false <-> p <> q.
Proof.
  rewrite <- pair_eqb_eq. destruct (pair_eqb p q); split; congruence.
Qed.

(** The midpoint of two in-range coordinates does not wrap. *)
Lemma mid_no_wrap (lo hi : Z) :
  0 <= lo <= hi -> hi < 2 ^ 31 ->
  u32 (lo + hi) / 2 = (lo + hi) / 2 /\ lo <= (lo + hi) / 2 <= hi /\
  (lo < hi -> (lo + hi) / 2 < hi).
Proof.
  intros H1 H2. rewrite u32_small by lia.
  assert (Hm := Z.div_mod (lo + hi) 2 ltac:(lia)).
  assert (Hr := Z.mod_pos_bound (lo + hi) 2 ltac:(lia)).
  repeat split; lia.
Qed.

(** ** Loops *)

Lemma for_loop_inv {A : Type} (Inv : Z -> A -> Prop)
    (body : Z -> A -> option A) (n : nat) :
  forall (i : Z) (s : A),
    Inv i s ->
    (forall j s0, i <= j < i + Z.of_nat n -> Inv j s0 ->
       exists s1, body j s0 = Some s1 /\ Inv (j + 1) s1) ->
    exists s', for_loop n i body s = Some s' /\ Inv (i + Z.of_nat n) s'.
Proof.
  induction n as [|n IH]; intros i s Hi Hstep.
  - exists s. simpl. rewrite Z.add_0_r. auto.
  - destruct (Hstep i s ltac:(lia) Hi) as (s1 & Hb & Hi1).
    destruct (IH (i + 1) s1 Hi1) as (s' & Hl & Hi').
    + intros j s0 Hj. apply Hstep. lia.
    + exists s'. cbn [for_loop]. rewrite Hb. cbn [obind]. split; [exact Hl|].
      replace (i + Z.of_nat (S n)) with (i + 1 + Z.of_nat n) by lia.
      exact Hi'.
Qed.

(** ** What BuildNode returns *)

Lemma Built_corners img ul lr n :
  Built img ul lr n -> isNull n = false /\ upLeft n = ul /\ lowRight n = lr.
Proof. intros H. destruct H; simpl; auto. Qed.

Lemma averageOf_channels ul lr midX midY NW NE SW SE c :
  averageOf ul lr midX midY NW NE SW SE = Some c ->
  u32 (area ul lr) <> 0 /\
  r c = chanAverage r ul lr midX midY NW NE SW SE /\
  g c = chanAverage g ul lr midX midY NW NE SW SE /\
  b c = chanAverage b ul lr midX midY NW NE SW SE.
Proof.
  unfold averageOf, chanAverage, area.
  destruct (u32 ((fst lr - fst ul + 1) * (snd lr - snd ul + 1)) =? 0) eqn:E.
  - destruct NW, NE, SW, SE; cbn; rewrite ?E; discriminate.
  - apply Z.eqb_neq in E.
    destruct NW, NE, SW, SE; cbn; intros H; inversion H; subst; cbn; auto.
Qed.

Lemma averageOf_defined ul lr midX midY NW NE SW SE :
  u32 (area ul lr) <> 0 ->
  exists c, averageOf ul lr midX midY NW NE SW SE = Some c.
Proof.
  unfold averageOf, area. intros H. apply Z.eqb_neq in H.
  destruct (addChild _ SE _) as [[[tR tG] tB] tA].
  rewrite H. eauto.
Qed.

Lemma area_u32_nonzero ul lr :
  fst ul <= fst lr -> snd ul <= snd lr -> area ul lr < 2 ^ 32 ->
  u32 (area ul lr) <> 0.
Proof.
  intros H1 H2 H3. unfold area in *. rewrite u32_small; nia.
Qed.

Lemma area_sub_le (W H : Z) ul lr :
  0 <= fst ul <= fst lr -> fst lr < W -> 0 <= snd ul <= snd lr -> snd lr < H ->
  1 <= area ul lr <= W * H.
Proof. intros. unfold area. nia. Qed.

(** BuildNode returns, and returns a node of the relation [Built], on every
    rectangle of a raster of [PNG_ok], as soon as the fuel exceeds the
    half-perimeter of the rectangle. *)
Lemma BuildNode_returns (img : PNG.t) :
  PNG_ok img ->
  forall (fuel : nat) (ul lr : Z * Z),
    0 <= fst ul <= fst lr -> fst lr < PNG.width img ->
    0 <= snd ul <= snd lr -> snd lr < PNG.height img ->
    (fst lr - fst ul) + (snd lr - snd ul) < Z.of_nat fuel ->
    exists n, BuildNode fuel img ul lr = Some n /\ Built img ul lr n.
Proof.
  intros (HW & HH & HA).
  induction fuel as [|fuel IH]; intros [x1 y1] [x2 y2]; cbn [fst snd];
    intros Hx Hx2 Hy Hy2 Hfuel; [lia|].
  cbn [BuildNode fst snd].
  destruct (pair_eqb (x1, y1) (x2, y2)) eqn:E.
  - apply pair_eqb_eq in E. inversion E; subst x2 y2.
    unfold PNG.getPixel, PNG.inside.
    replace ((0 <=? x1) && (x1 <? PNG.width img) && (0 <=? y1)
             && (y1 <? PNG.height img)) with true
      by (symmetry; rewrite !andb_true_iff, !Z.leb_le, !Z.ltb_lt; lia).
    cbn [obind]. eexists. split; [reflexivity|]. constructor.
  - apply pair_eqb_neq in E.
    assert (Hne : x1 < x2 \/ y1 < y2).
    { destruct (Z.eq_dec x1 x2), (Z.eq_dec y1 y2); subst; try lia.
      exfalso. apply E. reflexivity. }
    destruct (mid_no_wrap x1 x2 ltac:(lia) ltac:(lia)) as (-> & Hmx & Hmx').
    destruct (mid_no_wrap y1 y2 ltac:(lia) ltac:(lia)) as (-> & Hmy & Hmy').
    set (mx := (x1 + x2) / 2) in *. set (my := (y1 + y2) / 2) in *.
    assert (Hdef : forall NW NE SW SE, exists c,
               averageOf (x1, y1) (x2, y2) mx my NW NE SW SE = Some c).
    { intros. apply averageOf_defined, area_u32_nonzero; cbn [fst snd]; try lia.
      pose proof (area_sub_le (PNG.width img) (PNG.height img)
                    (x1, y1) (x2, y2)) as Ha.
      cbn [fst snd] in Ha. lia. }
    destruct (IH (x1, y1) (mx, my)) as (nw & -> & Bnw); cbn [fst snd];
      try lia.
    cbn [obind].
    destruct (Z.eqb_spec x2 x1) as [Ex|Ex].
    + (* one pixel wide *)
      subst x2. assert (y1 < y2) by lia.
      assert (mx = x1) by (subst mx; replace (x1 + x1) with (x1 * 2) by lia;
                            apply Z.div_mul; lia).
      rewrite (u32_small (my + 1)) by lia.
      destruct (IH (x1, my + 1) (mx, y2)) as (sw & -> & Bsw); cbn [fst snd];
        try lia.
      cbn [obind].
      destruct (Hdef nw nullptr sw nullptr) as (c & Hc). rewrite Hc.
      cbn [obind]. eexists. split; [reflexivity|].
      replace mx with x1 in *. apply Built_column; auto; lia.
    + rewrite (u32_small (mx + 1)) by lia.
      destruct (IH (mx + 1, y1) (x2, my)) as (ne & -> & Bne); cbn [fst snd];
        try lia.
      cbn [obind].
      destruct (Z.eqb_spec y1 y2) as [Ey|Ey]; cbn [negb].
      * (* one pixel tall *)
        subst y2.
        assert (my = y1) by (subst my; replace (y1 + y1) with (y1 * 2) by lia;
                              apply Z.div_mul; lia).
        cbn [obind].
        destruct (Hdef nw ne nullptr nullptr) as (c & Hc). rewrite Hc.
        cbn [obind]. eexists. split; [reflexivity|].
        replace my with y1 in *. apply Built_row; auto; lia.
      * rewrite (u32_small (my + 1)) by lia.
        destruct (IH (x1, my + 1) (mx, y2)) as (sw & -> & Bsw); cbn [fst snd];
          try lia.
        destruct (IH (mx + 1, my + 1) (x2, y2)) as (se & -> & Bse);
          cbn [fst snd]; try lia.
        cbn [obind].
        destruct (Hdef nw ne sw se) as (c & Hc). rewrite Hc.
        cbn [obind]. eexists. split; [reflexivity|].
        apply Built_quad; auto; lia.
Qed.

(** The constructor succeeds on every raster of [PNG_ok]. *)
Lemma QTree_of_PNG_returns (img : PNG.t) :
  PNG_ok img ->
  exists rt, QTree_of_PNG img = Some (mkQTree rt (PNG.height img) (PNG.width img))
        /\ Built img (0, 0) (PNG.width img - 1, PNG.height img - 1) rt.
Proof.
  intros Hok. pose proof Hok as (HW & HH & HA).
  unfold QTree_of_PNG.
  rewrite (u32_small (PNG.width img - 1)), (u32_small (PNG.height img - 1))
    by lia.
  destruct (BuildNode_returns img Hok (Z.to_nat (PNG.width img + PNG.height img))
              (0, 0) (PNG.width img - 1, PNG.height img - 1))
    as (rt & -> & B); cbn [fst snd]; try lia.
  exists rt. cbn [obind]. auto.
Qed.

(** ** Leaves, rectangles and the split rule *)

Lemma leaves_internal ul lr c NW NE SW SE :
  isNull NW = false ->
  leaves (mkNode ul lr c NW NE SW SE)
  = leaves NW ++ leaves NE ++ leaves SW ++ leaves SE.
Proof. intros H. cbn [leaves]. unfold noChildren. rewrite H. reflexivity. Qed.

Lemma Built_nonnull img ul lr n : Built img ul lr n -> isNull n = false.
Proof. intros H. apply (Built_corners _ _ _ _ H). Qed.

Lemma Built_hasRect img ul lr n : Built img ul lr n -> hasRect n ul lr = true.
Proof.
  intros H. destruct (Built_corners _ _ _ _ H) as (H1 & H2 & H3).
  unfold hasRect. rewrite H1, H2, H3, !pair_eqb_refl. reflexivity.
Qed.

Ltac rect_bools :=
  unfold inRect; cbn [fst snd];
  repeat match goal with
         | |- context [?x <=? ?y] => destruct (Z.leb_spec x y)
         end;
  cbn [andb orb Nat.b2n Nat.add]; try reflexivity; try lia.

Lemma inRect_split2x x1 x2 y1 y2 m x y :
  x1 <= m -> m < x2 ->
  Nat.b2n (inRect (x1, y1) (x2, y2) x y)
  = Nat.add (Nat.b2n (inRect (x1, y1) (m, y2) x y))
            (Nat.b2n (inRect (m + 1, y1) (x2, y2) x y)).
Proof. intros. rect_bools. Qed.

Lemma inRect_split2y x1 x2 y1 y2 m x y :
  y1 <= m -> m < y2 ->
  Nat.b2n (inRect (x1, y1) (x2, y2) x y)
  = Nat.add (Nat.b2n (inRect (x1, y1) (x2, m) x y))
            (Nat.b2n (inRect (x1, m + 1) (x2, y2) x y)).
Proof. intros. rect_bools. Qed.

Lemma coverCount_internal ul lr c NW NE SW SE x y :
  isNull NW = false ->
  coverCount (mkNode ul lr c NW NE SW SE) x y
  = (coverCount NW x y + coverCount NE x y + coverCount SW x y
     + coverCount SE x y)%nat.
Proof.
  intros H. unfold coverCount. rewrite leaves_internal by exact H.
  rewrite !filter_app, !length_app. lia.
Qed.

(** The leaf rectangles under a built node tile its rectangle: a pixel
    inside is in exactly one of them, a pixel outside in none. *)
Lemma Built_tiling img ul lr n :
  Built img ul lr n ->
  forall x y, coverCount n x y = Nat.b2n (inRect ul lr x y).
Proof.
  induction 1 as [x0 y0
                 | x0 y1 y2 c nw sw Hy Bnw IHnw Bsw IHsw Hc
                 | x1 x2 y0 c nw ne Hx Bnw IHnw Bne IHne Hc
                 | x1 x2 y1 y2 c nw ne sw se Hx Hy Bnw IHnw Bne IHne
                     Bsw IHsw Bse IHse Hc]; intros x y.
  - unfold coverCount. cbn [leaves noChildren isNull andb filter].
    unfold covers. cbn [upLeft lowRight].
    destruct (inRect (x0, y0) (x0, y0) x y); reflexivity.
  - rewrite coverCount_internal by (eapply Built_nonnull; eauto).
    rewrite IHnw, IHsw. unfold coverCount at 1 2. cbn [leaves filter length].
    assert (Hm := Z.div_mod (y1 + y2) 2 ltac:(lia)).
    assert (Hr := Z.mod_pos_bound (y1 + y2) 2 ltac:(lia)).
    rewrite (inRect_split2y x0 x0 y1 y2 ((y1 + y2) / 2)) by lia. lia.
  - rewrite coverCount_internal by (eapply Built_nonnull; eauto).
    rewrite IHnw, IHne. unfold coverCount at 1 2. cbn [leaves filter length].
    assert (Hm := Z.div_mod (x1 + x2) 2 ltac:(lia)).
    assert (Hr := Z.mod_pos_bound (x1 + x2) 2 ltac:(lia)).
    rewrite (inRect_split2x x1 x2 y0 y0 ((x1 + x2) / 2)) by lia. lia.
  - rewrite coverCount_internal by (eapply Built_nonnull; eauto).
    rewrite IHnw, IHne, IHsw, IHse.
    assert (Hm := Z.div_mod (x1 + x2) 2 ltac:(lia)).
    assert (Hr := Z.mod_pos_bound (x1 + x2) 2 ltac:(lia)).
    assert (Hm' := Z.div_mod (y1 + y2) 2 ltac:(lia)).
    assert (Hr' := Z.mod_pos_bound (y1 + y2) 2 ltac:(lia)).
    rewrite (inRect_split2y x1 x2 y1 y2 ((y1 + y2) / 2)) by lia.
    rewrite (inRect_split2x x1 x2 y1 ((y1 + y2) / 2) ((x1 + x2) / 2)) by lia.
    rewrite (inRect_split2x x1 x2 ((y1 + y2) / 2 + 1) y2 ((x1 + x2) / 2))
      by lia.
    lia.
Qed.

Ltac mid_facts :=
  repeat match goal with
         | |- context [(?p + ?q) / 2] =>
             lazymatch goal with
             | _ : p + q = 2 * ((p + q) / 2) + (p + q) mod 2 |- _ => fail
             | _ =>
                 pose proof (Z.div_mod (p + q) 2 ltac:(lia));
                 pose proof (Z.mod_pos_bound (p + q) 2 ltac:(lia))
             end
         | _ : context [(?p + ?q) / 2] |- _ =>
             lazymatch goal with
             | _ : p + q = 2 * ((p + q) / 2) + (p + q) mod 2 |- _ => fail
             | _ =>
                 pose proof (Z.div_mod (p + q) 2 ltac:(lia));
                 pose proof (Z.mod_pos_bound (p + q) 2 ltac:(lia))
             end
         end.

Lemma inRect_true ul lr x y :
  inRect ul lr x y = true <->
  fst ul <= x <= fst lr /\ snd ul <= y <= snd lr.
Proof.
  unfold inRect. rewrite !andb_true_iff, !Z.leb_le. lia.
Qed.

(** Every leaf under a built node is one pixel of its rectangle and holds
    the colour of that pixel in the raster. *)
Lemma Built_leaves_form img ul lr n :
  Built img ul lr n ->
  fst ul <= fst lr -> snd ul <= snd lr ->
  forall l, In l (leaves n) ->
    exists x y, l = mkNode (x, y) (x, y) (PNG.imageData img x y)
                      nullptr nullptr nullptr nullptr
           /\ inRect ul lr x y = true.
Proof.
  induction 1; cbn [fst snd] in *; intros Hx0 Hy0 l Hl.
  - cbn in Hl. destruct Hl as [<-|[]]. exists x, y. split; [reflexivity|].
    apply inRect_true. cbn. lia.
  - rewrite leaves_internal in Hl by (eapply Built_nonnull; eauto).
    cbn [leaves app] in Hl. rewrite app_nil_r in Hl. mid_facts.
    apply in_app_or in Hl. destruct Hl as [Hl|Hl];
      [apply IHBuilt1 in Hl|apply IHBuilt2 in Hl]; try lia;
      destruct Hl as (x' & y' & -> & Hin); exists x', y';
      (split; [reflexivity|]); apply inRect_true in Hin; apply inRect_true;
      cbn [fst snd] in *; lia.
  - rewrite leaves_internal in Hl by (eapply Built_nonnull; eauto).
    cbn [leaves app] in Hl. rewrite app_nil_r in Hl. mid_facts.
    apply in_app_or in Hl. destruct Hl as [Hl|Hl];
      [apply IHBuilt1 in Hl|apply IHBuilt2 in Hl]; try lia;
      destruct Hl as (x' & y' & -> & Hin); exists x', y';
      (split; [reflexivity|]); apply inRect_true in Hin; apply inRect_true;
      cbn [fst snd] in *; lia.
  - rewrite leaves_internal in Hl by (eapply Built_nonnull; eauto).
    mid_facts.
    repeat (apply in_app_or in Hl; destruct Hl as [Hl|Hl]);
      [apply IHBuilt1 in Hl|apply IHBuilt2 in Hl|apply IHBuilt3 in Hl
      |apply IHBuilt4 in Hl]; try lia;
      destruct Hl as (x' & y' & -> & Hin); exists x', y';
      (split; [reflexivity|]); apply inRect_true in Hin; apply inRect_true;
      cbn [fst snd] in *; lia.
Qed.

(** Every pixel of the rectangle of a built node has its leaf. *)
Lemma Built_leaf_at img ul lr n :
  Built img ul lr n ->
  forall x y, inRect ul lr x y = true ->
    In (mkNode (x, y) (x, y) (PNG.imageData img x y)
          nullptr nullptr nullptr nullptr) (leaves n).
Proof.
  induction 1; intros x' y' Hin; apply inRect_true in Hin;
    cbn [fst snd] in Hin.
  - replace x' with x by lia. replace y' with y by lia. cbn. auto.
  - rewrite leaves_internal by (eapply Built_nonnull; eauto).
    mid_facts. apply in_or_app.
    destruct (Z_le_gt_dec y' ((y1 + y2) / 2)).
    + left. apply IHBuilt1, inRect_true. cbn [fst snd]. lia.
    + right. cbn [leaves app]. apply in_or_app. left.
      apply IHBuilt2, inRect_true. cbn [fst snd]. lia.
  - rewrite leaves_internal by (eapply Built_nonnull; eauto).
    mid_facts. apply in_or_app.
    destruct (Z_le_gt_dec x' ((x1 + x2) / 2)).
    + left. apply IHBuilt1, inRect_true. cbn [fst snd]. lia.
    + right. apply in_or_app. left.
      apply IHBuilt2, inRect_true. cbn [fst snd]. lia.
  - rewrite leaves_internal by (eapply Built_nonnull; eauto).
    mid_facts.
    destruct (Z_le_gt_dec x' ((x1 + x2) / 2)),
             (Z_le_gt_dec y' ((y1 + y2) / 2)).
    + apply in_or_app. left. apply IHBuilt1, inRect_true. cbn [fst snd]. lia.
    + apply in_or_app. right. apply in_or_app. right. apply in_or_app. left.
      apply IHBuilt3, inRect_true. cbn [fst snd]. lia.
    + apply in_or_app. right. apply in_or_app. left.
      apply IHBuilt2, inRect_true. cbn [fst snd]. lia.
    + apply in_or_app. right. apply in_or_app. right. apply in_or_app. right.
      apply IHBuilt4, inRect_true. cbn [fst snd]. lia.
Qed.

Lemma CountLeaves_internal ul lr c NW NE SW SE :
  isNull NW = false ->
  CountLeaves (mkNode ul lr c NW NE SW SE)
  = (CountLeaves NW + CountLeaves NE + CountLeaves SW + CountLeaves SE)%nat.
Proof. intros H. cbn [CountLeaves]. unfold noChildren. rewrite H. reflexivity. Qed.

(** A built node has as many leaves as its rectangle has pixels. *)
Lemma Built_CountLeaves img ul lr n :
  Built img ul lr n ->
  fst ul <= fst lr -> snd ul <= snd lr ->
  Z.of_nat (CountLeaves n) = area ul lr.
Proof.
  unfold area.
  induction 1; cbn [fst snd] in *; intros Hx0 Hy0.
  - cbn. lia.
  - rewrite CountLeaves_internal by (eapply Built_nonnull; eauto).
    mid_facts. cbn [CountLeaves]. rewrite !Nat2Z.inj_add.
    rewrite IHBuilt1, IHBuilt2 by lia. cbn. lia.
  - rewrite CountLeaves_internal by (eapply Built_nonnull; eauto).
    mid_facts. cbn [CountLeaves]. rewrite !Nat2Z.inj_add.
    rewrite IHBuilt1, IHBuilt2 by lia. cbn. lia.
  - rewrite CountLeaves_internal by (eapply Built_nonnull; eauto).
    mid_facts. rewrite !Nat2Z.inj_add.
    rewrite IHBuilt1, IHBuilt2, IHBuilt3, IHBuilt4 by lia. ring.
Qed.

(** A built node follows the split rule. *)
Lemma Built_split_rule img ul lr n :
  Built img ul lr n -> split_rule n = true.
Proof.
  induction 1; cbn [split_rule fst snd].
  - rewrite pair_eqb_refl. reflexivity.
  - replace (pair_eqb (x, y1) (x, y2)) with false
      by (symmetry; apply pair_eqb_neq; intros E; inversion E; lia).
    rewrite Z.eqb_refl.
    replace ((x + x) / 2) with x
      by (replace (x + x) with (x * 2) by lia; symmetry; apply Z.div_mul; lia).
    rewrite (Built_hasRect _ _ _ _ H0), (Built_hasRect _ _ _ _ H1).
    rewrite IHBuilt1, IHBuilt2. reflexivity.
  - replace (pair_eqb (x1, y) (x2, y)) with false
      by (symmetry; apply pair_eqb_neq; intros E; inversion E; lia).
    replace (x1 =? x2) with false by (symmetry; apply Z.eqb_neq; lia).
    rewrite Z.eqb_refl.
    replace ((y + y) / 2) with y
      by (replace (y + y) with (y * 2) by lia; symmetry; apply Z.div_mul; lia).
    rewrite (Built_hasRect _ _ _ _ H0), (Built_hasRect _ _ _ _ H1).
    rewrite IHBuilt1, IHBuilt2. reflexivity.
  - replace (pair_eqb (x1, y1) (x2, y2)) with false
      by (symmetry; apply pair_eqb_neq; intros E; inversion E; lia).
    replace (x1 =? x2) with false by (symmetry; apply Z.eqb_neq; lia).
    replace (y1 =? y2) with false by (symmetry; apply Z.eqb_neq; lia).
    rewrite (Built_hasRect _ _ _ _ H1), (Built_hasRect _ _ _ _ H2),
      (Built_hasRect _ _ _ _ H3), (Built_hasRect _ _ _ _ H4).
    rewrite IHBuilt1, IHBuilt2, IHBuilt3, IHBuilt4. reflexivity.
Qed.

Lemma Built_inBounds img W H ul lr n :
  Built img ul lr n ->
  0 <= fst ul <= fst lr -> fst lr < W -> 0 <= snd ul <= snd lr -> snd lr < H ->
  inBounds W H n.
Proof.
  induction 1; cbn [fst snd inBounds] in *; intros; mid_facts;
    repeat split; try lia;
    first [apply IHBuilt1|apply IHBuilt2|apply IHBuilt3|apply IHBuilt4]; lia.
Qed.

(** ** Rendering *)

Lemma setPixel_spec img x y c :
  0 <= x < PNG.width img -> 0 <= y < PNG.height img ->
  exists img', PNG.setPixel img x y c = Some img' /\
    PNG.width img' = PNG.width img /\ PNG.height img' = PNG.height img /\
    forall X Y, PNG.imageData img' X Y
                = if (X =? x) && (Y =? y) then c else PNG.imageData img X Y.
Proof.
  intros Hx Hy. unfold PNG.setPixel, PNG.inside.
  replace ((0 <=? x) && (x <? PNG.width img) && (0 <=? y)
           && (y <? PNG.height img)) with true
    by (symmetry; rewrite !andb_true_iff, !Z.leb_le, !Z.ltb_lt; lia).
  eexists. split; [reflexivity|]. cbn. auto.
Qed.

(** draw paints exactly the block of side [scale] at [(startX, startY)],
    when that block lies on the canvas. *)
Lemma draw_spec img startX startY scale c :
  0 <= scale -> 0 <= startX -> 0 <= startY ->
  startX + scale <= PNG.width img -> startY + scale <= PNG.height img ->
  PNG.width img <= 2 ^ 32 -> PNG.height img <= 2 ^ 32 ->
  exists img', draw img startX startY scale c = Some img' /\
    PNG.width img' = PNG.width img /\ PNG.height img' = PNG.height img /\
    forall X Y, PNG.imageData img' X Y
                = if inBlock startX startY scale X Y then c
                  else PNG.imageData img X Y.
Proof.
  intros Hs Hsx Hsy Hw Hh HW HH. unfold draw.
  pose (Inv := fun (i : Z) (im : PNG.t) =>
    PNG.width im = PNG.width img /\ PNG.height im = PNG.height img /\
    forall X Y, PNG.imageData im X Y
                = if (startX <=? X) && (X <? startX + i) && (startY <=? Y)
                     && (Y <? startY + scale)
                  then c else PNG.imageData img X Y).
  destruct (for_loop_inv Inv
              (fun x img1 =>
                 for_loop (Z.to_nat scale) 0
                   (fun y img2 =>
                      PNG.setPixel img2 (u32 (startX + x)) (u32 (startY + y)) c)
                   img1)
              (Z.to_nat scale) 0 img) as (img' & Hrun & Hinv).
  - unfold Inv. repeat split; auto. intros X Y.
    destruct (Z.leb_spec startX X), (Z.ltb_spec X (startX + 0)); cbn; auto; lia.
  - intros i im Hi (Hiw & Hih & Hipix).
    pose (Inv2 := fun (j : Z) (im2 : PNG.t) =>
      PNG.width im2 = PNG.width img /\ PNG.height im2 = PNG.height img /\
      forall X Y, PNG.imageData im2 X Y
                  = if (X =? startX + i) && (startY <=? Y) && (Y <? startY + j)
                    then c else PNG.imageData im X Y).
    destruct (for_loop_inv Inv2
                (fun y img2 =>
                   PNG.setPixel img2 (u32 (startX + i)) (u32 (startY + y)) c)
                (Z.to_nat scale) 0 im) as (im' & Hrun & Hinv).
    + unfold Inv2. repeat split; auto. intros X Y.
      destruct (X =? startX + i), (Z.leb_spec startY Y),
        (Z.ltb_spec Y (startY + 0)); cbn; auto; lia.
    + intros j im2 Hj (Hjw & Hjh & Hjpix).
      rewrite (u32_small (startX + i)), (u32_small (startY + j)) by lia.
      destruct (setPixel_spec im2 (startX + i) (startY + j) c)
        as (im3 & -> & Hw3 & Hh3 & Hpix3); try lia.
      exists im3. split; [reflexivity|]. unfold Inv2.
      repeat split; try congruence. intros X Y. rewrite Hpix3, Hjpix.
      destruct (Z.eqb_spec X (startX + i)), (Z.eqb_spec Y (startY + j)),
        (Z.leb_spec startY Y), (Z.ltb_spec Y (startY + j)),
        (Z.ltb_spec Y (startY + (j + 1))); cbn; auto; lia.
    + exists im'. split; [exact Hrun|].
      destruct Hinv as (Hw' & Hh' & Hpix'). unfold Inv.
      repeat split; try congruence. intros X Y.
      rewrite Hpix', Hipix. rewrite Z2Nat.id by lia.
      destruct (Z.eqb_spec X (startX + i)), (Z.leb_spec startX X),
        (Z.ltb_spec X (startX + i)), (Z.ltb_spec X (startX + (i + 1))),
        (Z.leb_spec startY Y), (Z.ltb_spec Y (startY + (0 + scale))),
        (Z.ltb_spec Y (startY + scale)); cbn; auto; lia.
  - exists img'. split; [exact Hrun|].
    destruct Hinv as (Hw' & Hh' & Hpix'). repeat split; auto.
    intros X Y. rewrite Hpix'. unfold inBlock. rewrite Z2Nat.id by lia.
    reflexivity.
Qed.

Lemma obind_Some_r {A : Type} (m : option A) : (x <- m ;; Some x) = m.
Proof. destruct m; reflexivity. Qed.

Lemma drawAll_app L1 L2 scale : forall img,
  drawAll (L1 ++ L2) img scale
  = (img1 <- drawAll L1 img scale ;; drawAll L2 img1 scale).
Proof.
  induction L1 as [|l L1 IH]; intros img; cbn [drawAll app obind].
  - reflexivity.
  - destruct (draw img _ _ scale (avg l)) as [img1|]; cbn [obind]; auto.
Qed.

Lemma renderNode_leaves scale nd : forall img,
  renderNode nd img scale = drawAll (leaves nd) img scale.
Proof.
  induction nd as [|ul lr c NW IHNW NE IHNE SW IHSW SE IHSE]; intros img.
  - reflexivity.
  - cbn [renderNode leaves].
    destruct (noChildren NW NE SW SE).
    + cbn [drawAll upLeft avg]. rewrite obind_Some_r. reflexivity.
    + rewrite drawAll_app, IHNW.
      destruct (drawAll (leaves NW) img scale) as [i1|]; cbn [obind]; auto.
      rewrite drawAll_app, IHNE.
      destruct (drawAll (leaves NE) i1 scale) as [i2|]; cbn [obind]; auto.
      rewrite drawAll_app, IHSW.
      destruct (drawAll (leaves SW) i2 scale) as [i3|]; cbn [obind]; auto.
Qed.

Lemma drawAll_spec scale L : forall img,
  0 <= scale ->
  PNG.width img <= 2 ^ 32 -> PNG.height img <= 2 ^ 32 ->
  Forall (blockOnCanvas (PNG.width img) (PNG.height img) scale) L ->
  exists img', drawAll L img scale = Some img' /\
    PNG.width img' = PNG.width img /\ PNG.height img' = PNG.height img /\
    forall X Y, PNG.imageData img' X Y
                = fold_left (paint scale X Y) L (PNG.imageData img X Y).
Proof.
  induction L as [|l L IH]; intros img Hs HW HH HL.
  - exists img. cbn. auto.
  - inversion HL as [|l0 L0 (Hx & Hxs & Hy & Hys) HL']; subst.
    cbn [drawAll].
    rewrite (u32_small (fst (upLeft l) * scale)),
      (u32_small (snd (upLeft l) * scale)) by nia.
    destruct (draw_spec img (fst (upLeft l) * scale) (snd (upLeft l) * scale)
                scale (avg l)) as (img1 & -> & Hw1 & Hh1 & Hpix1);
      try lia; try nia.
    cbn [obind].
    destruct (IH img1) as (img' & -> & Hw' & Hh' & Hpix'); try lia.
    { rewrite Hw1, Hh1. exact HL'. }
    exists img'. split; [reflexivity|]. repeat split; try congruence.
    intros X Y. rewrite Hpix'. cbn [fold_left]. unfold paint at 2.
    rewrite Hpix1. reflexivity.
Qed.

(** When every leaf whose block holds [(X, Y)] has the colour [c], the
    canvas pixel ends with [c], or was never painted. *)
Lemma painted_cases scale X Y c L : forall under,
  (forall l, In l L ->
     inBlock (fst (upLeft l) * scale) (snd (upLeft l) * scale) scale X Y = true ->
     avg l = c) ->
  fold_left (paint scale X Y) L under = c \/
  (fold_left (paint scale X Y) L under = under /\
   forall l, In l L ->
     inBlock (fst (upLeft l) * scale) (snd (upLeft l) * scale) scale X Y = false).
Proof.
  induction L as [|l L IH]; intros under Hc.
  - right. cbn. split; [reflexivity|tauto].
  - cbn [fold_left].
    destruct (IH (paint scale X Y under l)) as [E|(E & Hnone)].
    + intros l' Hl'. apply Hc. right. exact Hl'.
    + left. exact E.
    + unfold paint in E |- *.
      destruct (inBlock (fst (upLeft l) * scale) (snd (upLeft l) * scale)
                  scale X Y) eqn:B.
      * left. rewrite E. apply Hc; [left; reflexivity|exact B].
      * right. split; [exact E|]. intros l' [<-|Hl']; auto.
Qed.

Lemma inBlock_div s x X :
  0 < s -> (x * s <= X < x * s + s <-> x = X / s).
Proof.
  intros Hs. split.
  - intros HX. apply (Z.div_unique X s x (X - x * s)); lia.
  - intros ->. pose proof (Z.div_mod X s ltac:(lia)).
    pose proof (Z.mod_pos_bound X s Hs). lia.
Qed.

(** Rendering an unpruned tree at scale [s]: the canvas pixel [(X, Y)] has
    the colour of the image pixel [(X / s, Y / s)]. *)
Lemma Render_PixelLeaves blank f t s :
  PixelLeaves f (width t) (height t) (leaves (root t)) ->
  1 <= s -> 0 <= width t -> 0 <= height t ->
  width t * s < 2 ^ 32 -> height t * s < 2 ^ 32 ->
  exists out, Render blank t s = Some out /\
    PNG.width out = width t * s /\ PNG.height out = height t * s /\
    forall X Y, 0 <= X < width t * s -> 0 <= Y < height t * s ->
      PNG.imageData out X Y = f (X / s) (Y / s).
Proof.
  intros (Hform & Hall) Hs HW0 HH0 HW HH. unfold Render.
  rewrite renderNode_leaves.
  rewrite (u32_small (width t * s)), (u32_small (height t * s)) by nia.
  destruct (drawAll_spec s (leaves (root t))
              (PNG.create blank (width t * s) (height t * s)))
    as (out & -> & Hw & Hh & Hpix); cbn [PNG.create PNG.width PNG.height];
    try lia.
  { apply Forall_forall. intros l Hl.
    destruct (Hform l Hl) as (x & y & -> & Hx & Hy).
    unfold blockOnCanvas. cbn [leaf upLeft fst snd]. nia. }
  exists out. split; [reflexivity|]. cbn in Hw, Hh.
  repeat split; auto. intros X Y HX HY. rewrite Hpix.
  assert (HXs : 0 <= X / s < width t).
  { split; [apply Z.div_pos; lia|apply Z.div_lt_upper_bound; lia]. }
  assert (HYs : 0 <= Y / s < height t).
  { split; [apply Z.div_pos; lia|apply Z.div_lt_upper_bound; lia]. }
  destruct (painted_cases s X Y (f (X / s) (Y / s)) (leaves (root t))
              (PNG.imageData (PNG.create blank (width t * s) (height t * s)) X Y))
    as [E|(_ & Hnone)].
  - intros l Hl B. destruct (Hform l Hl) as (x & y & -> & _).
    cbn [leaf upLeft avg fst snd] in *. unfold inBlock in B.
    rewrite !andb_true_iff, !Z.leb_le, !Z.ltb_lt in B.
    assert (x = X / s) by (apply inBlock_div; lia).
    assert (y = Y / s) by (apply inBlock_div; lia).
    subst. reflexivity.
  - exact E.
  - exfalso. specialize (Hnone _ (Hall (X / s) (Y / s) HXs HYs)).
    cbn [leaf upLeft fst snd] in Hnone. unfold inBlock in Hnone.
    pose proof (proj2 (inBlock_div s (X / s) X ltac:(lia)) eq_refl).
    pose proof (proj2 (inBlock_div s (Y / s) Y ltac:(lia)) eq_refl).
    replace (X / s * s <=? X) with true in Hnone
      by (symmetry; apply Z.leb_le; lia).
    replace (X <? X / s * s + s) with true in Hnone
      by (symmetry; apply Z.ltb_lt; lia).
    replace (Y / s * s <=? Y) with true in Hnone
      by (symmetry; apply Z.leb_le; lia).
    replace (Y <? Y / s * s + s) with true in Hnone
      by (symmetry; apply Z.ltb_lt; lia).
    discriminate.
Qed.

(** ** Unpruned trees *)

Lemma Built_PixelLeaves img n :
  Built img (0, 0) (PNG.width img - 1, PNG.height img - 1) n ->
  1 <= PNG.width img -> 1 <= PNG.height img ->
  PixelLeaves (PNG.imageData img) (PNG.width img) (PNG.height img) (leaves n).
Proof.
  intros B HW HH. split.
  - intros l Hl.
    destruct (Built_leaves_form _ _ _ _ B ltac:(cbn; lia) ltac:(cbn; lia) l Hl)
      as (x & y & -> & Hin).
    apply inRect_true in Hin. cbn [fst snd] in Hin.
    exists x, y. split; [reflexivity|lia].
  - intros x y Hx Hy. apply (Built_leaf_at _ _ _ _ B).
    apply inRect_true. cbn [fst snd]. lia.
Qed.

(** ** Flip and rotation, node by node *)

Lemma isNull_flipHorizontal W nd : isNull (flipHorizontal W nd) = isNull nd.
Proof.
  destruct nd as [|ul lr c NW NE SW SE]; cbn; [reflexivity|].
  destruct (u32 (W - 1 - fst lr) >? u32 (W - 1 - fst ul)); reflexivity.
Qed.

Lemma isNull_rotateCCW h nd : isNull (rotateCCW h nd) = isNull nd.
Proof. destruct nd as [|ul lr c NW NE SW SE]; reflexivity. Qed.

Lemma flipHorizontal_node W ul lr c NW NE SW SE :
  0 <= fst ul <= fst lr -> fst lr < W -> W <= 2 ^ 32 ->
  flipHorizontal W (mkNode ul lr c NW NE SW SE)
  = mkNode (W - 1 - fst lr, snd ul) (W - 1 - fst ul, snd lr) c
      (flipHorizontal W NE) (flipHorizontal W NW)
      (flipHorizontal W SE) (flipHorizontal W SW).
Proof.
  intros H1 H2 H3. cbn [flipHorizontal].
  rewrite (u32_small (W - 1 - fst lr)), (u32_small (W - 1 - fst ul)) by lia.
  destruct (Z.gtb_spec (W - 1 - fst lr) (W - 1 - fst ul)); [lia|reflexivity].
Qed.

Lemma leaves_flipHorizontal W nd : forall l',
  In l' (leaves (flipHorizontal W nd)) <->
  exists l, In l (leaves nd) /\ l' = flipHorizontal W l.
Proof.
  induction nd as [|ul lr c NW IHNW NE IHNE SW IHSW SE IHSE]; intros l'.
  - cbn. split; [tauto|intros (l & [] & _)].
  - assert (Hn : noChildren (flipHorizontal W NE) (flipHorizontal W NW)
                   (flipHorizontal W SE) (flipHorizontal W SW)
                 = noChildren NW NE SW SE).
    { unfold noChildren. rewrite !isNull_flipHorizontal.
      destruct (isNull NW), (isNull NE), (isNull SW), (isNull SE); reflexivity. }
    remember (mkNode ul lr c NW NE SW SE) as nd eqn:End.
    assert (Hl : leaves nd = if noChildren NW NE SW SE then [nd]
                             else leaves NW ++ leaves NE ++ leaves SW ++ leaves SE)
      by (subst nd; reflexivity).
    assert (Hl' : leaves (flipHorizontal W nd)
                  = if noChildren NW NE SW SE then [flipHorizontal W nd]
                    else leaves (flipHorizontal W NE) ++ leaves (flipHorizontal W NW)
                         ++ leaves (flipHorizontal W SE)
                         ++ leaves (flipHorizontal W SW)).
    { subst nd. cbn [flipHorizontal].
      destruct (u32 (W - 1 - fst lr) >? u32 (W - 1 - fst ul));
        cbn [leaves]; rewrite Hn; reflexivity. }
    rewrite Hl, Hl'. destruct (noChildren NW NE SW SE).
    + cbn [In]. split.
      * intros [<-|[]]. exists nd. auto.
      * intros (l & [<-|[]] & ->). auto.
    + rewrite !in_app_iff, IHNW, IHNE, IHSW, IHSE. split.
      * intros [(l & H & ->)|[(l & H & ->)|[(l & H & ->)|(l & H & ->)]]];
          exists l; rewrite !in_app_iff; tauto.
      * intros (l & H & ->). rewrite !in_app_iff in H.
        destruct H as [H|[H|[H|H]]]; eauto 6.
Qed.

Lemma leaves_rotateCCW h nd : forall l',
  In l' (leaves (rotateCCW h nd)) <->
  exists l, In l (leaves nd) /\ l' = rotateCCW h l.
Proof.
  induction nd as [|ul lr c NW IHNW NE IHNE SW IHSW SE IHSE]; intros l'.
  - cbn. split; [tauto|intros (l & [] & _)].
  - assert (Hn : noChildren (rotateCCW h NE) (rotateCCW h SE)
                   (rotateCCW h NW) (rotateCCW h SW)
                 = noChildren NW NE SW SE).
    { unfold noChildren. rewrite !isNull_rotateCCW.
      destruct (isNull NW), (isNull NE), (isNull SW), (isNull SE); reflexivity. }
    remember (mkNode ul lr c NW NE SW SE) as nd eqn:End.
    assert (Hl : leaves nd = if noChildren NW NE SW SE then [nd]
                             else leaves NW ++ leaves NE ++ leaves SW ++ leaves SE)
      by (subst nd; reflexivity).
    assert (Hl' : leaves (rotateCCW h nd)
                  = if noChildren NW NE SW SE then [rotateCCW h nd]
                    else leaves (rotateCCW h NE) ++ leaves (rotateCCW h SE)
                         ++ leaves (rotateCCW h NW) ++ leaves (rotateCCW h SW)).
    { subst nd. cbn [rotateCCW leaves]. rewrite Hn. reflexivity. }
    rewrite Hl, Hl'. destruct (noChildren NW NE SW SE).
    + cbn [In]. split.
      * intros [<-|[]]. exists nd. auto.
      * intros (l & [<-|[]] & ->). auto.
    + rewrite !in_app_iff, IHNW, IHNE, IHSW, IHSE. split.
      * intros [(l & H & ->)|[(l & H & ->)|[(l & H & ->)|(l & H & ->)]]];
          exists l; rewrite !in_app_iff; tauto.
      * intros (l & H & ->). rewrite !in_app_iff in H.
        destruct H as [H|[H|[H|H]]]; eauto 6.
Qed.

Lemma flipHorizontal_leaf W x y c :
  0 <= x < W -> W <= 2 ^ 32 ->
  flipHorizontal W (leaf x y c) = leaf (W - 1 - x) y c.
Proof.
  intros Hx HW. unfold leaf. rewrite flipHorizontal_node; cbn [fst snd]; try lia.
  reflexivity.
Qed.

Lemma rotateCCW_leaf h x y c :
  0 <= x < h -> h <= 2 ^ 32 ->
  rotateCCW h (leaf x y c) = leaf y (h - 1 - x) c.
Proof.
  intros Hx Hh. unfold leaf. cbn [rotateCCW fst snd].
  rewrite (u32_small (h - x - 1)) by lia.
  replace (h - x - 1) with (h - 1 - x) by lia. reflexivity.
Qed.

(** The flip of an unpruned tree is the unpruned tree of the mirrored
    image. *)
Lemma PixelLeaves_flipHorizontal f W H nd :
  W <= 2 ^ 32 ->
  PixelLeaves f W H (leaves nd) ->
  PixelLeaves (fun x y => f (W - 1 - x) y) W H (leaves (flipHorizontal W nd)).
Proof.
  intros HW (Hform & Hall). split.
  - intros l' Hl'. apply leaves_flipHorizontal in Hl'.
    destruct Hl' as (l & Hl & ->).
    destruct (Hform l Hl) as (x & y & -> & Hx & Hy).
    exists (W - 1 - x), y. rewrite flipHorizontal_leaf by lia.
    replace (W - 1 - (W - 1 - x)) with x by lia. split; [reflexivity|lia].
  - intros x y Hx Hy. apply leaves_flipHorizontal.
    exists (leaf (W - 1 - x) y (f (W - 1 - x) y)). split.
    + apply Hall; lia.
    + rewrite flipHorizontal_leaf by lia.
      replace (W - 1 - (W - 1 - x)) with x by lia. reflexivity.
Qed.

(** The rotation of an unpruned tree is the unpruned tree of the image
    turned counter-clockwise: the pixel [(x, y)] comes from
    [(W - 1 - y, x)]. *)
Lemma PixelLeaves_rotateCCW f W H nd :
  W <= 2 ^ 32 ->
  PixelLeaves f W H (leaves nd) ->
  PixelLeaves (fun x y => f (W - 1 - y) x) H W (leaves (rotateCCW W nd)).
Proof.
  intros HW (Hform & Hall). split.
  - intros l' Hl'. apply leaves_rotateCCW in Hl'.
    destruct Hl' as (l & Hl & ->).
    destruct (Hform l Hl) as (x & y & -> & Hx & Hy).
    exists y, (W - 1 - x). rewrite rotateCCW_leaf by lia.
    replace (W - 1 - (W - 1 - x)) with x by lia. split; [reflexivity|lia].
  - intros x y Hx Hy. apply leaves_rotateCCW.
    exists (leaf (W - 1 - y) x (f (W - 1 - y) x)). split.
    + apply Hall; lia.
    + rewrite rotateCCW_leaf by lia.
      replace (W - 1 - (W - 1 - y)) with y by lia. reflexivity.
Qed.

Lemma inBounds_flipHorizontal W H nd :
  W <= 2 ^ 32 -> inBounds W H nd -> inBounds W H (flipHorizontal W nd).
Proof.
  intros HW. induction nd as [|ul lr c NW IHNW NE IHNE SW IHSW SE IHSE].
  - auto.
  - intros (Hx & Hy & B1 & B2 & B3 & B4).
    rewrite flipHorizontal_node by lia. cbn [inBounds fst snd].
    repeat split; auto; lia.
Qed.

Lemma inBounds_rotateCCW W H nd :
  W <= 2 ^ 32 -> inBounds W H nd -> inBounds H W (rotateCCW W nd).
Proof.
  intros HW. induction nd as [|ul lr c NW IHNW NE IHNE SW IHSW SE IHSE].
  - auto.
  - intros (Hx & Hy & B1 & B2 & B3 & B4).
    cbn [rotateCCW inBounds fst snd].
    rewrite (u32_small (W - fst lr - 1)), (u32_small (W - fst ul - 1)) by lia.
    repeat split; auto; lia.
Qed.

Lemma inBounds_pruneSt distanceTo W H tol nd :
  inBounds W H nd -> inBounds W H (pruneSt distanceTo nd tol).
Proof.
  induction nd as [|ul lr c NW IHNW NE IHNE SW IHSW SE IHSE].
  - auto.
  - intros (Hx & Hy & B1 & B2 & B3 & B4). cbn [pruneSt].
    destruct (noChildren NW NE SW SE); [cbn [inBounds]; tauto|].
    destruct (leavesUnderTol distanceTo (mkNode ul lr c NW NE SW SE) tol c);
      cbn [clearSt inBounds]; tauto.
Qed.

(** Two flips put every node back. *)
Lemma flipHorizontal_involutive W H nd :
  W <= 2 ^ 32 -> inBounds W H nd ->
  flipHorizontal W (flipHorizontal W nd) = nd.
Proof.
  intros HW. induction nd as [|ul lr c NW IHNW NE IHNE SW IHSW SE IHSE].
  - reflexivity.
  - intros (Hx & Hy & B1 & B2 & B3 & B4).
    rewrite flipHorizontal_node by lia.
    rewrite flipHorizontal_node by (cbn [fst snd]; lia).
    cbn [fst snd]. rewrite IHNW, IHNE, IHSW, IHSE by assumption.
    replace (W - 1 - (W - 1 - fst ul)) with (fst ul) by lia.
    replace (W - 1 - (W - 1 - fst lr)) with (fst lr) by lia.
    destruct ul, lr. reflexivity.
Qed.

Lemma u32_sub_sub (h a : Z) : u32 (h - u32 (h - a - 1) - 1) = u32 a.
Proof.
  unfold u32.
  rewrite <- Zminus_mod_idemp_l, Zminus_mod_idemp_r, Zminus_mod_idemp_l.
  f_equal. lia.
Qed.

(** Four rotations, with the height of the tree at each of them, put every
    node back. *)
Lemma rotateCCW_four W H nd :
  W <= 2 ^ 32 -> H <= 2 ^ 32 -> inBounds W H nd ->
  rotateCCW H (rotateCCW W (rotateCCW H (rotateCCW W nd))) = nd.
Proof.
  intros HW HH. induction nd as [|ul lr c NW IHNW NE IHNE SW IHSW SE IHSE].
  - reflexivity.
  - intros (Hx & Hy & B1 & B2 & B3 & B4).
    cbn [rotateCCW fst snd].
    rewrite IHNW, IHNE, IHSW, IHSE by assumption.
    rewrite !u32_sub_sub.
    rewrite (u32_small (fst ul)), (u32_small (fst lr)), (u32_small (snd ul)),
      (u32_small (snd lr)) by lia.
    destruct ul, lr. reflexivity.
Qed.

(** ** Positions in the tree *)

Lemma descend_rotateCCW h path : forall nd,
  descend path (rotateCCW h nd)
  = rotateCCW h (descend (map beforeRotation path) nd).
Proof.
  induction path as [|q path IH]; intros nd; cbn [descend map].
  - reflexivity.
  - rewrite <- IH. f_equal. destruct nd; [reflexivity|]. destruct q; reflexivity.
Qed.

Lemma RotateCCW_unfold t :
  RotateCCW t = mkQTree (rotateCCW (width t) (root t)) (width t) (height t).
Proof. reflexivity. Qed.

Lemma CountNodes_flipHorizontal W nd :
  CountNodes (flipHorizontal W nd) = CountNodes nd.
Proof.
  induction nd as [|ul lr c NW IHNW NE IHNE SW IHSW SE IHSE]; [reflexivity|].
  cbn [flipHorizontal].
  destruct (u32 (W - 1 - fst lr) >? u32 (W - 1 - fst ul)); cbn [CountNodes];
    rewrite IHNW, IHNE, IHSW, IHSE; lia.
Qed.

Lemma CountNodes_rotateCCW h nd : CountNodes (rotateCCW h nd) = CountNodes nd.
Proof.
  induction nd as [|ul lr c NW IHNW NE IHNE SW IHSW SE IHSE]; [reflexivity|].
  cbn [rotateCCW CountNodes]. rewrite IHNW, IHNE, IHSW, IHSE. lia.
Qed.

Lemma CountLeaves_flipHorizontal W nd :
  CountLeaves (flipHorizontal W nd) = CountLeaves nd.
Proof.
  induction nd as [|ul lr c NW IHNW NE IHNE SW IHSW SE IHSE]; [reflexivity|].
  cbn [flipHorizontal].
  destruct (u32 (W - 1 - fst lr) >? u32 (W - 1 - fst ul)); cbn [CountLeaves];
    unfold noChildren; rewrite !isNull_flipHorizontal, IHNW, IHNE, IHSW, IHSE;
    destruct (isNull NW), (isNull NE), (isNull SW), (isNull SE);
    cbn [andb]; lia.
Qed.

Lemma CountLeaves_rotateCCW h nd : CountLeaves (rotateCCW h nd) = CountLeaves nd.
Proof.
  induction nd as [|ul lr c NW IHNW NE IHNE SW IHSW SE IHSE]; [reflexivity|].
  cbn [rotateCCW CountLeaves].
  unfold noChildren; rewrite !isNull_rotateCCW, IHNW, IHNE, IHSW, IHSE.
  destruct (isNull NW), (isNull NE), (isNull SW), (isNull SE); cbn [andb]; lia.
Qed.

Lemma div_mirror (W s Y : Z) :
  0 < s -> 0 <= Y < W * s -> (W * s - 1 - Y) / s = W - 1 - Y / s.
Proof.
  intros Hs HY. symmetry.
  pose proof (Z.div_mod Y s ltac:(lia)). pose proof (Z.mod_pos_bound Y s Hs).
  apply (Z.div_unique _ s _ (s - 1 - Y mod s)); lia.
Qed.

(** ** Trees that the public operations produce *)

Section Reachability.

Variable distanceTo : RGBAPixel -> RGBAPixel -> float.

Lemma Reachable_wellFormed p t : Reachable distanceTo p t -> wellFormed t.
Proof.
  induction 1 as [img t Hok Hb|p t tol R IH|p t R IH|p t R IH].
  - destruct (QTree_of_PNG_returns img Hok) as (rt & E & B).
    rewrite E in Hb. inversion Hb; subst t. destruct Hok as (HW & HH & _).
    unfold wellFormed. cbn [width height root]. repeat split; try lia.
    apply (Built_inBounds _ _ _ _ _ _ B); cbn [fst snd]; lia.
  - destruct IH as (HW & HH & B). unfold wellFormed, Prune.
    cbn [width height root]. repeat split; try lia.
    apply inBounds_pruneSt. exact B.
  - destruct IH as (HW & HH & B). unfold wellFormed, FlipHorizontal.
    cbn [width height root]. repeat split; try lia.
    apply inBounds_flipHorizontal; [lia|exact B].
  - destruct IH as (HW & HH & B). rewrite RotateCCW_unfold.
    unfold wellFormed. cbn [width height root]. repeat split; try lia.
    apply inBounds_rotateCCW; [lia|exact B].
Qed.

Lemma Reachable_unpruned p t :
  Reachable distanceTo p t -> p = false ->
  exists f, PixelLeaves f (width t) (height t) (leaves (root t)).
Proof.
  induction 1 as [img t Hok Hb|p t tol R IH|p t R IH|p t R IH]; intros Hp.
  - destruct (QTree_of_PNG_returns img Hok) as (rt & E & B).
    rewrite E in Hb. inversion Hb; subst t. destruct Hok as (HW & HH & _).
    exists (PNG.imageData img). cbn [width height root].
    apply Built_PixelLeaves; [exact B|lia|lia].
  - discriminate.
  - destruct (IH Hp) as (f & Hf).
    destruct (Reachable_wellFormed _ _ R) as (HW & _).
    eexists. unfold FlipHorizontal. cbn [width height root].
    apply PixelLeaves_flipHorizontal; [lia|exact Hf].
  - destruct (IH Hp) as (f & Hf).
    destruct (Reachable_wellFormed _ _ R) as (HW & _).
    eexists. rewrite RotateCCW_unfold. cbn [width height root].
    apply PixelLeaves_rotateCCW; [lia|exact Hf].
Qed.

End Reachability.

(** ** Averages *)

Lemma sumZ_app (f : Z -> Z) (n m : nat) : forall lo,
  sumZ (n + m) lo f = sumZ n lo f + sumZ m (lo + Z.of_nat n) f.
Proof.
  induction n as [|n IH]; intros lo.
  - cbn. f_equal. lia.
  - cbn [sumZ Nat.add]. rewrite IH. replace (lo + 1 + Z.of_nat n)
      with (lo + Z.of_nat (S n)) by lia. lia.
Qed.

Lemma sumZ_ext (f g : Z -> Z) (n : nat) : forall lo,
  (forall i, f i = g i) -> sumZ n lo f = sumZ n lo g.
Proof.
  induction n as [|n IH]; intros lo E; cbn; [reflexivity|].
  rewrite E, (IH (lo + 1) E). reflexivity.
Qed.

Lemma sumZ_plus (f g : Z -> Z) (n : nat) : forall lo,
  sumZ n lo (fun i => f i + g i) = sumZ n lo f + sumZ n lo g.
Proof.
  induction n as [|n IH]; intros lo; cbn; [reflexivity|]. rewrite IH. lia.
Qed.

Lemma sumZ_bounds (f : Z -> Z) (lb ub : Z) (n : nat) : forall lo,
  (forall i, lo <= i < lo + Z.of_nat n -> lb <= f i <= ub) ->
  lb * Z.of_nat n <= sumZ n lo f <= ub * Z.of_nat n.
Proof.
  induction n as [|n IH]; intros lo Hb.
  - cbn. lia.
  - cbn [sumZ]. specialize (IH (lo + 1) ltac:(intros; apply Hb; lia)).
    specialize (Hb lo ltac:(lia)). lia.
Qed.

Lemma rectSum_pixel ch img x y :
  rectSum ch img (x, y) (x, y) = ch (PNG.imageData img x y).
Proof.
  unfold rectSum. cbn [fst snd].
  replace (y - y + 1) with 1 by lia. replace (x - x + 1) with 1 by lia.
  change (Z.to_nat 1) with 1%nat. cbn [sumZ]. lia.
Qed.

Lemma rectSum_split_y ch img x1 x2 y1 y2 m :
  y1 <= m -> m < y2 ->
  rectSum ch img (x1, y1) (x2, y2)
  = rectSum ch img (x1, y1) (x2, m) + rectSum ch img (x1, m + 1) (x2, y2).
Proof.
  intros H1 H2. unfold rectSum. cbn [fst snd].
  replace (Z.to_nat (y2 - y1 + 1))
    with (Z.to_nat (m - y1 + 1) + Z.to_nat (y2 - (m + 1) + 1))%nat by lia.
  rewrite sumZ_app. do 2 f_equal. lia.
Qed.

Lemma rectSum_split_x ch img x1 x2 y1 y2 m :
  x1 <= m -> m < x2 ->
  rectSum ch img (x1, y1) (x2, y2)
  = rectSum ch img (x1, y1) (m, y2) + rectSum ch img (m + 1, y1) (x2, y2).
Proof.
  intros H1 H2. unfold rectSum. cbn [fst snd].
  rewrite <- sumZ_plus. apply sumZ_ext. intros y.
  replace (Z.to_nat (x2 - x1 + 1))
    with (Z.to_nat (m - x1 + 1) + Z.to_nat (x2 - (m + 1) + 1))%nat by lia.
  rewrite sumZ_app. do 2 f_equal. lia.
Qed.

Lemma rectSum_bounds ch img ul lr (lb ub : Z) :
  fst ul <= fst lr -> snd ul <= snd lr ->
  (forall x y, fst ul <= x <= fst lr -> snd ul <= y <= snd lr ->
     lb <= ch (PNG.imageData img x y) <= ub) ->
  lb * area ul lr <= rectSum ch img ul lr <= ub * area ul lr.
Proof.
  intros Hx Hy Hb. unfold rectSum, area.
  pose proof (sumZ_bounds
    (fun y => sumZ (Z.to_nat (fst lr - fst ul + 1)) (fst ul)
                (fun x => ch (PNG.imageData img x y)))
    (lb * (fst lr - fst ul + 1)) (ub * (fst lr - fst ul + 1))
    (Z.to_nat (snd lr - snd ul + 1)) (snd ul)) as HS.
  rewrite Z2Nat.id in HS by lia.
  assert (forall i, snd ul <= i < snd ul + (snd lr - snd ul + 1) ->
            lb * (fst lr - fst ul + 1)
            <= sumZ (Z.to_nat (fst lr - fst ul + 1)) (fst ul)
                 (fun x => ch (PNG.imageData img x i))
            <= ub * (fst lr - fst ul + 1)) as Hrow.
  { intros i Hi.
    pose proof (sumZ_bounds (fun x => ch (PNG.imageData img x i)) lb ub
                  (Z.to_nat (fst lr - fst ul + 1)) (fst ul)) as HR.
    rewrite Z2Nat.id in HR by lia. apply HR. intros x Hxr. apply Hb; lia. }
  specialize (HS Hrow). lia.
Qed.

Lemma u32_acc_int t c ar : u32 (acc_int t c ar) = u32 (t + c * ar).
Proof.
  unfold acc_int. rewrite u32_to_int. unfold u32.
  rewrite Zmod_mod, <- Zplus_mod. reflexivity.
Qed.

Lemma u32_chanTotal ch t t' child ar :
  u32 t = u32 t' ->
  u32 (chanTotal ch t child ar) = u32 (t' + contrib ch child ar).
Proof.
  intros E. destruct child as [|ul lr c NW NE SW SE]; cbn [chanTotal contrib].
  - rewrite Z.add_0_r. exact E.
  - rewrite u32_acc_int. unfold u32 in *.
    rewrite <- Zplus_mod_idemp_l, E, Zplus_mod_idemp_l. reflexivity.
Qed.

(** Without wrap-around the integer channel of an internal node is the
    quotient of the area-weighted sum of its children by its area. *)
Lemma chanAverage_exact ch ul lr midX midY NW NE SW SE :
  0 <= (midX - fst ul + 1) * (midY - snd ul + 1) < 2 ^ 32 ->
  0 <= (fst lr - (midX + 1) + 1) * (midY - snd ul + 1) < 2 ^ 32 ->
  0 <= (midX - fst ul + 1) * (snd lr - (midY + 1) + 1) < 2 ^ 32 ->
  0 <= (fst lr - (midX + 1) + 1) * (snd lr - (midY + 1) + 1) < 2 ^ 32 ->
  0 < area ul lr < 2 ^ 32 ->
  forall S,
    S = contrib ch NW ((midX - fst ul + 1) * (midY - snd ul + 1))
        + contrib ch NE ((fst lr - (midX + 1) + 1) * (midY - snd ul + 1))
        + contrib ch SW ((midX - fst ul + 1) * (snd lr - (midY + 1) + 1))
        + contrib ch SE ((fst lr - (midX + 1) + 1) * (snd lr - (midY + 1) + 1)) ->
    0 <= S < 2 ^ 32 -> S / area ul lr < 256 ->
    chanAverage ch ul lr midX midY NW NE SW SE = S / area ul lr.
Proof.
  intros H1 H2 H3 H4 HA S HS HSr Hq. unfold chanAverage. unfold area in *.
  rewrite !(u32_small (_ * _)) by assumption.
  erewrite u32_chanTotal;
    [|erewrite u32_chanTotal;
      [|erewrite u32_chanTotal;
        [|erewrite u32_chanTotal; [|reflexivity]; reflexivity]; reflexivity];
      reflexivity].
  rewrite (u32_small ((fst lr - fst ul + 1) * (snd lr - snd ul + 1))) by lia.
  rewrite Z.add_0_l, <- HS, (u32_small S) by lia.
  assert (0 <= S / ((fst lr - fst ul + 1) * (snd lr - snd ul + 1)))
    by (apply Z.div_pos; lia).
  rewrite to_int_small, u8_small by lia. reflexivity.
Qed.

Lemma allNodes_here (P : Node -> Prop) n :
  isNull n = false -> allNodes P n -> P n.
Proof. destruct n; [discriminate|]. cbn. tauto. Qed.

Lemma contrib_nonnull ch n ar :
  isNull n = false -> contrib ch n ar = ch (avg n) * ar.
Proof. destruct n; [discriminate|]. reflexivity. Qed.

Lemma isLeaf_internal ul lr c NW NE SW SE :
  isNull NW = false -> isLeaf (mkNode ul lr c NW NE SW SE) = false.
Proof. intros H. cbn. unfold noChildren. rewrite H. reflexivity. Qed.

Section Channel.

Variable ch : RGBAPixel -> Z.
Variable img : PNG.t.

Hypothesis ch_averageOf :
  forall ul lr midX midY NW NE SW SE c,
    averageOf ul lr midX midY NW NE SW SE = Some c ->
    ch c = chanAverage ch ul lr midX midY NW NE SW SE.

Hypothesis ch_range :
  forall x y, 0 <= x < PNG.width img -> 0 <= y < PNG.height img ->
    0 <= ch (PNG.imageData img x y) <= 255.

Lemma Built_child_facts ul lr n :
  Built img ul lr n -> allNodes (avgFacts ch img) n ->
  0 <= ch (avg n) /\ ch (avg n) * area ul lr <= rectSum ch img ul lr /\
  (isLeaf n = true -> ch (avg n) * area ul lr = rectSum ch img ul lr).
Proof.
  intros B Hall. destruct (Built_corners _ _ _ _ B) as (Hn & Hul & Hlr).
  apply allNodes_here in Hall; [|exact Hn]. unfold avgFacts in Hall.
  rewrite Hul, Hlr in Hall. tauto.
Qed.

Lemma rectSum_le_255 ul lr :
  0 <= fst ul <= fst lr -> fst lr < PNG.width img ->
  0 <= snd ul <= snd lr -> snd lr < PNG.height img ->
  0 <= rectSum ch img ul lr <= 255 * area ul lr.
Proof.
  intros. pose proof (rectSum_bounds ch img ul lr 0 255) as Hb.
  rewrite Z.mul_0_l in Hb. apply Hb; try lia.
  intros. apply ch_range; lia.
Qed.

Lemma Built_avgFacts ul lr n :
  Built img ul lr n ->
  0 <= fst ul <= fst lr -> fst lr < PNG.width img ->
  0 <= snd ul <= snd lr -> snd lr < PNG.height img ->
  255 * area ul lr < 2 ^ 32 ->
  allNodes (avgFacts ch img) n.
Proof.
  induction 1 as [x0 y0
                 | x0 y1 y2 c nw sw Hy Bnw IHnw Bsw IHsw Hc
                 | x1 x2 y0 c nw ne Hx Bnw IHnw Bne IHne Hc
                 | x1 x2 y1 y2 c nw ne sw se Hx Hy Bnw IHnw Bne IHne
                     Bsw IHsw Bse IHse Hc];
    cbn [fst snd]; intros Hbx Hbx2 Hby Hby2 Harea.
  - cbn [allNodes]. split; [|tauto]. unfold avgFacts.
    cbn [upLeft lowRight avg isLeaf childrenAreLeaves].
    rewrite rectSum_pixel. unfold area. cbn [fst snd].
    replace ((x0 - x0 + 1) * (y0 - y0 + 1)) with 1 by lia.
    rewrite !Z.div_1_r, Z.mul_1_r.
    pose proof (ch_range x0 y0 ltac:(lia) ltac:(lia)).
    repeat split; try lia. cbn. discriminate.
  - (* column *)
    mid_facts. set (my := (y1 + y2) / 2) in *.
    assert (Hsub1 : area (x0, y1) (x0, my) = my - y1 + 1)
      by (unfold area; cbn [fst snd]; lia).
    assert (Hsub2 : area (x0, my + 1) (x0, y2) = y2 - my)
      by (unfold area; cbn [fst snd]; lia).
    assert (HA : area (x0, y1) (x0, y2) = y2 - y1 + 1)
      by (unfold area; cbn [fst snd]; lia).
    assert (Hnw : allNodes (avgFacts ch img) nw)
      by (apply IHnw; cbn [fst snd]; lia).
    assert (Hsw : allNodes (avgFacts ch img) sw)
      by (apply IHsw; cbn [fst snd]; lia).
    cbn [allNodes]. split; [|tauto].
    destruct (Built_child_facts _ _ _ Bnw Hnw) as (N0 & N1 & N2).
    destruct (Built_child_facts _ _ _ Bsw Hsw) as (S0 & S1 & S2).
    pose proof (rectSum_split_y ch img x0 x0 y1 y2 my ltac:(lia) ltac:(lia))
      as Hsplit.
    pose proof (rectSum_le_255 (x0, y1) (x0, y2)) as Hb. cbn [fst snd] in Hb.
    specialize (Hb ltac:(lia) ltac:(lia) ltac:(lia) ltac:(lia)).
    pose proof (ch_averageOf _ _ _ _ _ _ _ _ _ Hc) as Ec.
    rewrite (chanAverage_exact ch (x0, y1) (x0, y2) x0 my nw nullptr sw nullptr)
      with (S := ch (avg nw) * area (x0, y1) (x0, my)
                 + ch (avg sw) * area (x0, my + 1) (x0, y2)) in Ec;
      cbn [fst snd contrib]; rewrite ?HA; try lia.
    + unfold avgFacts. cbn [upLeft lowRight avg]. rewrite Ec, HA.
      rewrite Hsub1, Hsub2 in *.
      assert (Hq := Z.mul_div_le
                      (ch (avg nw) * (my - y1 + 1) + ch (avg sw) * (y2 - my))
                      (y2 - y1 + 1) ltac:(lia)).
      split; [lia|]. split; [apply Z.div_pos; nia|]. split; [nia|].
      split; [rewrite isLeaf_internal by (eapply Built_nonnull; eauto);
              discriminate|].
      split.
      { intros _. cbn [childSum contrib].
        rewrite !contrib_nonnull by (eapply Built_nonnull; eauto).
        destruct (Built_corners _ _ _ _ Bnw) as (_ & -> & ->).
        destruct (Built_corners _ _ _ _ Bsw) as (_ & -> & ->).
        rewrite Hsub1, Hsub2. f_equal. lia. }
      intros Hk. cbn [childrenAreLeaves] in Hk.
      rewrite (Built_nonnull _ _ _ _ Bnw), (Built_nonnull _ _ _ _ Bsw) in Hk.
      assert (isLeaf nw = true /\ isLeaf sw = true) as (K1 & K2)
        by (revert Hk; destruct (isLeaf nw), (isLeaf sw); cbn; auto).
      rewrite Hsplit, <- (N2 K1), <- (S2 K2). reflexivity.
    + rewrite !contrib_nonnull by (eapply Built_nonnull; eauto).
      unfold area. cbn [fst snd]. lia.
    + rewrite Hsub1, Hsub2 in *. nia.
    + rewrite Hsub1, Hsub2 in *. apply Z.div_lt_upper_bound; nia.
  - (* row *)
    mid_facts. set (mx := (x1 + x2) / 2) in *.
    assert (Hsub1 : area (x1, y0) (mx, y0) = mx - x1 + 1)
      by (unfold area; cbn [fst snd]; lia).
    assert (Hsub2 : area (mx + 1, y0) (x2, y0) = x2 - mx)
      by (unfold area; cbn [fst snd]; lia).
    assert (HA : area (x1, y0) (x2, y0) = x2 - x1 + 1)
      by (unfold area; cbn [fst snd]; lia).
    assert (Hnw : allNodes (avgFacts ch img) nw)
      by (apply IHnw; cbn [fst snd]; lia).
    assert (Hne : allNodes (avgFacts ch img) ne)
      by (apply IHne; cbn [fst snd]; lia).
    cbn [allNodes]. split; [|tauto].
    destruct (Built_child_facts _ _ _ Bnw Hnw) as (N0 & N1 & N2).
    destruct (Built_child_facts _ _ _ Bne Hne) as (E0 & E1 & E2).
    pose proof (rectSum_split_x ch img x1 x2 y0 y0 mx ltac:(lia) ltac:(lia))
      as Hsplit.
    pose proof (rectSum_le_255 (x1, y0) (x2, y0)) as Hb. cbn [fst snd] in Hb.
    specialize (Hb ltac:(lia) ltac:(lia) ltac:(lia) ltac:(lia)).
    pose proof (ch_averageOf _ _ _ _ _ _ _ _ _ Hc) as Ec.
    rewrite (chanAverage_exact ch (x1, y0) (x2, y0) mx y0 nw ne nullptr nullptr)
      with (S := ch (avg nw) * area (x1, y0) (mx, y0)
                 + ch (avg ne) * area (mx + 1, y0) (x2, y0)) in Ec;
      cbn [fst snd contrib]; rewrite ?HA; try lia.
    + unfold avgFacts. cbn [upLeft lowRight avg]. rewrite Ec, HA.
      rewrite Hsub1, Hsub2 in *.
      assert (Hq := Z.mul_div_le
                      (ch (avg nw) * (mx - x1 + 1) + ch (avg ne) * (x2 - mx))
                      (x2 - x1 + 1) ltac:(lia)).
      split; [lia|]. split; [apply Z.div_pos; nia|]. split; [nia|].
      split; [rewrite isLeaf_internal by (eapply Built_nonnull; eauto);
              discriminate|].
      split.
      { intros _. cbn [childSum contrib].
        rewrite !contrib_nonnull by (eapply Built_nonnull; eauto).
        destruct (Built_corners _ _ _ _ Bnw) as (_ & -> & ->).
        destruct (Built_corners _ _ _ _ Bne) as (_ & -> & ->).
        rewrite Hsub1, Hsub2. f_equal. lia. }
      intros Hk. cbn [childrenAreLeaves] in Hk.
      rewrite (Built_nonnull _ _ _ _ Bnw), (Built_nonnull _ _ _ _ Bne) in Hk.
      assert (isLeaf nw = true /\ isLeaf ne = true) as (K1 & K2)
        by (revert Hk; destruct (isLeaf nw), (isLeaf ne); cbn; auto).
      rewrite Hsplit, <- (N2 K1), <- (E2 K2). reflexivity.
    + rewrite !contrib_nonnull by (eapply Built_nonnull; eauto).
      unfold area. cbn [fst snd]. lia.
    + rewrite Hsub1, Hsub2 in *. nia.
    + rewrite Hsub1, Hsub2 in *. apply Z.div_lt_upper_bound; nia.
  - (* four children *)
    mid_facts. set (mx := (x1 + x2) / 2) in *. set (my := (y1 + y2) / 2) in *.
    set (wl := mx - x1 + 1) in *. set (wr := x2 - (mx + 1) + 1) in *.
    set (ht := my - y1 + 1) in *. set (hb := y2 - (my + 1) + 1) in *.
    assert (Hwl : 1 <= wl) by (subst wl; lia).
    assert (Hwr : 1 <= wr) by (subst wr; lia).
    assert (Hht : 1 <= ht) by (subst ht; lia).
    assert (Hhb : 1 <= hb) by (subst hb; lia).
    assert (HA : area (x1, y1) (x2, y2) = (wl + wr) * (ht + hb))
      by (unfold area; cbn [fst snd]; f_equal; subst wl wr ht hb; lia).
    assert (A1 : area (x1, y1) (mx, my) = wl * ht) by reflexivity.
    assert (A2 : area (mx + 1, y1) (x2, my) = wr * ht) by reflexivity.
    assert (A3 : area (x1, my + 1) (mx, y2) = wl * hb) by reflexivity.
    assert (A4 : area (mx + 1, my + 1) (x2, y2) = wr * hb) by reflexivity.
    rewrite HA in Harea.
    assert (P1 : 1 <= wl * ht) by (clear - Hwl Hht; nia).
    assert (P2 : 1 <= wr * ht) by (clear - Hwr Hht; nia).
    assert (P3 : 1 <= wl * hb) by (clear - Hwl Hhb; nia).
    assert (P4 : 1 <= wr * hb) by (clear - Hwr Hhb; nia).
    assert (HAs : (wl + wr) * (ht + hb) = wl * ht + wr * ht + wl * hb + wr * hb)
      by ring.
    assert (Hnw : allNodes (avgFacts ch img) nw)
      by (apply IHnw; cbn [fst snd]; try rewrite A1; lia).
    assert (Hne : allNodes (avgFacts ch img) ne)
      by (apply IHne; cbn [fst snd]; try rewrite A2; lia).
    assert (Hsw : allNodes (avgFacts ch img) sw)
      by (apply IHsw; cbn [fst snd]; try rewrite A3; lia).
    assert (Hse : allNodes (avgFacts ch img) se)
      by (apply IHse; cbn [fst snd]; try rewrite A4; lia).
    cbn [allNodes]. split; [|tauto].
    destruct (Built_child_facts _ _ _ Bnw Hnw) as (N0 & N1 & N2).
    destruct (Built_child_facts _ _ _ Bne Hne) as (E0 & E1 & E2).
    destruct (Built_child_facts _ _ _ Bsw Hsw) as (S0 & S1 & S2).
    destruct (Built_child_facts _ _ _ Bse Hse) as (T0 & T1 & T2).
    rewrite A1 in N1, N2. rewrite A2 in E1, E2. rewrite A3 in S1, S2.
    rewrite A4 in T1, T2.
    assert (Hsplit : rectSum ch img (x1, y1) (x2, y2)
                     = rectSum ch img (x1, y1) (mx, my)
                       + rectSum ch img (mx + 1, y1) (x2, my)
                       + rectSum ch img (x1, my + 1) (mx, y2)
                       + rectSum ch img (mx + 1, my + 1) (x2, y2)).
    { rewrite (rectSum_split_y ch img x1 x2 y1 y2 my) by lia.
      rewrite (rectSum_split_x ch img x1 x2 y1 my mx) by lia.
      rewrite (rectSum_split_x ch img x1 x2 (my + 1) y2 mx) by lia. lia. }
    pose proof (rectSum_le_255 (x1, y1) (x2, y2)) as Hb. cbn [fst snd] in Hb.
    specialize (Hb ltac:(lia) ltac:(lia) ltac:(lia) ltac:(lia)).
    rewrite HA in Hb.
    pose proof (ch_averageOf _ _ _ _ _ _ _ _ _ Hc) as Ec.
    rewrite (chanAverage_exact ch (x1, y1) (x2, y2) mx my nw ne sw se)
      with (S := ch (avg nw) * (wl * ht) + ch (avg ne) * (wr * ht)
                 + ch (avg sw) * (wl * hb) + ch (avg se) * (wr * hb)) in Ec;
      cbn [fst snd]; fold wl wr ht hb; rewrite ?HA; try lia.
    + unfold avgFacts. cbn [upLeft lowRight avg]. rewrite Ec, HA.
      assert (Hq := Z.mul_div_le
                      (ch (avg nw) * (wl * ht) + ch (avg ne) * (wr * ht)
                       + ch (avg sw) * (wl * hb) + ch (avg se) * (wr * hb))
                      ((wl + wr) * (ht + hb)) ltac:(lia)).
      split; [lia|]. split; [apply Z.div_pos; lia|]. split; [lia|].
      split; [rewrite isLeaf_internal by (eapply Built_nonnull; eauto);
              discriminate|].
      split.
      { intros _. cbn [childSum].
        rewrite !contrib_nonnull by (eapply Built_nonnull; eauto).
        destruct (Built_corners _ _ _ _ Bnw) as (_ & -> & ->).
        destruct (Built_corners _ _ _ _ Bne) as (_ & -> & ->).
        destruct (Built_corners _ _ _ _ Bsw) as (_ & -> & ->).
        destruct (Built_corners _ _ _ _ Bse) as (_ & -> & ->).
        rewrite A1, A2, A3, A4. reflexivity. }
      intros Hk. cbn [childrenAreLeaves] in Hk.
      rewrite (Built_nonnull _ _ _ _ Bnw), (Built_nonnull _ _ _ _ Bne),
        (Built_nonnull _ _ _ _ Bsw), (Built_nonnull _ _ _ _ Bse) in Hk.
      assert (isLeaf nw = true /\ isLeaf ne = true /\ isLeaf sw = true
              /\ isLeaf se = true) as (K1 & K2 & K3 & K4)
        by (revert Hk; destruct (isLeaf nw), (isLeaf ne), (isLeaf sw),
              (isLeaf se); cbn; auto).
      rewrite Hsplit, <- (N2 K1), <- (E2 K2), <- (S2 K3), <- (T2 K4).
      reflexivity.
    + rewrite !contrib_nonnull by (eapply Built_nonnull; eauto). reflexivity.
    + apply Z.div_lt_upper_bound; lia.
Qed.

End Channel.

Lemma mul_range (v K : Z) :
  0 <= v <= 255 -> 0 <= K -> 255 * K < 2 ^ 32 -> 0 <= v * K < 2 ^ 32.
Proof.
  intros Hv HK Hb. split; [apply Z.mul_nonneg_nonneg; lia|].
  apply Z.le_lt_trans with (255 * K); [|exact Hb].
  apply Z.mul_le_mono_nonneg_r; lia.
Qed.

(** On a rectangle where the channel has the same value [v] at every pixel,
    and small enough for the sums not to wrap, every average is [v]. *)
Lemma Built_uniform (ch : RGBAPixel -> Z) (img : PNG.t) (v : Z) :
  (forall ul lr midX midY NW NE SW SE c,
     averageOf ul lr midX midY NW NE SW SE = Some c ->
     ch c = chanAverage ch ul lr midX midY NW NE SW SE) ->
  (forall x y, ch (PNG.imageData img x y) = v) ->
  0 <= v <= 255 ->
  forall ul lr n,
    Built img ul lr n ->
    fst ul <= fst lr -> snd ul <= snd lr -> 255 * area ul lr < 2 ^ 32 ->
    ch (avg n) = v.
Proof.
  intros ch_averageOf Hv Hv255.
  induction 1 as [x0 y0
                 | x0 y1 y2 c nw sw Hy Bnw IHnw Bsw IHsw Hc
                 | x1 x2 y0 c nw ne Hx Bnw IHnw Bne IHne Hc
                 | x1 x2 y1 y2 c nw ne sw se Hx Hy Bnw IHnw Bne IHne
                     Bsw IHsw Bse IHse Hc];
    cbn [fst snd avg]; intros Hbx Hby Harea.
  - apply Hv.
  - mid_facts. set (my := (y1 + y2) / 2) in *.
    unfold area in *. cbn [fst snd] in *.
    replace (x0 - x0 + 1) with 1 in * by lia.
    rewrite (ch_averageOf _ _ _ _ _ _ _ _ _ Hc).
    rewrite (chanAverage_exact ch (x0, y1) (x0, y2) x0 my nw nullptr sw nullptr)
      with (S := v * (y2 - y1 + 1)); unfold area; cbn [fst snd contrib];
      replace (x0 - x0 + 1) with 1 by lia; try lia.
    + rewrite Z.mul_1_l. apply Z.div_mul. lia.
    + rewrite !contrib_nonnull by (eapply Built_nonnull; eauto).
      rewrite IHnw, IHsw by lia. lia.
    + apply mul_range; lia.
    + rewrite Z.mul_1_l, Z.div_mul; lia.
  - mid_facts. set (mx := (x1 + x2) / 2) in *.
    unfold area in *. cbn [fst snd] in *.
    replace (y0 - y0 + 1) with 1 in * by lia.
    rewrite (ch_averageOf _ _ _ _ _ _ _ _ _ Hc).
    rewrite (chanAverage_exact ch (x1, y0) (x2, y0) mx y0 nw ne nullptr nullptr)
      with (S := v * (x2 - x1 + 1)); unfold area; cbn [fst snd contrib];
      replace (y0 - y0 + 1) with 1 by lia; try lia.
    + rewrite Z.mul_1_r. apply Z.div_mul. lia.
    + rewrite !contrib_nonnull by (eapply Built_nonnull; eauto).
      rewrite IHnw, IHne by lia. lia.
    + apply mul_range; lia.
    + rewrite Z.mul_1_r, Z.div_mul; lia.
  - mid_facts. set (mx := (x1 + x2) / 2) in *. set (my := (y1 + y2) / 2) in *.
    unfold area in *. cbn [fst snd] in *.
    set (wl := mx - x1 + 1) in *. set (wr := x2 - (mx + 1) + 1) in *.
    set (ht := my - y1 + 1) in *. set (hb := y2 - (my + 1) + 1) in *.
    assert (Hwl : 1 <= wl) by (subst wl; lia).
    assert (Hwr : 1 <= wr) by (subst wr; lia).
    assert (Hht : 1 <= ht) by (subst ht; lia).
    assert (Hhb : 1 <= hb) by (subst hb; lia).
    assert (HA : (x2 - x1 + 1) * (y2 - y1 + 1) = (wl + wr) * (ht + hb))
      by (f_equal; subst wl wr ht hb; lia).
    rewrite HA in Harea.
    assert (P1 : 1 <= wl * ht) by (clear - Hwl Hht; nia).
    assert (P2 : 1 <= wr * ht) by (clear - Hwr Hht; nia).
    assert (P3 : 1 <= wl * hb) by (clear - Hwl Hhb; nia).
    assert (P4 : 1 <= wr * hb) by (clear - Hwr Hhb; nia).
    assert (HAs : (wl + wr) * (ht + hb) = wl * ht + wr * ht + wl * hb + wr * hb)
      by ring.
    rewrite (ch_averageOf _ _ _ _ _ _ _ _ _ Hc).
    rewrite (chanAverage_exact ch (x1, y1) (x2, y2) mx my nw ne sw se)
      with (S := v * ((wl + wr) * (ht + hb))); unfold area; cbn [fst snd];
      fold wl wr ht hb; rewrite ?HA; try lia.
    + apply Z.div_mul. lia.
    + rewrite !contrib_nonnull by (eapply Built_nonnull; eauto).
      rewrite IHnw, IHne, IHsw, IHse by lia. ring.
    + apply mul_range; lia.
    + rewrite Z.div_mul; lia.
Qed.

(** ** Concrete rasters and trees *)

Lemma build_2x2 :
  QTree_of_PNG img2x2 =
  Some (mkQTree
          (mkNode (0, 0) (1, 1) (mkRGBAPixel 127 127 63 1)
                  (leaf 0 0 (mkRGBAPixel 255 0 0 1))
                  (leaf 1 0 (mkRGBAPixel 0 255 0 1))
                  (leaf 0 1 (mkRGBAPixel 0 0 255 1))
                  (leaf 1 1 (mkRGBAPixel 255 255 0 1)))
          2 2).
Proof. vm_compute. reflexivity. Qed.

Lemma build_2x1 : QTree_of_PNG img2x1 = Some tree2x1.
Proof. vm_compute. reflexivity. Qed.

Lemma PNG_ok_img2x2 : PNG_ok img2x2.
Proof. unfold PNG_ok. cbn. lia. Defined.

Lemma PNG_ok_img2x1 : PNG_ok img2x1.
Proof. unfold PNG_ok. cbn. lia. Defined.

Lemma otherThan_neq c : c <> otherThan c.
Proof.
  unfold otherThan. destruct (Z.eqb_spec (r c) 0) as [E|E]; intros H.
  - rewrite H in E. discriminate.
  - rewrite H in E. apply E. reflexivity.
Qed.

Lemma averageOf_rgb ul lr midX midY NW NE SW SE c :
  averageOf ul lr midX midY NW NE SW SE = Some c ->
  r c = chanAverage r ul lr midX midY NW NE SW SE /\
  g c = chanAverage g ul lr midX midY NW NE SW SE /\
  b c = chanAverage b ul lr midX midY NW NE SW SE.
Proof. intros H. apply averageOf_channels in H. tauto. Qed.

Lemma allNodes_impl (P Q : Node -> Prop) nd :
  (forall n, P n -> Q n) -> allNodes P nd -> allNodes Q nd.
Proof.
  intros HPQ. induction nd as [|ul lr c NW IHNW NE IHNE SW IHSW SE IHSE].
  - auto.
  - cbn [allNodes]. intros (H0 & H1 & H2 & H3 & H4). auto 10.
Qed.

Lemma allNodes_and3 (P Q R : Node -> Prop) nd :
  allNodes P nd -> allNodes Q nd -> allNodes R nd ->
  allNodes (fun n => P n /\ Q n /\ R n) nd.
Proof.
  induction nd as [|ul lr c NW IHNW NE IHNE SW IHSW SE IHSE].
  - auto.
  - cbn [allNodes]. intros (P0 & P1 & P2 & P3 & P4) (Q0 & Q1 & Q2 & Q3 & Q4)
      (R0 & R1 & R2 & R3 & R4). auto 10.
Qed.

Lemma avgFacts_meanFacts ch img n : avgFacts ch img n -> meanFacts ch img n.
Proof.
  unfold avgFacts, meanFacts, trueMean. intros (HA & H0 & H1 & _ & _ & H3).
  split; [|exact H3]. apply Z.div_le_lower_bound; lia.
Qed.

(** The three integer channels of every node of a tree built from a raster
    whose sums do not wrap. *)
Lemma Built_avgFacts_rgb img n :
  PNG_ok img -> pixelsOk img ->
  255 * (PNG.width img * PNG.height img) < 2 ^ 32 ->
  Built img (0, 0) (PNG.width img - 1, PNG.height img - 1) n ->
  allNodes (fun m => avgFacts r img m /\ avgFacts g img m /\ avgFacts b img m)
    n.
Proof.
  intros (HW & HH & _) Hpix Hsmall B.
  assert (Harea : 255 * area (0, 0) (PNG.width img - 1, PNG.height img - 1)
                  < 2 ^ 32).
  { unfold area. cbn [fst snd].
    replace (PNG.width img - 1 - 0 + 1) with (PNG.width img) by lia.
    replace (PNG.height img - 1 - 0 + 1) with (PNG.height img) by lia.
    exact Hsmall. }
  apply allNodes_and3.
  - apply (Built_avgFacts r img) with (ul := (0, 0))
      (lr := (PNG.width img - 1, PNG.height img - 1)); cbn [fst snd];
      try lia; auto.
    + intros. eapply averageOf_rgb; eauto.
    + intros x y Hx Hy. apply (Hpix x y Hx Hy).
  - apply (Built_avgFacts g img) with (ul := (0, 0))
      (lr := (PNG.width img - 1, PNG.height img - 1)); cbn [fst snd];
      try lia; auto.
    + intros. eapply averageOf_rgb; eauto.
    + intros x y Hx Hy. apply (Hpix x y Hx Hy).
  - apply (Built_avgFacts b img) with (ul := (0, 0))
      (lr := (PNG.width img - 1, PNG.height img - 1)); cbn [fst snd];
      try lia; auto.
    + intros. eapply averageOf_rgb; eauto.
    + intros x y Hx Hy. apply (Hpix x y Hx Hy).
Qed.

Lemma Built_meanFacts img n :
  PNG_ok img -> pixelsOk img ->
  255 * (PNG.width img * PNG.height img) < 2 ^ 32 ->
  Built img (0, 0) (PNG.width img - 1, PNG.height img - 1) n ->
  allNodes (fun m => meanFacts r img m /\ meanFacts g img m /\ meanFacts b img m)
    n.
Proof.
  intros Hok Hpix Hsmall B.
  apply allNodes_impl with (2 := Built_avgFacts_rgb img n Hok Hpix Hsmall B).
  intros m (Hr & Hg & Hb). auto using avgFacts_meanFacts.
Qed.

(** Where the sums do not wrap, the integer channels of every internal node
    are the sum of [child.avg * child.area] over its children divided by
    its area, the division truncating. *)
Lemma Built_average_formula img n :
  PNG_ok img -> pixelsOk img ->
  255 * (PNG.width img * PNG.height img) < 2 ^ 32 ->
  Built img (0, 0) (PNG.width img - 1, PNG.height img - 1) n ->
  allNodes
    (fun m =>
       isLeaf m = false ->
       r (avg m) = childSum r m / area (upLeft m) (lowRight m) /\
       g (avg m) = childSum g m / area (upLeft m) (lowRight m) /\
       b (avg m) = childSum b m / area (upLeft m) (lowRight m))
    n.
Proof.
  intros Hok Hpix Hsmall B.
  apply allNodes_impl with (2 := Built_avgFacts_rgb img n Hok Hpix Hsmall B).
  unfold avgFacts. intros m (Hr & Hg & Hb) Hm.
  repeat split; [apply Hr|apply Hg|apply Hb]; exact Hm.
Qed.

Lemma build_3x1 :
  exists nw, QTree_of_PNG img3x1
             = Some (mkQTree (mkNode (0, 0) (2, 0) (mkRGBAPixel 0 0 0 1)
                                nw (leaf 2 0 (mkRGBAPixel 2 0 0 1))
                                nullptr nullptr) 1 3).
Proof. eexists. vm_compute. reflexivity. Qed.

Lemma PNG_ok_white4105 : PNG_ok white4105.
Proof. unfold PNG_ok. cbn. lia. Qed.

Lemma Built_white4105 ul lr n :
  Built white4105 ul lr n ->
  fst ul <= fst lr -> snd ul <= snd lr -> 255 * area ul lr < 2 ^ 32 ->
  rgb (avg n) = (255, 255, 255).
Proof.
  intros B Hx Hy Ha. unfold rgb.
  assert (Hr : r (avg n) = 255).
  { apply (Built_uniform r white4105 255) with (ul := ul) (lr := lr);
      auto; try lia. intros; eapply averageOf_rgb; eauto. }
  assert (Hg : g (avg n) = 255).
  { apply (Built_uniform g white4105 255) with (ul := ul) (lr := lr);
      auto; try lia. intros; eapply averageOf_rgb; eauto. }
  assert (Hb : b (avg n) = 255).
  { apply (Built_uniform b white4105 255) with (ul := ul) (lr := lr);
      auto; try lia. intros; eapply averageOf_rgb; eauto. }
  rewrite Hr, Hg, Hb. reflexivity.
Qed.

(** The integer average of an internal node reads nothing of its children
    but their colours. *)
Lemma chanAverage_colours ch ul lr midX midY NW NE SW SE c1 c2 c3 c4 :
  isNull NW = false -> isNull NE = false ->
  isNull SW = false -> isNull SE = false ->
  ch (avg NW) = ch c1 -> ch (avg NE) = ch c2 ->
  ch (avg SW) = ch c3 -> ch (avg SE) = ch c4 ->
  chanAverage ch ul lr midX midY NW NE SW SE
  = chanAverage ch ul lr midX midY (leaf 0 0 c1) (leaf 0 0 c2)
      (leaf 0 0 c3) (leaf 0 0 c4).
Proof.
  destruct NW; [discriminate|]. destruct NE; [discriminate|].
  destruct SW; [discriminate|]. destruct SE; [discriminate|].
  cbn [avg]. intros _ _ _ _ E1 E2 E3 E4.
  unfold chanAverage, leaf. cbn [chanTotal]. rewrite E1, E2, E3, E4.
  reflexivity.
Qed.

(** ** The alpha channel *)

Lemma averageOf_alpha ul lr midX midY NW NE SW SE c :
  averageOf ul lr midX midY NW NE SW SE = Some c ->
  a c = PrimFloat.div
          (alphaTotal
             (alphaTotal
                (alphaTotal
                   (alphaTotal 0%float NW
                      (u32 ((midX - fst ul + 1) * (midY - snd ul + 1))))
                   NE (u32 ((fst lr - (midX + 1) + 1) * (midY - snd ul + 1))))
                SW (u32 ((midX - fst ul + 1) * (snd lr - (midY + 1) + 1))))
             SE (u32 ((fst lr - (midX + 1) + 1) * (snd lr - (midY + 1) + 1))))
          (uint_to_double (u32 (area ul lr))).
Proof.
  unfold averageOf, area.
  destruct (u32 ((fst lr - fst ul + 1) * (snd lr - snd ul + 1)) =? 0) eqn:E.
  - destruct NW, NE, SW, SE; cbn; rewrite ?E; discriminate.
  - destruct NW, NE, SW, SE; cbn; intros H; inversion H; subst; cbn;
      reflexivity.
Qed.

(** Without wrap-around of the areas, the alpha of an internal node is the
    quotient of the sum of [child.avg.a * child.area] by the area. *)
Lemma alpha_of_average ul lr midX midY NW NE SW SE c :
  averageOf ul lr midX midY NW NE SW SE = Some c ->
  0 <= (midX - fst ul + 1) * (midY - snd ul + 1) < 2 ^ 32 ->
  0 <= (fst lr - (midX + 1) + 1) * (midY - snd ul + 1) < 2 ^ 32 ->
  0 <= (midX - fst ul + 1) * (snd lr - (midY + 1) + 1) < 2 ^ 32 ->
  0 <= (fst lr - (midX + 1) + 1) * (snd lr - (midY + 1) + 1) < 2 ^ 32 ->
  0 <= area ul lr < 2 ^ 32 ->
  a c = PrimFloat.div
          (alphaTotal
             (alphaTotal
                (alphaTotal
                   (alphaTotal 0%float NW
                      ((midX - fst ul + 1) * (midY - snd ul + 1)))
                   NE ((fst lr - (midX + 1) + 1) * (midY - snd ul + 1)))
                SW ((midX - fst ul + 1) * (snd lr - (midY + 1) + 1)))
             SE ((fst lr - (midX + 1) + 1) * (snd lr - (midY + 1) + 1)))
          (uint_to_double (area ul lr)).
Proof.
  intros Hc H1 H2 H3 H4 HA. rewrite (averageOf_alpha _ _ _ _ _ _ _ _ _ Hc).
  rewrite (u32_small _ H1), (u32_small _ H2), (u32_small _ H3),
    (u32_small _ H4), (u32_small _ HA). reflexivity.
Qed.

Lemma Built_alphaFacts img ul lr n :
  Built img ul lr n ->
  0 <= fst ul <= fst lr -> 0 <= snd ul <= snd lr ->
  area ul lr < 2 ^ 32 ->
  allNodes (alphaFacts img) n.
Proof.
  induction 1 as [x0 y0
                 | x0 y1 y2 c nw sw Hy Bnw IHnw Bsw IHsw Hc
                 | x1 x2 y0 c nw ne Hx Bnw IHnw Bne IHne Hc
                 | x1 x2 y1 y2 c nw ne sw se Hx Hy Bnw IHnw Bne IHne
                     Bsw IHsw Bse IHse Hc];
    cbn [fst snd]; intros Hbx Hby Harea.
  - cbn [allNodes]. split; [|tauto]. unfold alphaFacts.
    cbn [upLeft lowRight avg fst snd]. split; [reflexivity|].
    cbn. discriminate.
  - (* column *)
    mid_facts. set (my := (y1 + y2) / 2) in *.
    assert (Hsub1 : area (x0, y1) (x0, my) = my - y1 + 1)
      by (unfold area; cbn [fst snd]; lia).
    assert (Hsub2 : area (x0, my + 1) (x0, y2) = y2 - my)
      by (unfold area; cbn [fst snd]; lia).
    assert (HA : area (x0, y1) (x0, y2) = y2 - y1 + 1)
      by (unfold area; cbn [fst snd]; lia).
    assert (Hnw : allNodes (alphaFacts img) nw)
      by (apply IHnw; cbn [fst snd]; lia).
    assert (Hsw : allNodes (alphaFacts img) sw)
      by (apply IHsw; cbn [fst snd]; lia).
    cbn [allNodes]. split; [|tauto]. unfold alphaFacts.
    split; [rewrite isLeaf_internal by (eapply Built_nonnull; eauto);
            discriminate|].
    intros _. cbn [alphaChildSum avg upLeft lowRight alphaTotal].
    destruct (Built_corners _ _ _ _ Bnw) as (_ & -> & ->).
    destruct (Built_corners _ _ _ _ Bsw) as (_ & -> & ->).
    rewrite (alpha_of_average _ _ _ _ _ _ _ _ _ Hc);
      cbn [fst snd alphaTotal]; rewrite ?HA; try lia.
    reflexivity.
  - (* row *)
    mid_facts. set (mx := (x1 + x2) / 2) in *.
    assert (Hsub1 : area (x1, y0) (mx, y0) = mx - x1 + 1)
      by (unfold area; cbn [fst snd]; lia).
    assert (Hsub2 : area (mx + 1, y0) (x2, y0) = x2 - mx)
      by (unfold area; cbn [fst snd]; lia).
    assert (HA : area (x1, y0) (x2, y0) = x2 - x1 + 1)
      by (unfold area; cbn [fst snd]; lia).
    assert (Hnw : allNodes (alphaFacts img) nw)
      by (apply IHnw; cbn [fst snd]; lia).
    assert (Hne : allNodes (alphaFacts img) ne)
      by (apply IHne; cbn [fst snd]; lia).
    cbn [allNodes]. split; [|tauto]. unfold alphaFacts.
    split; [rewrite isLeaf_internal by (eapply Built_nonnull; eauto);
            discriminate|].
    intros _. cbn [alphaChildSum avg upLeft lowRight alphaTotal].
    destruct (Built_corners _ _ _ _ Bnw) as (_ & -> & ->).
    destruct (Built_corners _ _ _ _ Bne) as (_ & -> & ->).
    rewrite (alpha_of_average _ _ _ _ _ _ _ _ _ Hc);
      cbn [fst snd alphaTotal]; rewrite ?HA; try lia.
    reflexivity.
  - (* four children *)
    mid_facts. set (mx := (x1 + x2) / 2) in *. set (my := (y1 + y2) / 2) in *.
    set (wl := mx - x1 + 1) in *. set (wr := x2 - (mx + 1) + 1) in *.
    set (ht := my - y1 + 1) in *. set (hb := y2 - (my + 1) + 1) in *.
    assert (Hwl : 1 <= wl) by (subst wl; lia).
    assert (Hwr : 1 <= wr) by (subst wr; lia).
    assert (Hht : 1 <= ht) by (subst ht; lia).
    assert (Hhb : 1 <= hb) by (subst hb; lia).
    assert (HA : area (x1, y1) (x2, y2) = (wl + wr) * (ht + hb))
      by (unfold area; cbn [fst snd]; f_equal; subst wl wr ht hb; lia).
    assert (A1 : area (x1, y1) (mx, my) = wl * ht) by reflexivity.
    assert (A2 : area (mx + 1, y1) (x2, my) = wr * ht) by reflexivity.
    assert (A3 : area (x1, my + 1) (mx, y2) = wl * hb) by reflexivity.
    assert (A4 : area (mx + 1, my + 1) (x2, y2) = wr * hb) by reflexivity.
    rewrite HA in Harea.
    assert (P1 : 1 <= wl * ht) by (clear - Hwl Hht; nia).
    assert (P2 : 1 <= wr * ht) by (clear - Hwr Hht; nia).
    assert (P3 : 1 <= wl * hb) by (clear - Hwl Hhb; nia).
    assert (P4 : 1 <= wr * hb) by (clear - Hwr Hhb; nia).
    assert (HAs : (wl + wr) * (ht + hb) = wl * ht + wr * ht + wl * hb + wr * hb)
      by ring.
    assert (Hnw : allNodes (alphaFacts img) nw)
      by (apply IHnw; cbn [fst snd]; try rewrite A1; lia).
    assert (Hne : allNodes (alphaFacts img) ne)
      by (apply IHne; cbn [fst snd]; try rewrite A2; lia).
    assert (Hsw : allNodes (alphaFacts img) sw)
      by (apply IHsw; cbn [fst snd]; try rewrite A3; lia).
    assert (Hse : allNodes (alphaFacts img) se)
      by (apply IHse; cbn [fst snd]; try rewrite A4; lia).
    cbn [allNodes]. split; [|tauto]. unfold alphaFacts.
    split; [rewrite isLeaf_internal by (eapply Built_nonnull; eauto);
            discriminate|].
    intros _. cbn [alphaChildSum avg upLeft lowRight].
    destruct (Built_corners _ _ _ _ Bnw) as (_ & -> & ->).
    destruct (Built_corners _ _ _ _ Bne) as (_ & -> & ->).
    destruct (Built_corners _ _ _ _ Bsw) as (_ & -> & ->).
    destruct (Built_corners _ _ _ _ Bse) as (_ & -> & ->).
    rewrite (alpha_of_average _ _ _ _ _ _ _ _ _ Hc);
      cbn [fst snd]; fold wl wr ht hb; rewrite ?HA; try lia.
    reflexivity.
Qed.

Lemma Built_alphaFacts_root img n :
  PNG_ok img ->
  Built img (0, 0) (PNG.width img - 1, PNG.height img - 1) n ->
  allNodes (alphaFacts img) n.
Proof.
  intros (HW & HH & HA) B.
  apply (Built_alphaFacts img (0, 0)
           (PNG.width img - 1, PNG.height img - 1)); cbn [fst snd];
    try lia; try exact B.
  unfold area. cbn [fst snd].
  replace (PNG.width img - 1 - 0 + 1) with (PNG.width img) by lia.
  replace (PNG.height img - 1 - 0 + 1) with (PNG.height img) by lia.
  exact HA.
Qed.

Lemma allNodes_and (P Q : Node -> Prop) nd :
  allNodes P nd -> allNodes Q nd -> allNodes (fun n => P n /\ Q n) nd.
Proof.
  induction nd as [|ul lr c NW IHNW NE IHNE SW IHSW SE IHSE].
  - auto.
  - cbn [allNodes]. intros (P0 & P1 & P2 & P3 & P4) (Q0 & Q1 & Q2 & Q3 & Q4).
    auto 10.
Qed.

Lemma build_4x2 : QTree_of_PNG img4x2 = Some tree4x2.
Proof. vm_compute. reflexivity. Qed.

Lemma PNG_ok_img4x2 : PNG_ok img4x2.
Proof. unfold PNG_ok. cbn. lia. Defined.

Lemma PNG_ok_img21x1 : PNG_ok img21x1.
Proof. unfold PNG_ok. cbn. lia. Defined.

(** * The claims *)

Section Claims.

(** The colour of a fresh raster and the pixel distance of imgUtil. *)
Variable blank : RGBAPixel.
Variable distanceTo : RGBAPixel -> RGBAPixel -> float.

(** C1 (the code departs from the claim).  Render is to fill the whole
    scaled rectangle of every leaf with the colour of the leaf, on pruned
    trees too.  On the raster of two pixels of one colour [p], chosen
    different from the colour of a fresh raster, Prune leaves a single leaf
    with the rectangle [(0,0)-(1,0)]; Render at scale 1 paints its pixel
    [(0,0)] only, and the pixel [(1,0)] of the same rectangle keeps the
    colour of the fresh raster. *)
Theorem C1_Render_pruned_leaf_not_filled (tolerance : float) :
  let p := otherThan blank in
  PrimFloat.leb (distanceTo p p) tolerance = true ->
  exists t out,
    QTree_of_PNG (PNG.create p 2 1) = Some t /\
    root (Prune distanceTo t tolerance)
      = mkNode (0, 0) (1, 0) p nullptr nullptr nullptr nullptr /\
    Render blank (Prune distanceTo t tolerance) 1 = Some out /\
    PNG.width out = 2 /\ PNG.height out = 1 /\
    PNG.getPixel out 0 0 = Some p /\
    PNG.getPixel out 1 0 = Some blank /\
    blank <> p.
Proof.
  intros p Hd.
  assert (Hp : p = white \/ p = black)
    by (unfold p, otherThan; destruct (r blank =? 0); auto).
  assert (Hb : exists c, QTree_of_PNG (PNG.create p 2 1)
                         = Some (mkQTree (mkNode (0, 0) (1, 0) c
                                            (leaf 0 0 p) (leaf 1 0 p)
                                            nullptr nullptr) 1 2)
                         /\ c = p).
  { destruct Hp as [-> | ->]; eexists; (split; [vm_compute; reflexivity|]);
      reflexivity. }
  destruct Hb as (c & Hb & ->).
  eexists. eexists. split; [exact Hb|].
  unfold Prune. cbn [root height width pruneSt leavesUnderTol noChildren
                       isNull andb leaf clearSt].
  rewrite Hd. cbn [andb clearSt].
  split; [reflexivity|]. split; [vm_compute; reflexivity|].
  split; [reflexivity|]. split; [reflexivity|]. split; [reflexivity|].
  split; [reflexivity|]. apply otherThan_neq.
Qed.

(** C2 (the code departs from the claim).  After Prune with a tolerance
    the render is to stay within that tolerance of the render before, at
    every pixel.  On the same raster of two pixels of one colour [p], with
    any tolerance that [p] is within of itself and the colour of a fresh
    raster is not within of [p], the pixel [(1,0)] is [p] before pruning and
    the colour of the fresh raster after: further than the tolerance. *)
Theorem C2_Prune_render_beyond_tolerance (tolerance : float) :
  let p := otherThan blank in
  PrimFloat.leb (distanceTo p p) tolerance = true ->
  PrimFloat.leb (distanceTo p blank) tolerance = false ->
  exists t before after c c',
    QTree_of_PNG (PNG.create p 2 1) = Some t /\
    Render blank t 1 = Some before /\
    Render blank (Prune distanceTo t tolerance) 1 = Some after /\
    PNG.getPixel before 1 0 = Some c /\
    PNG.getPixel after 1 0 = Some c' /\
    PrimFloat.leb (distanceTo c c') tolerance = false.
Proof.
  intros p Hd Hfar.
  assert (Hp : p = white \/ p = black)
    by (unfold p, otherThan; destruct (r blank =? 0); auto).
  assert (Hb : exists c, QTree_of_PNG (PNG.create p 2 1)
                         = Some (mkQTree (mkNode (0, 0) (1, 0) c
                                            (leaf 0 0 p) (leaf 1 0 p)
                                            nullptr nullptr) 1 2)
                         /\ c = p).
  { destruct Hp as [-> | ->]; eexists; (split; [vm_compute; reflexivity|]);
      reflexivity. }
  destruct Hb as (c & Hb & ->).
  eexists. eexists. eexists. exists p, blank. split; [exact Hb|].
  split; [vm_compute; reflexivity|].
  unfold Prune. cbn [root height width pruneSt leavesUnderTol noChildren
                       isNull andb leaf clearSt].
  rewrite Hd. cbn [andb clearSt].
  split; [vm_compute; reflexivity|].
  split; [reflexivity|]. split; [reflexivity|]. exact Hfar.
Qed.

(** C3.  Render(1) of the tree built from a raster is that raster, pixel
    for pixel. *)
Theorem C3_Render_identity (img : PNG.t) :
  PNG_ok img ->
  exists t out,
    QTree_of_PNG img = Some t /\ Render blank t 1 = Some out /\
    PNG.same out img.
Proof.
  intros Hok. pose proof Hok as (HW & HH & HA).
  destruct (QTree_of_PNG_returns img Hok) as (rt & Hb & B).
  destruct (Render_PixelLeaves blank (PNG.imageData img)
              (mkQTree rt (PNG.height img) (PNG.width img)) 1)
    as (out & Hr & Hw & Hh & Hpix); cbn [width height root]; try lia.
  { apply Built_PixelLeaves; [exact B|lia|lia]. }
  exists (mkQTree rt (PNG.height img) (PNG.width img)), out.
  split; [exact Hb|]. split; [exact Hr|].
  cbn [width height] in *. unfold PNG.same.
  split; [lia|]. split; [lia|]. intros x y Hx Hy.
  rewrite Hpix by lia. rewrite !Z.div_1_r. reflexivity.
Qed.

(** C4 (amended).  On a raster whose channel sums stay below 2^32, at every
    node of the built tree: each integer channel of the stored average
    never exceeds the truncated true mean of the pixels of the rectangle
    and equals it when the children are leaves ([meanFacts]); it is the
    channel of the pixel on a leaf and, on an internal node, the truncated
    quotient of the sum of [child.avg * child.area] by the area
    ([avgFacts]); the alpha is the alpha of the pixel on a leaf and, on an
    internal node, the quotient in [double] of the sum of
    [child.avg.a * child.area] by the area ([alphaFacts]).  The root of the
    2x2 raster of the design document has the average (127,127,63,1.0). *)
Theorem C4_average_against_true_mean :
  (forall img : PNG.t,
     PNG_ok img -> pixelsOk img ->
     255 * (PNG.width img * PNG.height img) < 2 ^ 32 ->
     exists t,
       QTree_of_PNG img = Some t /\
       allNodes (fun n =>
                   (meanFacts r img n /\ meanFacts g img n
                    /\ meanFacts b img n) /\
                   (avgFacts r img n /\ avgFacts g img n
                    /\ avgFacts b img n) /\
                   alphaFacts img n) (root t)) /\
  (exists t, QTree_of_PNG img2x2 = Some t /\
             avg (root t) = mkRGBAPixel 127 127 63 1).
Proof.
  split.
  - intros img Hok Hpix Hsmall.
    destruct (QTree_of_PNG_returns img Hok) as (rt & Hb & B).
    eexists. split; [exact Hb|]. cbn [root].
    apply (allNodes_and
             (fun n => meanFacts r img n /\ meanFacts g img n
                       /\ meanFacts b img n)
             (fun n => (avgFacts r img n /\ avgFacts g img n
                        /\ avgFacts b img n) /\ alphaFacts img n)).
    + apply Built_meanFacts; assumption.
    + apply (allNodes_and
               (fun n => avgFacts r img n /\ avgFacts g img n
                         /\ avgFacts b img n)
               (alphaFacts img)).
      * apply Built_avgFacts_rgb; assumption.
      * apply Built_alphaFacts_root; assumption.
  - exists tree2x2. split; [vm_compute; reflexivity|reflexivity].
Qed.

(** C5 (the code departs from the claim).  The integer channels of an
    internal node are to be the sum of [child.avg * child.area] divided by
    the area.  The sums are kept in 32-bit [int] accumulators: on the white
    raster of 4105 x 4105 pixels the four children of the root are white
    (255), the sum 255 * 16851025 wraps to 2044079, and the root is stored
    black (0) where the quotient of the claim is 255. *)
Theorem C5_average_wraps_on_white4105 :
  exists c nw ne sw se,
    QTree_of_PNG white4105
      = Some (mkQTree (mkNode (0, 0) (4104, 4104) c nw ne sw se) 4105 4105) /\
    rgb (avg nw) = (255, 255, 255) /\ rgb (avg ne) = (255, 255, 255) /\
    rgb (avg sw) = (255, 255, 255) /\ rgb (avg se) = (255, 255, 255) /\
    (r (avg nw) * area (upLeft nw) (lowRight nw)
     + r (avg ne) * area (upLeft ne) (lowRight ne)
     + r (avg sw) * area (upLeft sw) (lowRight sw)
     + r (avg se) * area (upLeft se) (lowRight se))
    / area (0, 0) (4104, 4104) = 255 /\
    rgb c = (0, 0, 0).
Proof.
  destruct (QTree_of_PNG_returns white4105 PNG_ok_white4105) as (rt & Hb & B).
  change (PNG.width white4105) with 4105 in *.
  change (PNG.height white4105) with 4105 in *.
  change (4105 - 1) with 4104 in B.
  inversion B as [x0 y0 E1 E2
                 | x0 y1 y2 c nw sw Hy Bnw Bsw Hc E1 E2
                 | x1 x2 y0 c nw ne Hx Bnw Bne Hc E1 E2
                 | x1 x2 y1 y2 c nw ne sw se Hx Hy Bnw Bne Bsw Bse Hc E1 E2];
    subst.
  change ((0 + 4104) / 2) with 2052 in *. change (2052 + 1) with 2053 in *.
  exists c, nw, ne, sw, se.
  assert (Hnw := Built_white4105 _ _ _ Bnw ltac:(cbn; lia) ltac:(cbn; lia)
                   ltac:(vm_compute; reflexivity)).
  assert (Hne := Built_white4105 _ _ _ Bne ltac:(cbn; lia) ltac:(cbn; lia)
                   ltac:(vm_compute; reflexivity)).
  assert (Hsw := Built_white4105 _ _ _ Bsw ltac:(cbn; lia) ltac:(cbn; lia)
                   ltac:(vm_compute; reflexivity)).
  assert (Hse := Built_white4105 _ _ _ Bse ltac:(cbn; lia) ltac:(cbn; lia)
                   ltac:(vm_compute; reflexivity)).
  split; [exact Hb|]. repeat (split; [assumption|]).
  destruct (Built_corners _ _ _ _ Bnw) as (Nnw & Unw & Lnw).
  destruct (Built_corners _ _ _ _ Bne) as (Nne & Une & Lne).
  destruct (Built_corners _ _ _ _ Bsw) as (Nsw & Usw & Lsw).
  destruct (Built_corners _ _ _ _ Bse) as (Nse & Use & Lse).
  rewrite Unw, Lnw, Une, Lne, Usw, Lsw, Use, Lse.
  unfold rgb in *.
  injection Hnw as R1 G1 B1. injection Hne as R2 G2 B2.
  injection Hsw as R3 G3 B3. injection Hse as R4 G4 B4.
  rewrite R1, R2, R3, R4.
  split; [vm_compute; reflexivity|].
  destruct (averageOf_rgb _ _ _ _ _ _ _ _ _ Hc) as (Er & Eg & Eb).
  rewrite Er, Eg, Eb.
  rewrite (chanAverage_colours r _ _ _ _ nw ne sw se white white white white),
    (chanAverage_colours g _ _ _ _ nw ne sw se white white white white),
    (chanAverage_colours b _ _ _ _ nw ne sw se white white white white)
    by assumption.
  vm_compute. reflexivity.
Qed.

(** C6.  On every raster of at least one pixel (sides below 2^31, fewer
    than 2^32 pixels) the constructor returns a tree over the whole image
    that follows the split rule; every leaf is a single pixel; every pixel
    of the image lies in exactly one leaf rectangle and no pixel outside
    lies in any; and the tree has width * height leaves. *)
Theorem C6_Build_split_rule_and_tiling (img : PNG.t) :
  PNG_ok img ->
  exists t,
    QTree_of_PNG img = Some t /\
    width t = PNG.width img /\ height t = PNG.height img /\
    hasRect (root t) (0, 0) (PNG.width img - 1, PNG.height img - 1) = true /\
    split_rule (root t) = true /\
    (forall l, In l (leaves (root t)) -> upLeft l = lowRight l) /\
    (forall x y, coverCount (root t) x y
                 = if PNG.inside img x y then 1%nat else 0%nat) /\
    Z.of_nat (CountLeaves (root t)) = PNG.width img * PNG.height img.
Proof.
  intros Hok. pose proof Hok as (HW & HH & HA).
  destruct (QTree_of_PNG_returns img Hok) as (rt & Hb & B).
  eexists. split; [exact Hb|]. cbn [width height root].
  split; [reflexivity|]. split; [reflexivity|].
  split; [exact (Built_hasRect _ _ _ _ B)|].
  split; [exact (Built_split_rule _ _ _ _ B)|].
  split; [|split].
  - intros l Hl.
    destruct (Built_leaves_form _ _ _ _ B ltac:(cbn; lia) ltac:(cbn; lia) l Hl)
      as (x & y & -> & _). reflexivity.
  - intros x y. rewrite (Built_tiling _ _ _ _ B).
    unfold inRect, PNG.inside. cbn [fst snd].
    destruct (Z.leb_spec 0 x), (Z.leb_spec x (PNG.width img - 1)),
      (Z.ltb_spec x (PNG.width img)), (Z.leb_spec 0 y),
      (Z.leb_spec y (PNG.height img - 1)), (Z.ltb_spec y (PNG.height img));
      cbn; try reflexivity; lia.
  - rewrite (Built_CountLeaves _ _ _ _ B) by (cbn; lia).
    unfold area. cbn [fst snd]. f_equal; lia.
Qed.

(** C7 (amended).  RotateCCW recomputes the corners of every node with the
    height of the tree after the swap, which is its width before the
    rotation: the node found along a path in the rotated tree is the node
    that was along the path of the children's former quadrants, with
    [upLeft = (old upLeft.y, width - old lowRight.x - 1)] and
    [lowRight = (old lowRight.y, width - old upLeft.x - 1)]. *)
Theorem C7_RotateCCW_corners (t : QTree) (path : list Quadrant) :
  let old := descend (map beforeRotation path) (root t) in
  let new := descend path (root (RotateCCW t)) in
  height (RotateCCW t) = width t /\
  isNull new = isNull old /\
  (isNull old = true \/
   upLeft new = (snd (upLeft old), u32 (width t - fst (lowRight old) - 1)) /\
   lowRight new = (snd (lowRight old), u32 (width t - fst (upLeft old) - 1)) /\
   avg new = avg old).
Proof.
  intros old new. split; [reflexivity|].
  assert (E : new = rotateCCW (width t) old).
  { unfold new, old. rewrite RotateCCW_unfold. cbn [root].
    apply descend_rotateCCW. }
  rewrite E. split; [apply isNull_rotateCCW|].
  destruct old as [|ul lr c NW NE SW SE]; [left; reflexivity|right].
  cbn [rotateCCW upLeft lowRight avg]. auto.
Qed.

(** C8 (amended).  On every tree that the operations produce, four calls
    of RotateCCW give the tree back, so that it renders as before; one call
    swaps width and height; and on an unpruned tree the render after one
    call has the pixel [(x, y)] of the render before at
    [(width - 1 - y, x)], [width] being the width before the rotation (at
    any scale, in canvas pixels). *)
Theorem C8_RotateCCW_period_and_pixels (p : bool) (t : QTree) :
  Reachable distanceTo p t ->
  RotateCCW (RotateCCW (RotateCCW (RotateCCW t))) = t /\
  (forall s, Render blank (RotateCCW (RotateCCW (RotateCCW (RotateCCW t)))) s
             = Render blank t s) /\
  width (RotateCCW t) = height t /\ height (RotateCCW t) = width t /\
  (p = false ->
   forall s, 1 <= s -> width t * s < 2 ^ 32 -> height t * s < 2 ^ 32 ->
     exists before after,
       Render blank t s = Some before /\
       Render blank (RotateCCW t) s = Some after /\
       PNG.width after = PNG.height before /\
       PNG.height after = PNG.width before /\
       forall X Y, 0 <= X < PNG.width after -> 0 <= Y < PNG.height after ->
         PNG.imageData after X Y
         = PNG.imageData before (PNG.width before - 1 - Y) X).
Proof.
  intros R. destruct (Reachable_wellFormed _ _ _ R) as (HW & HH & HB).
  assert (E4 : RotateCCW (RotateCCW (RotateCCW (RotateCCW t))) = t).
  { rewrite !RotateCCW_unfold. cbn [root width height].
    rewrite (rotateCCW_four (width t) (height t)) by (assumption || lia).
    destruct t; reflexivity. }
  split; [exact E4|]. split; [intros s; rewrite E4; reflexivity|].
  split; [reflexivity|]. split; [reflexivity|].
  intros Hp s Hs HWs HHs.
  destruct (Reachable_unpruned _ _ _ R Hp) as (f & Hf).
  destruct (Render_PixelLeaves blank f t s Hf)
    as (before & Hr & Hw & Hh & Hpix); try lia.
  destruct (Render_PixelLeaves blank (fun x y => f (width t - 1 - y) x)
              (RotateCCW t) s)
    as (after & Hr' & Hw' & Hh' & Hpix'); rewrite ?RotateCCW_unfold;
    cbn [width height root]; try lia.
  { apply PixelLeaves_rotateCCW; [lia|exact Hf]. }
  rewrite RotateCCW_unfold in Hw', Hh', Hpix'.
  cbn [width height root] in Hw', Hh', Hpix'.
  exists before, after. split; [exact Hr|]. split; [exact Hr'|].
  split; [lia|]. split; [lia|]. intros X Y HX HY.
  rewrite Hpix' by lia. rewrite Hpix by lia. rewrite Hw.
  rewrite div_mirror by lia. reflexivity.
Qed.

(** C9.  On every tree that the operations produce, pruned, flipped or
    rotated before or not, two calls of FlipHorizontal give the tree back,
    and its render is the render before the two calls, at every scale. *)
Theorem C9_FlipHorizontal_twice (p : bool) (t : QTree) :
  Reachable distanceTo p t ->
  FlipHorizontal (FlipHorizontal t) = t /\
  forall s, Render blank (FlipHorizontal (FlipHorizontal t)) s
            = Render blank t s.
Proof.
  intros R. destruct (Reachable_wellFormed _ _ _ R) as (HW & HH & HB).
  assert (E : FlipHorizontal (FlipHorizontal t) = t).
  { unfold FlipHorizontal. cbn [root width height].
    rewrite (flipHorizontal_involutive (width t) (height t))
      by (assumption || lia).
    destruct t; reflexivity. }
  split; [exact E|]. intros s. rewrite E. reflexivity.
Qed.

(** C10.  FlipHorizontal and RotateCCW keep the number of nodes and the
    number of leaves of every tree, and a node is a leaf after the call
    exactly when it was one before. *)
Theorem C10_flip_rotate_preserve_counts (t : QTree) :
  CountNodes (root (FlipHorizontal t)) = CountNodes (root t) /\
  CountLeaves (root (FlipHorizontal t)) = CountLeaves (root t) /\
  CountNodes (root (RotateCCW t)) = CountNodes (root t) /\
  CountLeaves (root (RotateCCW t)) = CountLeaves (root t) /\
  (forall nd, isLeaf (flipHorizontal (width t) nd) = isLeaf nd) /\
  (forall nd, isLeaf (rotateCCW (width t) nd) = isLeaf nd).
Proof.
  rewrite RotateCCW_unfold. unfold FlipHorizontal. cbn [root].
  split; [apply CountNodes_flipHorizontal|].
  split; [apply CountLeaves_flipHorizontal|].
  split; [apply CountNodes_rotateCCW|].
  split; [apply CountLeaves_rotateCCW|].
  split; intros [|ul lr c NW NE SW SE]; try reflexivity.
  - cbn [flipHorizontal].
    destruct (u32 (width t - 1 - fst lr) >? u32 (width t - 1 - fst ul));
      cbn [isLeaf]; unfold noChildren; rewrite !isNull_flipHorizontal;
      destruct (isNull NW), (isNull NE), (isNull SW), (isNull SE); reflexivity.
  - cbn [rotateCCW isLeaf]. unfold noChildren. rewrite !isNull_rotateCCW.
    destruct (isNull NW), (isNull NE), (isNull SW), (isNull SE); reflexivity.
Qed.

End Claims.

(** ** Counterexamples to the claims as worded *)

(** C4 as the design document words it fails three times.  Its own 2x2
    raster has the root average (127,127,63,1.0): the blue sum 255 over 4
    pixels truncates to 63, not 64.  An average of averages is not the
    average: on the row of reds 1, 0, 2 the left child stores 0 for
    (1 + 0) / 2 and the root (0 * 2 + 2 * 1) / 3 = 0, while the true mean is
    3 / 3 = 1.  And the alpha, a [double], is rounded at every node: on the
    row of 21 pixels of which the first five have alpha 0.375, the sum of
    the alphas is 1.875 exactly and a direct scan gives 1.875 / 21, but the
    left child of the root stores 1.875 / 11 rounded, the root multiplies
    it by 11 again, and the alpha it stores is just below 1.875 / 21. *)
Lemma C4_counterexample :
  (exists t, QTree_of_PNG img2x2 = Some t /\
             avg (root t) <> mkRGBAPixel 127 127 64 1) /\
  (exists t, QTree_of_PNG img3x1 = Some t /\
             r (avg (root t)) = 0 /\
             trueMean r img3x1 (upLeft (root t)) (lowRight (root t)) = 1) /\
  (exists t, QTree_of_PNG img21x1 = Some t /\
             alphaMean img21x1 (upLeft (root t)) (lowRight (root t))
             = PrimFloat.div 1.875 21 /\
             PrimFloat.ltb (a (avg (root t)))
               (alphaMean img21x1 (upLeft (root t)) (lowRight (root t)))
             = true).
Proof.
  split; [|split].
  - exists tree2x2. split; [vm_compute; reflexivity|]. cbn. discriminate.
  - destruct build_3x1 as (nw & E). eexists. split; [exact E|].
    split; [reflexivity|]. vm_compute. reflexivity.
  - eexists. split; [vm_compute; reflexivity|].
    split; vm_compute; reflexivity.
Qed.

(** C7 as worded takes the height of the tree before the swap.  On the row
    of two pixels (width 2, height 1) the root [(0,0)-(1,0)] becomes
    [(0,0)-(0,1)]; with the height before the rotation the formula of the
    claim gives the upper left corner [(0, 1 - 1 - 1)], which is
    [(0, 4294967295)] in unsigned arithmetic, and the lower right corner
    [(0, 0)]. *)
Lemma C7_counterexample :
  QTree_of_PNG img2x1 = Some tree2x1 /\
  upLeft (root (RotateCCW tree2x1)) = (0, 0) /\
  lowRight (root (RotateCCW tree2x1)) = (0, 1) /\
  (snd (upLeft (root tree2x1)),
   u32 (height tree2x1 - fst (lowRight (root tree2x1)) - 1))
  = (0, 4294967295) /\
  (snd (lowRight (root tree2x1)),
   u32 (height tree2x1 - fst (upLeft (root tree2x1)) - 1))
  = (0, 0) /\
  upLeft (root (RotateCCW tree2x1))
  <> (snd (upLeft (root tree2x1)),
      u32 (height tree2x1 - fst (lowRight (root tree2x1)) - 1)).
Proof.
  split; [vm_compute; reflexivity|].
  split; [reflexivity|]. split; [reflexivity|].
  split; [reflexivity|]. split; [reflexivity|].
  vm_compute. discriminate.
Qed.

(** C8 as worded maps the pixel [(x, y)] of the rotated render to
    [(y, height - 1 - x)] of the render before.  On the 2x2 raster of the
    design document the rotated render has the green pixel of [(1, 0)] at
    [(0, 0)], where the claim reads the blue pixel of [(0, 1)].  On the row
    red, green the rotated render has green at [(0, 0)]; the render before
    has red at [(0, height - 1 - 0)] for the height 1 before the rotation,
    and no pixel there for the height 2 after it. *)
Lemma C8_counterexample :
  (exists before after,
     QTree_of_PNG img2x2 = Some tree2x2 /\
     Render black tree2x2 1 = Some before /\
     Render black (RotateCCW tree2x2) 1 = Some after /\
     PNG.getPixel after 0 0 = Some (mkRGBAPixel 0 255 0 1) /\
     PNG.getPixel before 0 (height tree2x2 - 1 - 0)
       = Some (mkRGBAPixel 0 0 255 1) /\
     PNG.getPixel after 0 0
       <> PNG.getPixel before 0 (height tree2x2 - 1 - 0)) /\
  (exists before after,
     QTree_of_PNG img2x1 = Some tree2x1 /\
     Render black tree2x1 1 = Some before /\
     Render black (RotateCCW tree2x1) 1 = Some after /\
     PNG.getPixel after 0 0 = Some green /\
     PNG.getPixel before 0 (height tree2x1 - 1 - 0) = Some red /\
     PNG.getPixel before 0 (height (RotateCCW tree2x1) - 1 - 0) = None /\
     PNG.getPixel after 0 0
       <> PNG.getPixel before 0 (height tree2x1 - 1 - 0)).
Proof.
  split.
  - eexists. eexists.
    split; [vm_compute; reflexivity|].
    split; [vm_compute; reflexivity|].
    split; [vm_compute; reflexivity|].
    split; [reflexivity|]. split; [reflexivity|].
    vm_compute. discriminate.
  - eexists. eexists.
    split; [vm_compute; reflexivity|].
    split; [vm_compute; reflexivity|].
    split; [vm_compute; reflexivity|].
    split; [reflexivity|]. split; [reflexivity|]. split; [reflexivity|].
    vm_compute. discriminate.
Qed.

(** ** The theorems at concrete inputs *)

Lemma pixelsOk_img2x2 : pixelsOk img2x2.
Proof.
  intros x y Hx Hy. change (PNG.width img2x2) with 2 in Hx.
  change (PNG.height img2x2) with 2 in Hy.
  assert (Ex : x = 0 \/ x = 1) by lia. assert (Ey : y = 0 \/ y = 1) by lia.
  destruct Ex as [-> | ->], Ey as [-> | ->]; vm_compute; repeat split;
    intros E; discriminate E.
Defined.

Lemma Reachable_flipped2x2 :
  Reachable rgbDistance false (FlipHorizontal tree2x2).
Proof.
  apply Reach_flip. apply (Reach_build rgbDistance img2x2 tree2x2).
  - exact PNG_ok_img2x2.
  - vm_compute. reflexivity.
Defined.

Lemma Reachable_pruned2x2 :
  Reachable rgbDistance true (RotateCCW (Prune rgbDistance tree2x2 300)).
Proof.
  apply Reach_rotate. apply Reach_prune with (p := false).
  apply (Reach_build rgbDistance img2x2 tree2x2).
  - exact PNG_ok_img2x2.
  - vm_compute. reflexivity.
Defined.

(** The tree of the 4x2 raster after Prune with tolerance 0 and a rotation:
    the two red pairs are collapsed, the green and blue pixels are not, so
    the tree has six leaves, two of them of two pixels. *)
Lemma Reachable_pruned4x2 :
  Reachable rgbDistance true (RotateCCW (Prune rgbDistance tree4x2 0)).
Proof.
  apply Reach_rotate. apply Reach_prune with (p := false).
  apply (Reach_build rgbDistance img4x2 tree4x2).
  - exact PNG_ok_img4x2.
  - exact build_4x2.
Defined.

Lemma C1_witness :
  PrimFloat.leb (rgbDistance (otherThan white) (otherThan white)) 0 = true /\
  exists t out,
    QTree_of_PNG (PNG.create (otherThan white) 2 1) = Some t /\
    root (Prune rgbDistance t 0)
      = mkNode (0, 0) (1, 0) (otherThan white) nullptr nullptr nullptr nullptr /\
    Render white (Prune rgbDistance t 0) 1 = Some out /\
    PNG.width out = 2 /\ PNG.height out = 1 /\
    PNG.getPixel out 0 0 = Some (otherThan white) /\
    PNG.getPixel out 1 0 = Some white /\
    white <> otherThan white.
Proof.
  split; [vm_compute; reflexivity|].
  apply (C1_Render_pruned_leaf_not_filled white rgbDistance 0).
  vm_compute. reflexivity.
Defined.

Lemma C2_witness :
  PrimFloat.leb (rgbDistance (otherThan white) (otherThan white)) 0 = true /\
  PrimFloat.leb (rgbDistance (otherThan white) white) 0 = false /\
  exists t before after c c',
    QTree_of_PNG (PNG.create (otherThan white) 2 1) = Some t /\
    Render white t 1 = Some before /\
    Render white (Prune rgbDistance t 0) 1 = Some after /\
    PNG.getPixel before 1 0 = Some c /\
    PNG.getPixel after 1 0 = Some c' /\
    PrimFloat.leb (rgbDistance c c') 0 = false.
Proof.
  split; [vm_compute; reflexivity|]. split; [vm_compute; reflexivity|].
  apply (C2_Prune_render_beyond_tolerance white rgbDistance 0);
    vm_compute; reflexivity.
Defined.

Lemma C3_witness :
  PNG_ok img2x2 /\
  exists t out,
    QTree_of_PNG img2x2 = Some t /\ Render black t 1 = Some out /\
    PNG.same out img2x2.
Proof.
  split; [exact PNG_ok_img2x2|].
  apply (C3_Render_identity black img2x2). exact PNG_ok_img2x2.
Defined.

Lemma C4_witness :
  PNG_ok img2x2 /\ pixelsOk img2x2 /\
  255 * (PNG.width img2x2 * PNG.height img2x2) < 2 ^ 32 /\
  exists t,
    QTree_of_PNG img2x2 = Some t /\
    allNodes (fun n =>
                (meanFacts r img2x2 n /\ meanFacts g img2x2 n
                 /\ meanFacts b img2x2 n) /\
                (avgFacts r img2x2 n /\ avgFacts g img2x2 n
                 /\ avgFacts b img2x2 n) /\
                alphaFacts img2x2 n) (root t).
Proof.
  split; [exact PNG_ok_img2x2|]. split; [exact pixelsOk_img2x2|].
  split; [cbn; lia|].
  apply (proj1 C4_average_against_true_mean img2x2).
  - exact PNG_ok_img2x2.
  - exact pixelsOk_img2x2.
  - cbn. lia.
Defined.

Lemma C6_witness :
  PNG_ok img2x2 /\
  exists t,
    QTree_of_PNG img2x2 = Some t /\
    width t = PNG.width img2x2 /\ height t = PNG.height img2x2 /\
    hasRect (root t) (0, 0) (PNG.width img2x2 - 1, PNG.height img2x2 - 1)
      = true /\
    split_rule (root t) = true /\
    (forall l, In l (leaves (root t)) -> upLeft l = lowRight l) /\
    (forall x y, coverCount (root t) x y
                 = if PNG.inside img2x2 x y then 1%nat else 0%nat) /\
    Z.of_nat (CountLeaves (root t)) = PNG.width img2x2 * PNG.height img2x2.
Proof.
  split; [exact PNG_ok_img2x2|].
  apply (C6_Build_split_rule_and_tiling img2x2). exact PNG_ok_img2x2.
Defined.

Lemma C8_witness :
  Reachable rgbDistance false (FlipHorizontal tree2x2) /\
  exists before after,
    Render black (FlipHorizontal tree2x2) 3 = Some before /\
    Render black (RotateCCW (FlipHorizontal tree2x2)) 3 = Some after /\
    PNG.width after = PNG.height before /\
    PNG.height after = PNG.width before /\
    forall X Y, 0 <= X < PNG.width after -> 0 <= Y < PNG.height after ->
      PNG.imageData after X Y
      = PNG.imageData before (PNG.width before - 1 - Y) X.
Proof.
  split; [exact Reachable_flipped2x2|].
  apply (C8_RotateCCW_period_and_pixels black rgbDistance false
           (FlipHorizontal tree2x2) Reachable_flipped2x2);
    [reflexivity|lia|cbn; lia|cbn; lia].
Defined.

Lemma C9_witness :
  Reachable rgbDistance true (RotateCCW (Prune rgbDistance tree4x2 0)) /\
  CountLeaves (root (RotateCCW (Prune rgbDistance tree4x2 0))) = 6%nat /\
  FlipHorizontal (RotateCCW (Prune rgbDistance tree4x2 0))
  <> RotateCCW (Prune rgbDistance tree4x2 0) /\
  FlipHorizontal (FlipHorizontal (RotateCCW (Prune rgbDistance tree4x2 0)))
  = RotateCCW (Prune rgbDistance tree4x2 0) /\
  forall s,
    Render black
      (FlipHorizontal (FlipHorizontal (RotateCCW (Prune rgbDistance tree4x2 0))))
      s
    = Render black (RotateCCW (Prune rgbDistance tree4x2 0)) s.
Proof.
  split; [exact Reachable_pruned4x2|].
  split; [vm_compute; reflexivity|].
  split; [vm_compute; intros E; discriminate E|].
  apply (C9_FlipHorizontal_twice black rgbDistance true
           (RotateCCW (Prune rgbDistance tree4x2 0)) Reachable_pruned4x2).
Defined.

(** * Further properties of the code *)

(** ** Pruning *)

Lemma isNull_pruneSt distanceTo tol nd :
  isNull (pruneSt distanceTo nd tol) = isNull nd.
Proof.
  destruct nd as [|ul lr c NW NE SW SE]; [reflexivity|]. cbn [pruneSt].
  destruct (noChildren NW NE SW SE); [reflexivity|].
  destruct (leavesUnderTol distanceTo (mkNode ul lr c NW NE SW SE) tol c);
    reflexivity.
Qed.

Lemma noChildren_pruneSt distanceTo tol NW NE SW SE :
  noChildren (pruneSt distanceTo NW tol) (pruneSt distanceTo NE tol)
    (pruneSt distanceTo SW tol) (pruneSt distanceTo SE tol)
  = noChildren NW NE SW SE.
Proof. unfold noChildren. rewrite !isNull_pruneSt. reflexivity. Qed.

Lemma CountLeaves_positive nd : isNull nd = false -> (1 <= CountLeaves nd)%nat.
Proof.
  induction nd as [|ul lr c NW IHNW NE IHNE SW IHSW SE IHSE];
    [discriminate|].
  intros _. cbn [CountLeaves]. unfold noChildren.
  destruct (isNull NW) eqn:E1; [|specialize (IHNW eq_refl); cbn; lia].
  destruct (isNull NE) eqn:E2; [|specialize (IHNE eq_refl); cbn; lia].
  destruct (isNull SW) eqn:E3; [|specialize (IHSW eq_refl); cbn; lia].
  destruct (isNull SE) eqn:E4; [|specialize (IHSE eq_refl); cbn; lia].
  cbn. lia.
Qed.

(** X1 (QTree::Prune, pruneSt, clearSt).
    Prune removes nodes and never adds any: the pruned tree has at most as
    many leaves and at most as many nodes as the tree before, and it is
    empty exactly when the tree before was. *)
Theorem X1_Prune_never_grows distanceTo (t : QTree) (tolerance : float) :
  (CountLeaves (root (Prune distanceTo t tolerance)) <= CountLeaves (root t))%nat /\
  (CountNodes (root (Prune distanceTo t tolerance)) <= CountNodes (root t))%nat /\
  isNull (root (Prune distanceTo t tolerance)) = isNull (root t) /\
  width (Prune distanceTo t tolerance) = width t /\
  height (Prune distanceTo t tolerance) = height t.
Proof.
  unfold Prune. cbn [root width height].
  split; [|split; [|split; [apply isNull_pruneSt|split; reflexivity]]].
  - induction (root t) as [|ul lr c NW IHNW NE IHNE SW IHSW SE IHSE];
      [cbn; lia|].
    cbn [pruneSt]. destruct (noChildren NW NE SW SE) eqn:En; [lia|].
    destruct (leavesUnderTol distanceTo (mkNode ul lr c NW NE SW SE)
                tolerance c).
    + cbn [clearSt]. change (CountLeaves (mkNode ul lr c nullptr nullptr
                                            nullptr nullptr)) with 1%nat.
      apply CountLeaves_positive. reflexivity.
    + cbn [CountLeaves]. rewrite noChildren_pruneSt, En. lia.
  - induction (root t) as [|ul lr c NW IHNW NE IHNE SW IHSW SE IHSE];
      [cbn; lia|].
    cbn [pruneSt]. destruct (noChildren NW NE SW SE) eqn:En; [lia|].
    destruct (leavesUnderTol distanceTo (mkNode ul lr c NW NE SW SE)
                tolerance c).
    + cbn [clearSt CountNodes]. lia.
    + cbn [CountNodes]. lia.
Qed.

Lemma descend_nullptr path : descend path nullptr = nullptr.
Proof. induction path as [|q path IH]; [reflexivity|exact IH]. Qed.

(** X2 (QTree::pruneSt, leavesUnderTol).
    Prune tests every node once, from the root down: along every path of
    child pointers, the pruned tree holds nothing or the node that was
    there, with its corners and its colour; a node that was collapsed into
    a leaf had every leaf under it within the tolerance of its colour, and
    a node that is still internal had a leaf further than the tolerance. *)
Theorem X2_Prune_collapses_exactly distanceTo (tolerance : float)
    (path : list Quadrant) :
  forall nd : Node,
    prunedFrom distanceTo tolerance (descend path nd)
      (descend path (pruneSt distanceTo nd tolerance)).
Proof.
  induction path as [|q path IH]; intros nd.
  - cbn [descend]. destruct nd as [|ul lr c NW NE SW SE]; [left; reflexivity|].
    right. cbn [pruneSt].
    destruct (noChildren NW NE SW SE) eqn:En.
    + cbn [isNull upLeft lowRight avg isLeaf]. rewrite En.
      repeat split; auto; discriminate.
    + destruct (leavesUnderTol distanceTo (mkNode ul lr c NW NE SW SE)
                  tolerance c) eqn:El.
      * cbn [clearSt isNull upLeft lowRight avg isLeaf].
        repeat split; auto; cbn; discriminate.
      * cbn [isNull upLeft lowRight avg isLeaf].
        rewrite noChildren_pruneSt, En.
        repeat split; auto; discriminate.
  - cbn [descend]. destruct nd as [|ul lr c NW NE SW SE].
    + cbn [pruneSt child]. rewrite descend_nullptr. left. reflexivity.
    + cbn [pruneSt].
      destruct (noChildren NW NE SW SE) eqn:En.
      * unfold noChildren in En.
        destruct NW; [|discriminate]. destruct NE; [|discriminate].
        destruct SW; [|discriminate]. destruct SE; [|discriminate].
        destruct q; cbn [child]; rewrite descend_nullptr; left; reflexivity.
      * destruct (leavesUnderTol distanceTo (mkNode ul lr c NW NE SW SE)
                    tolerance c).
        -- cbn [clearSt]. destruct q; cbn [child]; rewrite descend_nullptr;
             left; reflexivity.
        -- destruct q; cbn [child]; apply IH.
Qed.

(** ** The tiling, kept by every operation *)

Lemma coverCount_node ul lr c NW NE SW SE x y :
  coverCount (mkNode ul lr c NW NE SW SE) x y
  = if noChildren NW NE SW SE then Nat.b2n (inRect ul lr x y)
    else (coverCount NW x y + coverCount NE x y + coverCount SW x y
          + coverCount SE x y)%nat.
Proof.
  unfold coverCount. cbn [leaves]. destruct (noChildren NW NE SW SE).
  - cbn [filter]. unfold covers. cbn [upLeft lowRight].
    destruct (inRect ul lr x y); reflexivity.
  - rewrite !filter_app, !length_app. lia.
Qed.

Lemma Built_Tiled img ul lr n : Built img ul lr n -> Tiled n.
Proof.
  intros B. unfold Tiled.
  induction B as [x0 y0
                 | x0 y1 y2 c nw sw Hy Bnw IHnw Bsw IHsw Hc
                 | x1 x2 y0 c nw ne Hx Bnw IHnw Bne IHne Hc
                 | x1 x2 y1 y2 c nw ne sw se Hx Hy Bnw IHnw Bne IHne
                     Bsw IHsw Bse IHse Hc].
  - cbn [allNodes]. repeat split; auto. intros x y.
    apply (Built_tiling img _ _ _ (Built_pixel img x0 y0)).
  - cbn [allNodes]. repeat split; auto. intros x y.
    apply (Built_tiling img _ _ _
             (Built_column img x0 y1 y2 c nw sw Hy Bnw Bsw Hc)).
  - cbn [allNodes]. repeat split; auto. intros x y.
    apply (Built_tiling img _ _ _
             (Built_row img x1 x2 y0 c nw ne Hx Bnw Bne Hc)).
  - cbn [allNodes]. repeat split; auto. intros x y.
    apply (Built_tiling img _ _ _
             (Built_quad img x1 x2 y1 y2 c nw ne sw se Hx Hy Bnw Bne Bsw Bse
                Hc)).
Qed.

Lemma coverCount_pruneSt distanceTo tol nd :
  Tiled nd ->
  forall x y, coverCount (pruneSt distanceTo nd tol) x y = coverCount nd x y.
Proof.
  unfold Tiled.
  induction nd as [|ul lr c NW IHNW NE IHNE SW IHSW SE IHSE]; intros HT x y.
  - reflexivity.
  - cbn [allNodes] in HT. destruct HT as (H0 & H1 & H2 & H3 & H4).
    cbn [pruneSt]. destruct (noChildren NW NE SW SE) eqn:En; [reflexivity|].
    destruct (leavesUnderTol distanceTo (mkNode ul lr c NW NE SW SE) tol c).
    + cbn [clearSt]. rewrite (H0 x y). rewrite coverCount_node.
      reflexivity.
    + rewrite !coverCount_node, noChildren_pruneSt, En.
      rewrite IHNW, IHNE, IHSW, IHSE by assumption. reflexivity.
Qed.

Lemma corners_pruneSt distanceTo tol nd :
  upLeft (pruneSt distanceTo nd tol) = upLeft nd /\
  lowRight (pruneSt distanceTo nd tol) = lowRight nd.
Proof.
  destruct nd as [|ul lr c NW NE SW SE]; [auto|]. cbn [pruneSt].
  destruct (noChildren NW NE SW SE); [auto|].
  destruct (leavesUnderTol distanceTo (mkNode ul lr c NW NE SW SE) tol c);
    auto.
Qed.

Lemma tiles_pruneSt distanceTo tol nd :
  isNull nd = false -> Tiled nd -> tiles (pruneSt distanceTo nd tol).
Proof.
  intros Hn HT x y. rewrite coverCount_pruneSt by exact HT.
  destruct (corners_pruneSt distanceTo tol nd) as (-> & ->).
  destruct nd as [|ul lr c NW NE SW SE]; [discriminate|].
  unfold Tiled in HT. cbn [allNodes] in HT. apply HT.
Qed.

Lemma Tiled_pruneSt distanceTo tol nd :
  Tiled nd -> Tiled (pruneSt distanceTo nd tol).
Proof.
  induction nd as [|ul lr c NW IHNW NE IHNE SW IHSW SE IHSE]; intros HT.
  - exact I.
  - pose proof (tiles_pruneSt distanceTo tol (mkNode ul lr c NW NE SW SE)
                  eq_refl HT) as Htop.
    unfold Tiled in *. cbn [allNodes] in HT.
    destruct HT as (H0 & H1 & H2 & H3 & H4).
    cbn [pruneSt] in *.
    destruct (noChildren NW NE SW SE); [cbn [allNodes]; repeat split; auto|].
    destruct (leavesUnderTol distanceTo (mkNode ul lr c NW NE SW SE) tol c).
    + cbn [clearSt allNodes] in *. repeat split; auto.
    + cbn [allNodes]. repeat split; auto.
Qed.

Lemma inRect_flip W ul lr x y :
  inRect (W - 1 - fst lr, snd ul) (W - 1 - fst ul, snd lr) x y
  = inRect ul lr (W - 1 - x) y.
Proof.
  unfold inRect. cbn [fst snd].
  destruct (Z.leb_spec (W - 1 - fst lr) x), (Z.leb_spec x (W - 1 - fst ul)),
    (Z.leb_spec (fst ul) (W - 1 - x)), (Z.leb_spec (W - 1 - x) (fst lr));
    cbn [andb]; try reflexivity; lia.
Qed.

Lemma inRect_rotate W ul lr x y :
  inRect (snd ul, W - fst lr - 1) (snd lr, W - fst ul - 1) x y
  = inRect ul lr (W - 1 - y) x.
Proof.
  unfold inRect. cbn [fst snd].
  destruct (Z.leb_spec (snd ul) x), (Z.leb_spec x (snd lr)),
    (Z.leb_spec (W - fst lr - 1) y), (Z.leb_spec y (W - fst ul - 1)),
    (Z.leb_spec (fst ul) (W - 1 - y)), (Z.leb_spec (W - 1 - y) (fst lr));
    cbn [andb]; try reflexivity; lia.
Qed.

Lemma noChildren_flipHorizontal W NW NE SW SE :
  noChildren (flipHorizontal W NE) (flipHorizontal W NW)
    (flipHorizontal W SE) (flipHorizontal W SW)
  = noChildren NW NE SW SE.
Proof.
  unfold noChildren. rewrite !isNull_flipHorizontal.
  destruct (isNull NW), (isNull NE), (isNull SW), (isNull SE); reflexivity.
Qed.

Lemma noChildren_rotateCCW h NW NE SW SE :
  noChildren (rotateCCW h NE) (rotateCCW h SE) (rotateCCW h NW)
    (rotateCCW h SW)
  = noChildren NW NE SW SE.
Proof.
  unfold noChildren. rewrite !isNull_rotateCCW.
  destruct (isNull NW), (isNull NE), (isNull SW), (isNull SE); reflexivity.
Qed.

(** The leaves of the flipped tree cover [(x, y)] as those of the tree
    before covered its mirror image. *)
Lemma coverCount_flipHorizontal W H nd :
  W <= 2 ^ 32 -> inBounds W H nd ->
  forall x y, coverCount (flipHorizontal W nd) x y
              = coverCount nd (W - 1 - x) y.
Proof.
  intros HW. induction nd as [|ul lr c NW IHNW NE IHNE SW IHSW SE IHSE];
    intros HB x y.
  - reflexivity.
  - destruct HB as (Hx & Hy & B1 & B2 & B3 & B4).
    rewrite flipHorizontal_node by lia.
    rewrite !coverCount_node, noChildren_flipHorizontal, inRect_flip.
    rewrite IHNW, IHNE, IHSW, IHSE by assumption.
    destruct (noChildren NW NE SW SE); [reflexivity|lia].
Qed.

Lemma coverCount_rotateCCW W H nd :
  W <= 2 ^ 32 -> inBounds W H nd ->
  forall x y, coverCount (rotateCCW W nd) x y = coverCount nd (W - 1 - y) x.
Proof.
  intros HW. induction nd as [|ul lr c NW IHNW NE IHNE SW IHSW SE IHSE];
    intros HB x y.
  - reflexivity.
  - destruct HB as (Hx & Hy & B1 & B2 & B3 & B4).
    cbn [rotateCCW].
    rewrite (u32_small (W - fst lr - 1)), (u32_small (W - fst ul - 1)) by lia.
    rewrite !coverCount_node, noChildren_rotateCCW, inRect_rotate.
    rewrite IHNW, IHNE, IHSW, IHSE by assumption.
    destruct (noChildren NW NE SW SE); [reflexivity|lia].
Qed.

Lemma Tiled_flipHorizontal W H nd :
  W <= 2 ^ 32 -> inBounds W H nd -> Tiled nd -> Tiled (flipHorizontal W nd).
Proof.
  intros HW. unfold Tiled.
  induction nd as [|ul lr c NW IHNW NE IHNE SW IHSW SE IHSE]; intros HB HT.
  - exact I.
  - pose proof (coverCount_flipHorizontal W H _ HW HB) as Hcc.
    cbn [allNodes] in HT. destruct HT as (H0 & H1 & H2 & H3 & H4).
    destruct HB as (Hx & Hy & B1 & B2 & B3 & B4).
    rewrite flipHorizontal_node in * by lia. cbn [allNodes].
    repeat split; auto. intros x y. rewrite Hcc, (H0 (W - 1 - x) y).
    cbn [upLeft lowRight]. rewrite inRect_flip. reflexivity.
Qed.

Lemma Tiled_rotateCCW W H nd :
  W <= 2 ^ 32 -> inBounds W H nd -> Tiled nd -> Tiled (rotateCCW W nd).
Proof.
  intros HW. unfold Tiled.
  induction nd as [|ul lr c NW IHNW NE IHNE SW IHSW SE IHSE]; intros HB HT.
  - exact I.
  - pose proof (coverCount_rotateCCW W H _ HW HB) as Hcc.
    cbn [allNodes] in HT. destruct HT as (H0 & H1 & H2 & H3 & H4).
    destruct HB as (Hx & Hy & B1 & B2 & B3 & B4).
    cbn [rotateCCW allNodes] in *.
    repeat split; auto. intros x y. rewrite Hcc, (H0 (W - 1 - y) x).
    cbn [upLeft lowRight].
    rewrite (u32_small (W - fst lr - 1)), (u32_small (W - fst ul - 1)) by lia.
    rewrite inRect_rotate. reflexivity.
Qed.

Lemma hasRect_true nd ul lr :
  hasRect nd ul lr = true <->
  isNull nd = false /\ upLeft nd = ul /\ lowRight nd = lr.
Proof.
  unfold hasRect. rewrite !andb_true_iff, !pair_eqb_eq, negb_true_iff.
  tauto.
Qed.

Lemma Reachable_Tiled distanceTo p t :
  Reachable distanceTo p t ->
  hasRect (root t) (0, 0) (width t - 1, height t - 1) = true /\
  Tiled (root t).
Proof.
  induction 1 as [img t Hok Hb|p t tol R IH|p t R IH|p t R IH].
  - destruct (QTree_of_PNG_returns img Hok) as (rt & E & B).
    rewrite E in Hb. inversion Hb; subst t. cbn [root width height].
    split; [exact (Built_hasRect _ _ _ _ B)|exact (Built_Tiled _ _ _ _ B)].
  - destruct IH as (Hr & HT). unfold Prune. cbn [root width height].
    split; [|apply Tiled_pruneSt; exact HT].
    apply hasRect_true in Hr. destruct Hr as (Hn & Hu & Hl).
    apply hasRect_true. rewrite isNull_pruneSt.
    destruct (corners_pruneSt distanceTo tol (root t)) as (-> & ->). auto.
  - destruct IH as (Hr & HT).
    destruct (Reachable_wellFormed _ _ _ R) as (HW & HH & HB).
    unfold FlipHorizontal. cbn [root width height].
    split; [|apply (Tiled_flipHorizontal _ (height t)); auto; lia].
    apply hasRect_true in Hr. destruct Hr as (Hn & Hu & Hl).
    destruct (root t) as [|ul lr c NW NE SW SE]; [discriminate|].
    cbn [upLeft lowRight] in Hu, Hl. subst ul lr.
    rewrite flipHorizontal_node by (cbn [fst snd]; lia).
    apply hasRect_true. cbn [isNull upLeft lowRight fst snd].
    repeat split; f_equal; lia.
  - destruct IH as (Hr & HT).
    destruct (Reachable_wellFormed _ _ _ R) as (HW & HH & HB).
    rewrite RotateCCW_unfold. cbn [root width height].
    split; [|apply (Tiled_rotateCCW _ (height t)); auto; lia].
    apply hasRect_true in Hr. destruct Hr as (Hn & Hu & Hl).
    destruct (root t) as [|ul lr c NW NE SW SE]; [discriminate|].
    cbn [upLeft lowRight] in Hu, Hl. subst ul lr.
    apply hasRect_true. cbn [rotateCCW isNull upLeft lowRight fst snd].
    rewrite (u32_small (width t - (width t - 1) - 1)),
      (u32_small (width t - 0 - 1)) by lia.
    repeat split; f_equal; lia.
Qed.

Lemma Reachable_leaves_tile distanceTo (p : bool) (t : QTree) :
  Reachable distanceTo p t ->
  inBounds (width t) (height t) (root t) /\
  forall x y,
    coverCount (root t) x y
    = if (0 <=? x) && (x <? width t) && (0 <=? y) && (y <? height t)
      then 1%nat else 0%nat.
Proof.
  intros R. destruct (Reachable_Tiled _ _ _ R) as (Hr & HT).
  destruct (Reachable_wellFormed _ _ _ R) as (HW & HH & HB).
  split; [exact HB|]. intros x y.
  apply hasRect_true in Hr. destruct Hr as (Hn & Hu & Hl).
  destruct (root t) as [|ul lr c NW NE SW SE]; [discriminate|].
  unfold Tiled in HT. cbn [allNodes] in HT. destruct HT as (H0 & _).
  rewrite (H0 x y). cbn [upLeft lowRight] in *. subst ul lr.
  unfold inRect. cbn [fst snd].
  destruct (Z.leb_spec 0 x), (Z.leb_spec x (width t - 1)),
    (Z.ltb_spec x (width t)), (Z.leb_spec 0 y),
    (Z.leb_spec y (height t - 1)), (Z.ltb_spec y (height t));
    cbn; try reflexivity; lia.
Qed.

(** X3 (QTree::QTree, Prune, FlipHorizontal, RotateCCW).
    The tiling is an invariant of the class: in every tree that the
    constructor, Prune, FlipHorizontal and RotateCCW produce, in any order,
    the root spans the whole image, every rectangle lies in the image, and
    every pixel of the image lies in exactly one leaf rectangle (no pixel
    outside lies in any). *)
Theorem X3_tiling_invariant distanceTo (p : bool) (t : QTree) :
  Reachable distanceTo p t ->
  hasRect (root t) (0, 0) (width t - 1, height t - 1) = true /\
  inBounds (width t) (height t) (root t) /\
  forall x y,
    coverCount (root t) x y
    = if (0 <=? x) && (x <? width t) && (0 <=? y) && (y <? height t)
      then 1%nat else 0%nat.
Proof.
  intros R. destruct (Reachable_Tiled _ _ _ R) as (Hr & _).
  destruct (Reachable_leaves_tile distanceTo p t R) as (HB & Hc). auto.
Qed.

(** ** What Render paints, on pruned trees too *)

Lemma inBounds_leaves W H nd :
  inBounds W H nd ->
  forall l, In l (leaves nd) ->
    0 <= fst (upLeft l) <= fst (lowRight l) /\ fst (lowRight l) < W /\
    0 <= snd (upLeft l) <= snd (lowRight l) /\ snd (lowRight l) < H.
Proof.
  induction nd as [|ul lr c NW IHNW NE IHNE SW IHSW SE IHSE]; intros HB l Hl.
  - destruct Hl.
  - destruct HB as (Hx & Hy & B1 & B2 & B3 & B4). cbn [leaves] in Hl.
    destruct (noChildren NW NE SW SE).
    + destruct Hl as [<-|[]]. cbn [upLeft lowRight]. lia.
    + rewrite !in_app_iff in Hl. destruct Hl as [Hl|[Hl|[Hl|Hl]]]; auto.
Qed.

Lemma filter_single {A : Type} (f : A -> bool) (L : list A) (u v : A) :
  length (filter f L) = 1%nat ->
  In u L -> In v L -> f u = true -> f v = true -> u = v.
Proof.
  intros Hlen Hu Hv Fu Fv.
  assert (Iu : In u (filter f L)) by (apply filter_In; auto).
  assert (Iv : In v (filter f L)) by (apply filter_In; auto).
  destruct (filter f L) as [|w [|w' rest]]; try discriminate.
  destruct Iu as [<-|[]]. destruct Iv as [<-|[]]. reflexivity.
Qed.

(** The canvas pixel ends with the colour of the last leaf whose block
    holds it, or was never painted. *)
Lemma painted_last scale X Y L : forall under,
  (fold_left (paint scale X Y) L under = under /\
   forall l, In l L ->
     inBlock (fst (upLeft l) * scale) (snd (upLeft l) * scale) scale X Y
     = false) \/
  (exists l, In l L /\
     inBlock (fst (upLeft l) * scale) (snd (upLeft l) * scale) scale X Y
     = true /\
     fold_left (paint scale X Y) L under = avg l).
Proof.
  induction L as [|l L IH]; intros under.
  - left. cbn. split; [reflexivity|tauto].
  - cbn [fold_left].
    destruct (IH (paint scale X Y under l)) as [(E & Hnone)|(l' & Hl' & B & E)].
    + unfold paint in E |- *.
      destruct (inBlock (fst (upLeft l) * scale) (snd (upLeft l) * scale)
                  scale X Y) eqn:B.
      * right. exists l. split; [left; reflexivity|]. split; assumption.
      * left. split; [exact E|]. intros l' [<-|Hl']; auto.
    + right. exists l'. split; [right; exact Hl'|]. split; assumption.
Qed.

Lemma inBlock_corner s l X Y :
  0 < s ->
  (inBlock (fst (upLeft l) * s) (snd (upLeft l) * s) s X Y = true
   <-> upLeft l = (X / s, Y / s)).
Proof.
  intros Hs. unfold inBlock. rewrite !andb_true_iff, !Z.leb_le, !Z.ltb_lt.
  destruct (upLeft l) as [a b]. cbn [fst snd].
  pose proof (inBlock_div s a X Hs). pose proof (inBlock_div s b Y Hs).
  split.
  - intros HB. f_equal; [apply H|apply H0]; lia.
  - intros E. inversion E; subst a b. lia.
Qed.

(** X4 (QTree::Render, renderNode, draw).
    Render on any tree that the operations produce, pruned or not, at any
    scale that fits the unsigned range: it returns a raster of
    [width * scale] by [height * scale] pixels and never writes out of it;
    a canvas pixel has the colour of the one leaf whose upper left corner is
    the image pixel under it, and is left as the fresh raster had it when
    that image pixel is not the upper left corner of a leaf.  (A collapsed
    leaf therefore shows in its upper left block only.) *)
Theorem X4_Render_on_any_tree blank distanceTo (p : bool) (t : QTree)
    (s : Z) :
  Reachable distanceTo p t ->
  1 <= s -> width t * s < 2 ^ 32 -> height t * s < 2 ^ 32 ->
  (forall l1 l2, In l1 (leaves (root t)) -> In l2 (leaves (root t)) ->
     upLeft l1 = upLeft l2 -> l1 = l2) /\
  exists out,
    Render blank t s = Some out /\
    PNG.width out = width t * s /\ PNG.height out = height t * s /\
    forall X Y, 0 <= X < width t * s -> 0 <= Y < height t * s ->
      (exists l, In l (leaves (root t)) /\ upLeft l = (X / s, Y / s) /\
                 PNG.imageData out X Y = avg l) \/
      ((forall l, In l (leaves (root t)) -> upLeft l <> (X / s, Y / s)) /\
       PNG.imageData out X Y = blank).
Proof.
  intros R Hs HWs HHs.
  destruct (Reachable_leaves_tile distanceTo p t R) as (HB & Hcount).
  destruct (Reachable_wellFormed _ _ _ R) as (HW & HH & _).
  pose proof (inBounds_leaves _ _ _ HB) as Hleaf.
  split.
  - intros l1 l2 H1 H2 E.
    destruct (Hleaf l1 H1) as (A1 & A2 & A3 & A4).
    destruct (Hleaf l2 H2) as (C1 & C2 & C3 & C4).
    apply (filter_single (covers (fst (upLeft l1)) (snd (upLeft l1)))
             (leaves (root t))); auto.
    + specialize (Hcount (fst (upLeft l1)) (snd (upLeft l1))).
      unfold coverCount in Hcount. rewrite Hcount.
      replace ((0 <=? fst (upLeft l1)) && (fst (upLeft l1) <? width t)
               && (0 <=? snd (upLeft l1)) && (snd (upLeft l1) <? height t))
        with true; [reflexivity|].
      symmetry. rewrite !andb_true_iff, !Z.leb_le, !Z.ltb_lt. lia.
    + unfold covers. apply inRect_true. lia.
    + unfold covers. apply inRect_true. rewrite E. lia.
  - unfold Render. rewrite renderNode_leaves.
    rewrite (u32_small (width t * s)), (u32_small (height t * s)) by nia.
    destruct (drawAll_spec s (leaves (root t))
                (PNG.create blank (width t * s) (height t * s)))
      as (out & -> & Hw & Hh & Hpix); cbn [PNG.create PNG.width PNG.height];
      try lia.
    { apply Forall_forall. intros l Hl.
      destruct (Hleaf l Hl) as (A1 & A2 & A3 & A4).
      unfold blockOnCanvas. nia. }
    exists out. split; [reflexivity|]. cbn in Hw, Hh.
    split; [exact Hw|]. split; [exact Hh|]. intros X Y HX HY.
    rewrite Hpix. cbn [PNG.create PNG.imageData].
    destruct (painted_last s X Y (leaves (root t)) blank)
      as [(E & Hnone)|(l & Hl & B & E)].
    + right. split; [|exact E]. intros l Hl Hc.
      apply (inBlock_corner s l X Y ltac:(lia)) in Hc.
      rewrite (Hnone l Hl) in Hc. discriminate.
    + left. exists l. split; [exact Hl|]. split; [|exact E].
      apply (inBlock_corner s l X Y ltac:(lia)). exact B.
Qed.

(** ** Mirror image, upscaling, and how flip and rotation compose *)

(** X5 (QTree::FlipHorizontal, flipHorizontal, Render).
    FlipHorizontal mirrors the render of an unpruned tree across the
    vertical axis: at any scale, the canvas pixel [(X, Y)] after the flip is
    the canvas pixel [(width * scale - 1 - X, Y)] before; the size does not
    change. *)
Theorem X5_FlipHorizontal_mirrors blank distanceTo (t : QTree) (s : Z) :
  Reachable distanceTo false t ->
  1 <= s -> width t * s < 2 ^ 32 -> height t * s < 2 ^ 32 ->
  exists before after,
    Render blank t s = Some before /\
    Render blank (FlipHorizontal t) s = Some after /\
    PNG.width after = PNG.width before /\
    PNG.height after = PNG.height before /\
    forall X Y, 0 <= X < PNG.width after -> 0 <= Y < PNG.height after ->
      PNG.imageData after X Y
      = PNG.imageData before (PNG.width before - 1 - X) Y.
Proof.
  intros R Hs HWs HHs.
  destruct (Reachable_wellFormed _ _ _ R) as (HW & HH & HB).
  destruct (Reachable_unpruned _ _ _ R eq_refl) as (f & Hf).
  destruct (Render_PixelLeaves blank f t s Hf)
    as (before & Hr & Hw & Hh & Hpix); try lia.
  destruct (Render_PixelLeaves blank (fun x y => f (width t - 1 - x) y)
              (FlipHorizontal t) s)
    as (after & Hr' & Hw' & Hh' & Hpix'); unfold FlipHorizontal;
    cbn [width height root]; try lia.
  { apply PixelLeaves_flipHorizontal; [lia|exact Hf]. }
  unfold FlipHorizontal in Hw', Hh', Hpix'.
  cbn [width height root] in Hw', Hh', Hpix'.
  exists before, after. split; [exact Hr|]. split; [exact Hr'|].
  split; [lia|]. split; [lia|]. intros X Y HX HY.
  rewrite Hpix' by lia. rewrite Hpix by lia. rewrite Hw.
  rewrite div_mirror by lia. reflexivity.
Qed.

(** X6 (QTree::Render, renderNode, draw).
    Render at scale [s] of an unpruned tree is Render at scale 1 with every
    pixel repeated [s] times in both directions, without interpolation. *)
Theorem X6_Render_upscales_by_blocks blank distanceTo (t : QTree) (s : Z) :
  Reachable distanceTo false t ->
  1 <= s -> width t * s < 2 ^ 32 -> height t * s < 2 ^ 32 ->
  exists one scaled,
    Render blank t 1 = Some one /\
    Render blank t s = Some scaled /\
    PNG.width scaled = PNG.width one * s /\
    PNG.height scaled = PNG.height one * s /\
    forall X Y, 0 <= X < PNG.width scaled -> 0 <= Y < PNG.height scaled ->
      PNG.imageData scaled X Y = PNG.imageData one (X / s) (Y / s).
Proof.
  intros R Hs HWs HHs.
  destruct (Reachable_wellFormed _ _ _ R) as (HW & HH & HB).
  destruct (Reachable_unpruned _ _ _ R eq_refl) as (f & Hf).
  destruct (Render_PixelLeaves blank f t 1 Hf)
    as (one & Hr & Hw & Hh & Hpix); try lia.
  destruct (Render_PixelLeaves blank f t s Hf)
    as (scaled & Hr' & Hw' & Hh' & Hpix'); try lia.
  exists one, scaled. split; [exact Hr|]. split; [exact Hr'|].
  split; [lia|]. split; [lia|]. intros X Y HX HY.
  rewrite Hpix' by lia.
  assert (0 <= X / s < width t).
  { split; [apply Z.div_pos; lia|apply Z.div_lt_upper_bound; lia]. }
  assert (0 <= Y / s < height t).
  { split; [apply Z.div_pos; lia|apply Z.div_lt_upper_bound; lia]. }
  rewrite Hpix by lia. rewrite !Z.div_1_r. reflexivity.
Qed.

Lemma flip_rotate_twice W H nd :
  W <= 2 ^ 32 -> H <= 2 ^ 32 -> inBounds W H nd ->
  flipHorizontal W (rotateCCW H (flipHorizontal H (rotateCCW W nd))) = nd.
Proof.
  intros HW HH. induction nd as [|ul lr c NW IHNW NE IHNE SW IHSW SE IHSE].
  - reflexivity.
  - intros (Hx & Hy & B1 & B2 & B3 & B4).
    cbn [rotateCCW].
    rewrite (u32_small (W - fst lr - 1)), (u32_small (W - fst ul - 1)) by lia.
    rewrite flipHorizontal_node by (cbn [fst snd]; lia).
    cbn [rotateCCW fst snd].
    rewrite (u32_small (H - (H - 1 - snd ul) - 1)),
      (u32_small (H - (H - 1 - snd lr) - 1)) by lia.
    rewrite flipHorizontal_node by (cbn [fst snd]; lia).
    cbn [fst snd]. rewrite IHNW, IHNE, IHSW, IHSE by assumption.
    replace (W - 1 - (W - fst ul - 1)) with (fst ul) by lia.
    replace (W - 1 - (W - fst lr - 1)) with (fst lr) by lia.
    replace (H - (H - 1 - snd ul) - 1) with (snd ul) by lia.
    replace (H - (H - 1 - snd lr) - 1) with (snd lr) by lia.
    destruct ul, lr. reflexivity.
Qed.

(** X7 (QTree::FlipHorizontal, QTree::RotateCCW).
    A rotation followed by a flip is a reflection: doing both twice gives
    the tree back, on every tree that the operations produce.  (So one flip
    undoes a rotation, a flip and a rotation.) *)
Theorem X7_flip_after_rotate_is_involutive distanceTo (p : bool)
    (t : QTree) :
  Reachable distanceTo p t ->
  FlipHorizontal (RotateCCW (FlipHorizontal (RotateCCW t))) = t.
Proof.
  intros R. destruct (Reachable_wellFormed _ _ _ R) as (HW & HH & HB).
  rewrite !RotateCCW_unfold. unfold FlipHorizontal.
  cbn [root width height].
  rewrite (flip_rotate_twice (width t) (height t)) by (assumption || lia).
  destruct t; reflexivity.
Qed.

(** ** More on the averages *)

Lemma mul_between (lo c hi ar : Z) :
  lo <= c <= hi -> 0 <= ar -> lo * ar <= c * ar <= hi * ar.
Proof.
  intros Hc Ha. split; apply Z.mul_le_mono_nonneg_r; lia.
Qed.

Lemma div_between (lo hi S A : Z) :
  0 < A -> lo * A <= S <= hi * A -> lo <= S / A <= hi.
Proof.
  intros HA HS. split.
  - apply Z.div_le_lower_bound; lia.
  - apply Z.div_le_upper_bound; lia.
Qed.

Lemma scale_bounds (lo hi ar : Z) :
  0 <= lo -> hi <= 255 -> 0 <= ar -> 0 <= lo * ar /\ hi * ar <= 255 * ar.
Proof.
  intros Hl Hh Ha. split; [apply Z.mul_nonneg_nonneg; lia|].
  apply Z.mul_le_mono_nonneg_r; lia.
Qed.

Section Between.

Variable ch : RGBAPixel -> Z.
Variable img : PNG.t.
Variables lo hi : Z.

Hypothesis ch_averageOf :
  forall ul lr midX midY NW NE SW SE c,
    averageOf ul lr midX midY NW NE SW SE = Some c ->
    ch c = chanAverage ch ul lr midX midY NW NE SW SE.

Hypothesis ch_between :
  forall x y, 0 <= x < PNG.width img -> 0 <= y < PNG.height img ->
    lo <= ch (PNG.imageData img x y) <= hi.

Hypothesis lo_hi : 0 <= lo /\ hi <= 255.

Lemma Built_between ul lr n :
  Built img ul lr n ->
  0 <= fst ul <= fst lr -> fst lr < PNG.width img ->
  0 <= snd ul <= snd lr -> snd lr < PNG.height img ->
  255 * area ul lr < 2 ^ 32 ->
  allNodes (fun m => lo <= ch (avg m) <= hi) n.
Proof.
  induction 1 as [x0 y0
                 | x0 y1 y2 c nw sw Hy Bnw IHnw Bsw IHsw Hc
                 | x1 x2 y0 c nw ne Hx Bnw IHnw Bne IHne Hc
                 | x1 x2 y1 y2 c nw ne sw se Hx Hy Bnw IHnw Bne IHne
                     Bsw IHsw Bse IHse Hc];
    cbn [fst snd]; intros Hbx Hbx2 Hby Hby2 Harea.
  - cbn [allNodes avg]. repeat split; auto; apply ch_between; lia.
  - mid_facts. set (my := (y1 + y2) / 2) in *.
    unfold area in *. cbn [fst snd] in *.
    replace (x0 - x0 + 1) with 1 in * by lia.
    assert (Hnw : allNodes (fun m => lo <= ch (avg m) <= hi) nw)
      by (apply IHnw; lia).
    assert (Hsw : allNodes (fun m => lo <= ch (avg m) <= hi) sw)
      by (apply IHsw; lia).
    cbn [allNodes avg]. split; [|tauto].
    pose proof (allNodes_here _ _ (Built_nonnull _ _ _ _ Bnw) Hnw) as N.
    pose proof (allNodes_here _ _ (Built_nonnull _ _ _ _ Bsw) Hsw) as S.
    cbn beta in N, S.
    pose proof (mul_between _ _ _ (my - y1 + 1) N ltac:(lia)) as N'.
    pose proof (mul_between _ _ _ (y2 - (my + 1) + 1) S ltac:(lia)) as S'.
    pose proof (scale_bounds lo hi (my - y1 + 1) ltac:(lia) ltac:(lia)
                  ltac:(lia)) as K1.
    pose proof (scale_bounds lo hi (y2 - (my + 1) + 1) ltac:(lia) ltac:(lia)
                  ltac:(lia)) as K2.
    rewrite (ch_averageOf _ _ _ _ _ _ _ _ _ Hc).
    rewrite (chanAverage_exact ch (x0, y1) (x0, y2) x0 my nw nullptr sw nullptr)
      with (S := ch (avg nw) * (my - y1 + 1)
                 + ch (avg sw) * (y2 - (my + 1) + 1));
      unfold area; cbn [fst snd contrib];
      replace (x0 - x0 + 1) with 1 by lia; try lia.
    + apply div_between; lia.
    + rewrite !contrib_nonnull by (eapply Built_nonnull; eauto). lia.
    + apply Z.div_lt_upper_bound; lia.
  - mid_facts. set (mx := (x1 + x2) / 2) in *.
    unfold area in *. cbn [fst snd] in *.
    replace (y0 - y0 + 1) with 1 in * by lia.
    assert (Hnw : allNodes (fun m => lo <= ch (avg m) <= hi) nw)
      by (apply IHnw; lia).
    assert (Hne : allNodes (fun m => lo <= ch (avg m) <= hi) ne)
      by (apply IHne; lia).
    cbn [allNodes avg]. split; [|tauto].
    pose proof (allNodes_here _ _ (Built_nonnull _ _ _ _ Bnw) Hnw) as N.
    pose proof (allNodes_here _ _ (Built_nonnull _ _ _ _ Bne) Hne) as E.
    cbn beta in N, E.
    pose proof (mul_between _ _ _ (mx - x1 + 1) N ltac:(lia)) as N'.
    pose proof (mul_between _ _ _ (x2 - (mx + 1) + 1) E ltac:(lia)) as E'.
    pose proof (scale_bounds lo hi (mx - x1 + 1) ltac:(lia) ltac:(lia)
                  ltac:(lia)) as K1.
    pose proof (scale_bounds lo hi (x2 - (mx + 1) + 1) ltac:(lia) ltac:(lia)
                  ltac:(lia)) as K2.
    rewrite (ch_averageOf _ _ _ _ _ _ _ _ _ Hc).
    rewrite (chanAverage_exact ch (x1, y0) (x2, y0) mx y0 nw ne nullptr nullptr)
      with (S := ch (avg nw) * (mx - x1 + 1)
                 + ch (avg ne) * (x2 - (mx + 1) + 1));
      unfold area; cbn [fst snd contrib];
      replace (y0 - y0 + 1) with 1 by lia; try lia.
    + apply div_between; lia.
    + rewrite !contrib_nonnull by (eapply Built_nonnull; eauto). lia.
    + apply Z.div_lt_upper_bound; lia.
  - mid_facts. set (mx := (x1 + x2) / 2) in *. set (my := (y1 + y2) / 2) in *.
    unfold area in *. cbn [fst snd] in *.
    set (wl := mx - x1 + 1) in *. set (wr := x2 - (mx + 1) + 1) in *.
    set (ht := my - y1 + 1) in *. set (hb := y2 - (my + 1) + 1) in *.
    assert (Hwl : 1 <= wl) by (subst wl; lia).
    assert (Hwr : 1 <= wr) by (subst wr; lia).
    assert (Hht : 1 <= ht) by (subst ht; lia).
    assert (Hhb : 1 <= hb) by (subst hb; lia).
    assert (HA : (x2 - x1 + 1) * (y2 - y1 + 1) = (wl + wr) * (ht + hb))
      by (f_equal; subst wl wr ht hb; lia).
    rewrite HA in Harea.
    assert (P1 : 1 <= wl * ht) by (clear - Hwl Hht; nia).
    assert (P2 : 1 <= wr * ht) by (clear - Hwr Hht; nia).
    assert (P3 : 1 <= wl * hb) by (clear - Hwl Hhb; nia).
    assert (P4 : 1 <= wr * hb) by (clear - Hwr Hhb; nia).
    assert (HAs : (wl + wr) * (ht + hb) = wl * ht + wr * ht + wl * hb + wr * hb)
      by ring.
    assert (Hnw : allNodes (fun m => lo <= ch (avg m) <= hi) nw)
      by (apply IHnw; lia).
    assert (Hne : allNodes (fun m => lo <= ch (avg m) <= hi) ne)
      by (apply IHne; lia).
    assert (Hsw : allNodes (fun m => lo <= ch (avg m) <= hi) sw)
      by (apply IHsw; lia).
    assert (Hse : allNodes (fun m => lo <= ch (avg m) <= hi) se)
      by (apply IHse; lia).
    cbn [allNodes avg]. split; [|tauto].
    pose proof (allNodes_here _ _ (Built_nonnull _ _ _ _ Bnw) Hnw) as N.
    pose proof (allNodes_here _ _ (Built_nonnull _ _ _ _ Bne) Hne) as E.
    pose proof (allNodes_here _ _ (Built_nonnull _ _ _ _ Bsw) Hsw) as S.
    pose proof (allNodes_here _ _ (Built_nonnull _ _ _ _ Bse) Hse) as T.
    cbn beta in N, E, S, T.
    pose proof (mul_between _ _ _ (wl * ht) N ltac:(lia)) as N'.
    pose proof (mul_between _ _ _ (wr * ht) E ltac:(lia)) as E'.
    pose proof (mul_between _ _ _ (wl * hb) S ltac:(lia)) as S'.
    pose proof (mul_between _ _ _ (wr * hb) T ltac:(lia)) as T'.
    assert (Hlo : lo * ((wl + wr) * (ht + hb))
                  = lo * (wl * ht) + lo * (wr * ht) + lo * (wl * hb)
                    + lo * (wr * hb)) by ring.
    assert (Hhi : hi * ((wl + wr) * (ht + hb))
                  = hi * (wl * ht) + hi * (wr * ht) + hi * (wl * hb)
                    + hi * (wr * hb)) by ring.
    assert (H255 : 255 * (wl * ht) >= hi * (wl * ht)
                   /\ 255 * (wr * ht) >= hi * (wr * ht)
                   /\ 255 * (wl * hb) >= hi * (wl * hb)
                   /\ 255 * (wr * hb) >= hi * (wr * hb)).
    { repeat split; apply Z.le_ge; apply Z.mul_le_mono_nonneg_r; lia. }
    assert (Hlo0 : 0 <= lo * (wl * ht) /\ 0 <= lo * (wr * ht)
                   /\ 0 <= lo * (wl * hb) /\ 0 <= lo * (wr * hb)).
    { repeat split; apply Z.mul_nonneg_nonneg; lia. }
    rewrite (ch_averageOf _ _ _ _ _ _ _ _ _ Hc).
    rewrite (chanAverage_exact ch (x1, y1) (x2, y2) mx my nw ne sw se)
      with (S := ch (avg nw) * (wl * ht) + ch (avg ne) * (wr * ht)
                 + ch (avg sw) * (wl * hb) + ch (avg se) * (wr * hb));
      unfold area; cbn [fst snd]; fold wl wr ht hb; rewrite ?HA; try lia.
    + apply div_between; lia.
    + rewrite !contrib_nonnull by (eapply Built_nonnull; eauto). reflexivity.
    + apply Z.div_lt_upper_bound; lia.
Qed.

End Between.

(** X8 (QTree::BuildNode).
    On a raster whose sums do not wrap, the integer channel stored in any
    node lies between the smallest and the largest value of the channel in
    the raster; in particular every node of the tree of a one-colour raster
    has that colour in its integer channels. *)
Theorem X8_average_between_extremes (img : PNG.t) (ch : RGBAPixel -> Z)
    (lo hi : Z) :
  ch = r \/ ch = g \/ ch = b ->
  PNG_ok img -> 255 * (PNG.width img * PNG.height img) < 2 ^ 32 ->
  0 <= lo -> hi <= 255 ->
  (forall x y, 0 <= x < PNG.width img -> 0 <= y < PNG.height img ->
     lo <= ch (PNG.imageData img x y) <= hi) ->
  exists t,
    QTree_of_PNG img = Some t /\
    allNodes (fun m => lo <= ch (avg m) <= hi) (root t).
Proof.
  intros Hch Hok Hsmall Hlo Hhi Hpix. pose proof Hok as (HW & HH & _).
  destruct (QTree_of_PNG_returns img Hok) as (rt & Hb & B).
  exists (mkQTree rt (PNG.height img) (PNG.width img)).
  split; [exact Hb|]. cbn [root].
  apply (Built_between ch img lo hi) with (ul := (0, 0))
    (lr := (PNG.width img - 1, PNG.height img - 1)); cbn [fst snd];
    auto; try lia.
  - intros ul lr midX midY NW NE SW SE c Hc.
    destruct (averageOf_rgb _ _ _ _ _ _ _ _ _ Hc) as (Er & Eg & Eb).
    destruct Hch as [-> | [-> | ->]]; assumption.
  - unfold area. cbn [fst snd].
    replace (PNG.width img - 1 - 0 + 1) with (PNG.width img) by lia.
    replace (PNG.height img - 1 - 0 + 1) with (PNG.height img) by lia.
    exact Hsmall.
Qed.

(** ** The size of a built tree *)

Lemma Built_CountNodes img ul lr n :
  Built img ul lr n ->
  (CountLeaves n <= CountNodes n /\ CountNodes n + 1 <= 2 * CountLeaves n)%nat.
Proof.
  induction 1 as [x0 y0
                 | x0 y1 y2 c nw sw Hy Bnw IHnw Bsw IHsw Hc
                 | x1 x2 y0 c nw ne Hx Bnw IHnw Bne IHne Hc
                 | x1 x2 y1 y2 c nw ne sw se Hx Hy Bnw IHnw Bne IHne
                     Bsw IHsw Bse IHse Hc].
  - cbn. lia.
  - rewrite CountLeaves_internal by (eapply Built_nonnull; eauto).
    cbn [CountNodes CountLeaves]. lia.
  - rewrite CountLeaves_internal by (eapply Built_nonnull; eauto).
    cbn [CountNodes CountLeaves]. lia.
  - rewrite CountLeaves_internal by (eapply Built_nonnull; eauto).
    cbn [CountNodes]. lia.
Qed.

(** X9 (QTree::QTree, BuildNode).
    The tree built from a raster of [width * height] pixels has at least
    that many nodes and fewer than twice as many: every internal node has
    at least two children. *)
Theorem X9_Build_node_count (img : PNG.t) :
  PNG_ok img ->
  exists t,
    QTree_of_PNG img = Some t /\
    PNG.width img * PNG.height img <= Z.of_nat (CountNodes (root t))
    <= 2 * (PNG.width img * PNG.height img) - 1.
Proof.
  intros Hok. pose proof Hok as (HW & HH & _).
  destruct (QTree_of_PNG_returns img Hok) as (rt & Hb & B).
  exists (mkQTree rt (PNG.height img) (PNG.width img)).
  split; [exact Hb|]. cbn [root].
  pose proof (Built_CountLeaves _ _ _ _ B ltac:(cbn; lia) ltac:(cbn; lia))
    as HL.
  unfold area in HL. cbn [fst snd] in HL.
  replace (PNG.width img - 1 - 0 + 1) with (PNG.width img) in HL by lia.
  replace (PNG.height img - 1 - 0 + 1) with (PNG.height img) in HL by lia.
  destruct (Built_CountNodes _ _ _ _ B) as (H1 & H2). lia.
Qed.

(** ** A raster without pixels *)

Lemma BuildNode_empty (img : PNG.t) :
  PNG.width img = 0 \/ PNG.height img = 0 ->
  forall fuel ul lr, BuildNode fuel img ul lr = None.
Proof.
  intros Hempty. induction fuel as [|fuel IH]; intros ul lr; [reflexivity|].
  cbn [BuildNode]. destruct (pair_eqb ul lr).
  - unfold PNG.getPixel, PNG.inside.
    replace ((0 <=? fst ul) && (fst ul <? PNG.width img) && (0 <=? snd ul)
             && (snd ul <? PNG.height img)) with false; [reflexivity|].
    symmetry. apply not_true_is_false.
    rewrite !andb_true_iff, !Z.leb_le, !Z.ltb_lt. lia.
  - rewrite IH. reflexivity.
Qed.

(** X10 (QTree::QTree, BuildNode).
    The constructor has no defined result on a raster of width 0 or height
    0: the lower right corner wraps to 4294967295, and whatever the depth of
    the recursion allowed, the first branch of BuildNode ends on a pixel
    read out of the raster. *)
Theorem X10_Build_of_empty_raster (img : PNG.t) :
  PNG.width img = 0 \/ PNG.height img = 0 ->
  (PNG.width img = 0 -> u32 (PNG.width img - 1) = 4294967295) /\
  (forall fuel ul lr, BuildNode fuel img ul lr = None) /\
  QTree_of_PNG img = None.
Proof.
  intros Hempty. split; [intros ->; reflexivity|].
  split; [apply BuildNode_empty; exact Hempty|].
  unfold QTree_of_PNG. rewrite BuildNode_empty by exact Hempty. reflexivity.
Qed.

(** ** What Prune guarantees about colours *)

Lemma leavesUnderTol_leaves distanceTo tol c nd :
  leavesUnderTol distanceTo nd tol c
  = forallb (fun l => PrimFloat.leb (distanceTo (avg l) c) tol) (leaves nd).
Proof.
  induction nd as [|ul lr c0 NW IHNW NE IHNE SW IHSW SE IHSE];
    [reflexivity|].
  cbn [leavesUnderTol leaves]. destruct (noChildren NW NE SW SE).
  - cbn [forallb avg]. rewrite andb_true_r. reflexivity.
  - rewrite !forallb_app, IHNW, IHNE, IHSW, IHSE, !andb_assoc. reflexivity.
Qed.

(** When the test of Prune passes on a built node, every pixel of its
    rectangle is within the tolerance of the colour tested. *)
Lemma Built_within distanceTo tol c img ul lr n :
  Built img ul lr n ->
  leavesUnderTol distanceTo n tol c = true ->
  forall x y, inRect ul lr x y = true ->
    PrimFloat.leb (distanceTo (PNG.imageData img x y) c) tol = true.
Proof.
  intros B Hall x y Hin. rewrite leavesUnderTol_leaves in Hall.
  rewrite forallb_forall in Hall.
  apply (Hall _ (Built_leaf_at _ _ _ _ B x y Hin)).
Qed.

Lemma leaves_pruneSt_node distanceTo tol ul lr c NW NE SW SE l :
  noChildren NW NE SW SE = false ->
  In l (leaves (pruneSt distanceTo (mkNode ul lr c NW NE SW SE) tol)) ->
  (leavesUnderTol distanceTo (mkNode ul lr c NW NE SW SE) tol c = true /\
   l = mkNode ul lr c nullptr nullptr nullptr nullptr) \/
  In l (leaves (pruneSt distanceTo NW tol)) \/
  In l (leaves (pruneSt distanceTo NE tol)) \/
  In l (leaves (pruneSt distanceTo SW tol)) \/
  In l (leaves (pruneSt distanceTo SE tol)).
Proof.
  intros En Hl. cbn [pruneSt] in Hl. rewrite En in Hl.
  destruct (leavesUnderTol distanceTo (mkNode ul lr c NW NE SW SE) tol c).
  - cbn in Hl. destruct Hl as [<-|[]]. left. auto.
  - cbn [leaves] in Hl. rewrite noChildren_pruneSt, En in Hl.
    rewrite !in_app_iff in Hl. right. exact Hl.
Qed.

Lemma noChildren_internal NW NE SW SE :
  isNull NW = false -> noChildren NW NE SW SE = false.
Proof. intros H. unfold noChildren. rewrite H. reflexivity. Qed.

Lemma Built_pruned_leaves distanceTo tol img ul lr n :
  Built img ul lr n ->
  forall l, In l (leaves (pruneSt distanceTo n tol)) ->
  forall x y, covers x y l = true ->
    l = leaf x y (PNG.imageData img x y) \/
    PrimFloat.leb (distanceTo (PNG.imageData img x y) (avg l)) tol = true.
Proof.
  induction 1 as [x0 y0
                 | x0 y1 y2 c nw sw Hy Bnw IHnw Bsw IHsw Hc
                 | x1 x2 y0 c nw ne Hx Bnw IHnw Bne IHne Hc
                 | x1 x2 y1 y2 c nw ne sw se Hx Hy Bnw IHnw Bne IHne
                     Bsw IHsw Bse IHse Hc]; intros l Hl x y Hcov.
  - cbn in Hl. destruct Hl as [<-|[]]. left.
    unfold covers in Hcov. apply inRect_true in Hcov.
    cbn [upLeft lowRight fst snd] in Hcov.
    replace x with x0 by lia. replace y with y0 by lia. reflexivity.
  - apply leaves_pruneSt_node in Hl;
      [|apply noChildren_internal; eapply Built_nonnull; eauto].
    destruct Hl as [(Hall & ->)|[Hl|[Hl|[Hl|Hl]]]]; eauto; try (destruct Hl).
    right. cbn [avg]. unfold covers in Hcov. cbn [upLeft lowRight] in Hcov.
    eapply Built_within; [|exact Hall|exact Hcov].
    eapply Built_column; eauto.
  - apply leaves_pruneSt_node in Hl;
      [|apply noChildren_internal; eapply Built_nonnull; eauto].
    destruct Hl as [(Hall & ->)|[Hl|[Hl|[Hl|Hl]]]]; eauto; try (destruct Hl).
    right. cbn [avg]. unfold covers in Hcov. cbn [upLeft lowRight] in Hcov.
    eapply Built_within; [|exact Hall|exact Hcov].
    eapply Built_row; eauto.
  - apply leaves_pruneSt_node in Hl;
      [|apply noChildren_internal; eapply Built_nonnull; eauto].
    destruct Hl as [(Hall & ->)|[Hl|[Hl|[Hl|Hl]]]]; eauto.
    right. cbn [avg]. unfold covers in Hcov. cbn [upLeft lowRight] in Hcov.
    eapply Built_within; [|exact Hall|exact Hcov].
    eapply Built_quad; eauto.
Qed.

(** X11 (QTree::Prune, pruneSt, leavesUnderTol).
    After Prune on a freshly built tree, every leaf either is an untouched
    single pixel with the colour of the raster, or is a collapsed rectangle
    whose colour is within the tolerance of every source pixel it covers
    (distance taken from the pixel to the colour of the leaf, as
    leavesUnderTol does). *)
Theorem X11_Prune_keeps_colours_within_tolerance distanceTo (img : PNG.t)
    (tolerance : float) :
  PNG_ok img ->
  exists t,
    QTree_of_PNG img = Some t /\
    forall l, In l (leaves (root (Prune distanceTo t tolerance))) ->
    forall x y, covers x y l = true ->
      l = leaf x y (PNG.imageData img x y) \/
      PrimFloat.leb (distanceTo (PNG.imageData img x y) (avg l)) tolerance
      = true.
Proof.
  intros Hok. destruct (QTree_of_PNG_returns img Hok) as (rt & Hb & B).
  exists (mkQTree rt (PNG.height img) (PNG.width img)).
  split; [exact Hb|]. unfold Prune. cbn [root].
  apply (Built_pruned_leaves distanceTo tolerance img _ _ _ B).
Qed.

(** ** Copies and deletion in memory *)

Lemma update_same f a v : Mem.update f a v a = v.
Proof. unfold Mem.update. rewrite Nat.eqb_refl. reflexivity. Qed.

Lemma update_other f a v a' : a' <> a -> Mem.update f a v a' = f a'.
Proof.
  intros H. unfold Mem.update. apply Nat.eqb_neq in H. rewrite H. reflexivity.
Qed.

Lemma Stored_frame h h' p t F :
  Stored h p t F ->
  (forall a, In a F -> Mem.cells h' a = Mem.cells h a) ->
  Stored h' p t F.
Proof.
  induction 1 as [|a ul lr c pnw pne psw pse tnw tne tsw tse F1 F2 F3 F4
                    Hc S1 IH1 S2 IH2 S3 IH3 S4 IH4]; intros Hsame.
  - constructor.
  - eapply Stored_node.
    + rewrite Hsame; [exact Hc|left; reflexivity].
    + apply IH1. intros x Hx. apply Hsame. right. rewrite !in_app_iff. auto.
    + apply IH2. intros x Hx. apply Hsame. right. rewrite !in_app_iff. auto.
    + apply IH3. intros x Hx. apply Hsame. right. rewrite !in_app_iff. auto.
    + apply IH4. intros x Hx. apply Hsame. right. rewrite !in_app_iff. auto.
Qed.

Lemma Stored_allocated h p t F :
  Stored h p t F -> forall a, In a F -> Mem.cells h a <> None.
Proof.
  induction 1 as [|a ul lr c pnw pne psw pse tnw tne tsw tse F1 F2 F3 F4
                    Hc S1 IH1 S2 IH2 S3 IH3 S4 IH4]; intros x Hx.
  - destruct Hx.
  - destruct Hx as [<-|Hx]; [congruence|].
    rewrite !in_app_iff in Hx. destruct Hx as [Hx|[Hx|[Hx|Hx]]]; auto.
Qed.

Lemma Stored_below h p t F :
  heapOk h -> Stored h p t F -> forall a, In a F -> (a < Mem.next h)%nat.
Proof.
  intros Hok HS a Ha. pose proof (Stored_allocated _ _ _ _ HS a Ha) as Hal.
  destruct (Nat.lt_ge_cases a (Mem.next h)) as [Hlt|Hge]; [exact Hlt|].
  exfalso. apply Hal. apply Hok. exact Hge.
Qed.

Lemma copy_child_spec fuel tc get set h src dst csrc cdst Fc :
  copySpec fuel tc ->
  heapOk h ->
  Mem.cells h src = Some csrc -> Mem.cells h dst = Some cdst ->
  Stored h (get csrc) tc Fc ->
  exists h' p' F',
    Mem.copy_child (Mem.copy fuel) get set h src dst = Some h' /\
    Mem.cells h' dst = Some (set cdst p') /\
    Stored h' p' tc F' /\ NoDup F' /\
    (forall a, In a F' -> (Mem.next h <= a < Mem.next h')%nat) /\
    (forall a, (a < Mem.next h)%nat -> a <> dst ->
       Mem.cells h' a = Mem.cells h a) /\
    heapOk h' /\ (Mem.next h <= Mem.next h')%nat.
Proof.
  intros Hspec Hok Hsrc Hdst HS.
  destruct (Hspec h (get csrc) Fc Hok HS)
    as (h1 & p' & F' & Hcopy & HS' & Hnd & Hfresh & Hold & Hok1 & Hle).
  assert (Hdlt : (dst < Mem.next h)%nat).
  { destruct (Nat.lt_ge_cases dst (Mem.next h)) as [Hlt|Hge]; [exact Hlt|].
    rewrite (Hok dst Hge) in Hdst. discriminate. }
  unfold Mem.copy_child, Mem.load. rewrite Hsrc. cbn [obind].
  rewrite Hcopy. cbn [obind fst snd].
  rewrite (Hold dst Hdlt), Hdst. cbn [obind].
  unfold Mem.store. rewrite (Hold dst Hdlt), Hdst.
  eexists. exists p', F'. split; [reflexivity|]. cbn [Mem.cells Mem.next].
  split; [apply update_same|].
  split.
  { apply (Stored_frame h1); [exact HS'|]. intros a Ha. cbn [Mem.cells].
    apply update_other. specialize (Hfresh a Ha). lia. }
  split; [exact Hnd|]. split; [exact Hfresh|].
  split.
  { intros a Ha Hne. rewrite update_other by exact Hne. apply Hold. exact Ha. }
  split; [|exact Hle].
  intros a Ha. cbn [Mem.cells Mem.next] in *.
  rewrite update_other by lia. apply Hok1. exact Ha.
Qed.

Lemma Stored_older h h' p t F :
  heapOk h -> Stored h p t F ->
  (forall x, (x < Mem.next h)%nat -> Mem.cells h' x = Mem.cells h x) ->
  Stored h' p t F.
Proof.
  intros Hok HS Hsame. apply (Stored_frame h); [exact HS|].
  intros a Ha. apply Hsame. apply (Stored_below h p t F Hok HS a Ha).
Qed.

Lemma copy_spec t : forall fuel, (depth t < fuel)%nat -> copySpec fuel t.
Proof.
  induction t as [|ul lr c tnw IH1 tne IH2 tsw IH3 tse IH4];
    intros fuel Hf h p F Hok HS.
  - inversion HS; subst. destruct fuel as [|f]; [cbn in Hf; lia|].
    exists h, None, []. cbn [Mem.copy].
    split; [reflexivity|]. split; [constructor|]. split; [constructor|].
    split; [intros a []|]. split; [reflexivity|]. split; [exact Hok|lia].
  - destruct fuel as [|f]; [lia|]. cbn [depth] in Hf.
    inversion HS as [|a ul' lr' c' pnw pne psw pse tnw' tne' tsw' tse'
                       F1 F2 F3 F4 Hc S1 S2 S3 S4]; subst.
    set (p0 := Mem.next h).
    set (fresh := Mem.mkCell ul lr c None None None None).
    set (h0 := Mem.mkHeap (Mem.update (Mem.cells h) p0 (Some fresh)) (S p0)).
    assert (Ha : (a < p0)%nat)
      by (apply (Stored_below h _ _ _ Hok HS); left; reflexivity).
    assert (Hok0 : heapOk h0).
    { intros x Hx. cbn [h0 Mem.cells Mem.next] in *.
      rewrite update_other by lia. apply Hok. fold p0. lia. }
    assert (B0 : forall x, (x < p0)%nat -> Mem.cells h0 x = Mem.cells h x).
    { intros x Hx. cbn [h0 Mem.cells]. apply update_other. lia. }
    assert (A0 : Mem.cells h0 a = Some (Mem.mkCell ul lr c pnw pne psw pse))
      by (rewrite B0 by exact Ha; exact Hc).
    assert (D0 : Mem.cells h0 p0 = Some fresh)
      by (cbn [h0 Mem.cells]; apply update_same).
    assert (N0 : Mem.next h0 = S p0) by reflexivity.
    (* NW *)
    assert (T1 : Stored h0 pnw tnw F1) by (apply (Stored_older h); assumption).
    destruct (copy_child_spec f tnw Mem.NW Mem.set_NW h0 a p0 _ _ F1
                (IH1 f ltac:(lia)) Hok0 A0 D0 T1)
      as (h1 & nw & G1 & E1 & D1 & U1 & V1 & R1 & B1 & Hok1 & L1).
    assert (A1 : Mem.cells h1 a = Some (Mem.mkCell ul lr c pnw pne psw pse))
      by (rewrite B1 by lia; exact A0).
    (* NE *)
    assert (T2 : Stored h1 pne tne F2).
    { apply (Stored_older h); [assumption|assumption|].
      intros x Hx. fold p0 in Hx. rewrite B1 by lia. apply B0. exact Hx. }
    destruct (copy_child_spec f tne Mem.NE Mem.set_NE h1 a p0 _ _ F2
                (IH2 f ltac:(lia)) Hok1 A1 D1 T2)
      as (h2 & ne & G2 & E2 & D2 & U2 & V2 & R2 & B2 & Hok2 & L2).
    assert (A2 : Mem.cells h2 a = Some (Mem.mkCell ul lr c pnw pne psw pse))
      by (rewrite B2 by lia; exact A1).
    (* SW *)
    assert (T3 : Stored h2 psw tsw F3).
    { apply (Stored_older h); [assumption|assumption|].
      intros x Hx. fold p0 in Hx. rewrite B2, B1 by lia. apply B0. exact Hx. }
    destruct (copy_child_spec f tsw Mem.SW Mem.set_SW h2 a p0 _ _ F3
                (IH3 f ltac:(lia)) Hok2 A2 D2 T3)
      as (h3 & sw & G3 & E3 & D3 & U3 & V3 & R3 & B3 & Hok3 & L3).
    assert (A3 : Mem.cells h3 a = Some (Mem.mkCell ul lr c pnw pne psw pse))
      by (rewrite B3 by lia; exact A2).
    (* SE *)
    assert (T4 : Stored h3 pse tse F4).
    { apply (Stored_older h); [assumption|assumption|].
      intros x Hx. fold p0 in Hx. rewrite B3, B2, B1 by lia. apply B0.
      exact Hx. }
    destruct (copy_child_spec f tse Mem.SE Mem.set_SE h3 a p0 _ _ F4
                (IH4 f ltac:(lia)) Hok3 A3 D3 T4)
      as (h4 & se & G4 & E4 & D4 & U4 & V4 & R4 & B4 & Hok4 & L4).
    exists h4, (Some p0), (p0 :: G1 ++ G2 ++ G3 ++ G4).
    split.
    { cbn [Mem.copy]. unfold Mem.load at 1. rewrite Hc.
      cbn [obind Mem.upLeft Mem.lowRight Mem.avg]. unfold Mem.new_Node.
      fold p0. fold fresh. fold h0.
      rewrite E1. cbn [obind]. rewrite E2. cbn [obind].
      rewrite E3. cbn [obind]. rewrite E4. reflexivity. }
    split.
    { eapply Stored_node.
      - exact D4.
      - apply (Stored_frame h1); [exact U1|]. intros x Hx.
        specialize (R1 x Hx). rewrite B4, B3, B2 by lia. reflexivity.
      - apply (Stored_frame h2); [exact U2|]. intros x Hx.
        specialize (R2 x Hx). rewrite B4, B3 by lia. reflexivity.
      - apply (Stored_frame h3); [exact U3|]. intros x Hx.
        specialize (R3 x Hx). rewrite B4 by lia. reflexivity.
      - exact U4. }
    split.
    { constructor.
      - rewrite !in_app_iff. intros [Hx|[Hx|[Hx|Hx]]].
        + specialize (R1 _ Hx). lia.
        + specialize (R2 _ Hx). lia.
        + specialize (R3 _ Hx). lia.
        + specialize (R4 _ Hx). lia.
      - apply NoDup_app; [exact V1| |].
        + apply NoDup_app; [exact V2| |].
          * apply NoDup_app; [exact V3|exact V4|].
            intros x H3 H4. specialize (R3 _ H3). specialize (R4 _ H4). lia.
          * intros x H2. rewrite in_app_iff. intros [H3|H4].
            -- specialize (R2 _ H2). specialize (R3 _ H3). lia.
            -- specialize (R2 _ H2). specialize (R4 _ H4). lia.
        + intros x H1. rewrite !in_app_iff. intros [H2|[H3|H4]].
          * specialize (R1 _ H1). specialize (R2 _ H2). lia.
          * specialize (R1 _ H1). specialize (R3 _ H3). lia.
          * specialize (R1 _ H1). specialize (R4 _ H4). lia. }
    split.
    { intros x [<-|Hx]; [fold p0; lia|]. fold p0.
      rewrite !in_app_iff in Hx. destruct Hx as [Hx|[Hx|[Hx|Hx]]].
      - specialize (R1 _ Hx). lia.
      - specialize (R2 _ Hx). lia.
      - specialize (R3 _ Hx). lia.
      - specialize (R4 _ Hx). lia. }
    split.
    { intros x Hx. fold p0 in Hx. rewrite B4, B3, B2, B1 by lia.
      apply B0. exact Hx. }
    split; [exact Hok4|]. fold p0. lia.
Qed.

Lemma NoDup_app_inv (l1 l2 : list nat) :
  NoDup (l1 ++ l2) ->
  NoDup l1 /\ NoDup l2 /\ (forall a, In a l1 -> ~ In a l2).
Proof.
  induction l1 as [|x l1 IH]; cbn [app]; intros H.
  - split; [constructor|]. split; [exact H|]. intros a [].
  - inversion H as [|x' l' Hx Hnd]; subst.
    destruct (IH Hnd) as (N1 & N2 & D).
    split.
    { constructor; [|exact N1]. intros Hin. apply Hx. apply in_or_app.
      left. exact Hin. }
    split; [exact N2|].
    intros a [<-|Ha] H2.
    + apply Hx. apply in_or_app. right. exact H2.
    + exact (D a Ha H2).
Qed.

Lemma clear_child_spec fuel tc get h a ca Fc :
  clearSpec fuel tc ->
  Mem.cells h a = Some ca ->
  Stored h (get ca) tc Fc -> NoDup Fc ->
  exists h',
    Mem.on_child (Mem.clear fuel) get h a = Some h' /\
    (forall x, In x Fc -> Mem.cells h' x = None) /\
    (forall x, ~ In x Fc -> Mem.cells h' x = Mem.cells h x) /\
    Mem.next h' = Mem.next h.
Proof.
  intros Hspec Ha HS Hnd. unfold Mem.on_child, Mem.load. rewrite Ha.
  cbn [obind]. apply (Hspec h (get ca) Fc HS Hnd).
Qed.

Lemma footprint_split (a : nat) (F1 F2 F3 F4 : list nat) :
  NoDup (a :: F1 ++ F2 ++ F3 ++ F4) ->
  (NoDup F1 /\ NoDup F2 /\ NoDup F3 /\ NoDup F4) /\
  (~ In a F1 /\ ~ In a F2 /\ ~ In a F3 /\ ~ In a F4) /\
  (forall x, In x F1 -> ~ In x F2 /\ ~ In x F3 /\ ~ In x F4) /\
  (forall x, In x F2 -> ~ In x F3 /\ ~ In x F4) /\
  (forall x, In x F3 -> ~ In x F4).
Proof.
  intros H. inversion H as [|a' l' Ha Hnd]; subst.
  destruct (NoDup_app_inv _ _ Hnd) as (N1 & Hnd2 & D1).
  destruct (NoDup_app_inv _ _ Hnd2) as (N2 & Hnd3 & D2).
  destruct (NoDup_app_inv _ _ Hnd3) as (N3 & N4 & D3).
  rewrite !in_app_iff in Ha.
  split; [tauto|]. split; [tauto|].
  split.
  { intros x Hx. specialize (D1 x Hx). rewrite !in_app_iff in D1. tauto. }
  split.
  { intros x Hx. specialize (D2 x Hx). rewrite !in_app_iff in D2. tauto. }
  exact D3.
Qed.

Lemma clear_spec t : forall fuel, (depth t < fuel)%nat -> clearSpec fuel t.
Proof.
  induction t as [|ul lr c tnw IH1 tne IH2 tsw IH3 tse IH4];
    intros fuel Hf h p F HS Hnd.
  - inversion HS; subst. destruct fuel as [|f]; [cbn in Hf; lia|].
    exists h. cbn [Mem.clear]. split; [reflexivity|].
    split; [intros a []|]. split; reflexivity.
  - destruct fuel as [|f]; [lia|]. cbn [depth] in Hf.
    inversion HS as [|a ul' lr' c' pnw pne psw pse tnw' tne' tsw' tse'
                       F1 F2 F3 F4 Hc S1 S2 S3 S4]; subst.
    destruct (footprint_split _ _ _ _ _ Hnd)
      as ((N1 & N2 & N3 & N4) & (Na1 & Na2 & Na3 & Na4) & D1 & D2 & D3).
    (* NW *)
    destruct (clear_child_spec f tnw Mem.NW h a _ F1
                (IH1 f ltac:(lia)) Hc S1 N1) as (h1 & E1 & K1 & J1 & X1).
    assert (A1 : Mem.cells h1 a = Some (Mem.mkCell ul lr c pnw pne psw pse))
      by (rewrite J1 by exact Na1; exact Hc).
    (* NE *)
    assert (T2 : Stored h1 pne tne F2).
    { apply (Stored_frame h); [exact S2|]. intros x Hx. apply J1.
      intros H1. pose proof (D1 x H1). tauto. }
    destruct (clear_child_spec f tne Mem.NE h1 a _ F2
                (IH2 f ltac:(lia)) A1 T2 N2) as (h2 & E2 & K2 & J2 & X2).
    assert (A2 : Mem.cells h2 a = Some (Mem.mkCell ul lr c pnw pne psw pse))
      by (rewrite J2 by exact Na2; exact A1).
    (* SW *)
    assert (T3 : Stored h2 psw tsw F3).
    { apply (Stored_frame h); [exact S3|]. intros x Hx.
      rewrite J2 by (intros H2; pose proof (D2 x H2); tauto).
      apply J1. intros H1. pose proof (D1 x H1). tauto. }
    destruct (clear_child_spec f tsw Mem.SW h2 a _ F3
                (IH3 f ltac:(lia)) A2 T3 N3) as (h3 & E3 & K3 & J3 & X3).
    assert (A3 : Mem.cells h3 a = Some (Mem.mkCell ul lr c pnw pne psw pse))
      by (rewrite J3 by exact Na3; exact A2).
    (* SE *)
    assert (T4 : Stored h3 pse tse F4).
    { apply (Stored_frame h); [exact S4|]. intros x Hx.
      rewrite J3 by (intros H3; pose proof (D3 x H3); tauto).
      rewrite J2 by (intros H2; pose proof (D2 x H2); tauto).
      apply J1. intros H1. pose proof (D1 x H1). tauto. }
    destruct (clear_child_spec f tse Mem.SE h3 a _ F4
                (IH4 f ltac:(lia)) A3 T4 N4) as (h4 & E4 & K4 & J4 & X4).
    assert (A4 : Mem.cells h4 a = Some (Mem.mkCell ul lr c pnw pne psw pse))
      by (rewrite J4 by exact Na4; exact A3).
    eexists. split.
    { cbn [Mem.clear]. rewrite E1. cbn [obind]. rewrite E2. cbn [obind].
      rewrite E3. cbn [obind]. rewrite E4. cbn [obind].
      unfold Mem.delete. rewrite A4. reflexivity. }
    cbn [Mem.cells Mem.next].
    split.
    { intros x Hx. destruct (Nat.eq_dec x a) as [->|Hne];
        [apply update_same|]. rewrite update_other by exact Hne.
      destruct Hx as [Hx|Hx]; [congruence|].
      destruct (in_dec Nat.eq_dec x F4) as [H4|H4]; [exact (K4 x H4)|].
      rewrite J4 by exact H4.
      destruct (in_dec Nat.eq_dec x F3) as [H3|H3]; [exact (K3 x H3)|].
      rewrite J3 by exact H3.
      destruct (in_dec Nat.eq_dec x F2) as [H2|H2]; [exact (K2 x H2)|].
      rewrite J2 by exact H2.
      destruct (in_dec Nat.eq_dec x F1) as [H1|H1]; [exact (K1 x H1)|].
      exfalso. rewrite !in_app_iff in Hx. tauto. }
    split.
    { intros x Hx. cbn [In] in Hx. rewrite !in_app_iff in Hx.
      rewrite update_other by (intros ->; tauto).
      rewrite J4, J3, J2, J1 by tauto. reflexivity. }
    congruence.
Qed.

Lemma Stored_top h p t F :
  Stored h p t F -> forall b, p = Some b -> In b F.
Proof.
  intros HS b E. destruct HS; [discriminate|]. injection E as <-.
  left. reflexivity.
Qed.

Lemma ptr_dec (p : Mem.Ptr) (x : nat) : {p = Some x} + {p <> Some x}.
Proof.
  destruct p as [b|]; [|right; discriminate].
  destruct (Nat.eq_dec b x) as [->|Hne]; [left; reflexivity|].
  right. intros E. injection E as E. exact (Hne E).
Qed.

Lemma clearSt_child_spec fuel tc get h a ca Fc :
  clearStSpec fuel tc ->
  Mem.cells h a = Some ca ->
  Stored h (get ca) tc Fc -> NoDup Fc ->
  exists h',
    Mem.on_child (Mem.clearSt fuel) get h a = Some h' /\
    (forall b, get ca = Some b -> In b Fc /\ Mem.cells h' b <> None) /\
    (forall x, In x Fc -> get ca <> Some x -> Mem.cells h' x = None) /\
    (forall x, ~ In x Fc -> Mem.cells h' x = Mem.cells h x) /\
    Mem.next h' = Mem.next h.
Proof.
  intros Hspec Ha HS Hnd. unfold Mem.on_child, Mem.load. rewrite Ha.
  cbn [obind].
  destruct (Hspec h (get ca) Fc HS Hnd) as (h' & E & U & K & J & X).
  exists h'. split; [exact E|]. split; [|auto].
  intros b Eb. split; [exact (Stored_top _ _ _ _ HS b Eb)|].
  apply (Stored_allocated _ _ _ _ U). rewrite Eb. left. reflexivity.
Qed.

Lemma delete_child_spec get h a ca :
  Mem.cells h a = Some ca ->
  (forall b, get ca = Some b -> Mem.cells h b <> None) ->
  exists h',
    Mem.delete_child get h a = Some h' /\
    (forall b, get ca = Some b -> Mem.cells h' b = None) /\
    (forall x, get ca <> Some x -> Mem.cells h' x = Mem.cells h x) /\
    (forall x, Mem.cells h x = None -> Mem.cells h' x = None) /\
    Mem.next h' = Mem.next h.
Proof.
  intros Ha Hal. unfold Mem.delete_child, Mem.load. rewrite Ha. cbn [obind].
  destruct (get ca) as [b|] eqn:Eg; cbn [Mem.delete].
  - specialize (Hal b eq_refl).
    destruct (Mem.cells h b) as [cb|] eqn:Eb; [|congruence].
    eexists. split; [reflexivity|]. cbn [Mem.cells Mem.next].
    split.
    { intros b' E. injection E as <-. apply update_same. }
    split.
    { intros x Hx. apply update_other. intros ->. apply Hx. reflexivity. }
    split; [|reflexivity].
    intros x Hx. destruct (Nat.eq_dec x b) as [->|Hne];
      [apply update_same|]. rewrite update_other by exact Hne. exact Hx.
  - exists h. split; [reflexivity|]. split; [intros b E; discriminate|].
    auto.
Qed.

Lemma reset_child_spec set h a ca :
  Mem.cells h a = Some ca ->
  exists h',
    Mem.reset_child set h a = Some h' /\
    Mem.cells h' a = Some (set ca None) /\
    (forall x, x <> a -> Mem.cells h' x = Mem.cells h x) /\
    Mem.next h' = Mem.next h.
Proof.
  intros Ha. unfold Mem.reset_child, Mem.load, Mem.store. rewrite Ha.
  cbn [obind]. eexists. split; [reflexivity|].
  cbn [Mem.cells Mem.next]. split; [apply update_same|].
  split; [|reflexivity]. intros x Hx. apply update_other. exact Hx.
Qed.

Lemma clearSt_spec t : forall fuel, (depth t < fuel)%nat -> clearStSpec fuel t.
Proof.
  induction t as [|ul lr c tnw IH1 tne IH2 tsw IH3 tse IH4];
    intros fuel Hf h p F HS Hnd.
  - inversion HS; subst. destruct fuel as [|f]; [cbn in Hf; lia|].
    exists h. cbn [Mem.clearSt clearSt top]. split; [reflexivity|].
    split; [constructor|]. split; [intros x []|]. split; reflexivity.
  - destruct fuel as [|f]; [lia|]. cbn [depth] in Hf.
    inversion HS as [|a ul' lr' c' pnw pne psw pse tnw' tne' tsw' tse'
                       F1 F2 F3 F4 Hc S1 S2 S3 S4]; subst.
    destruct (footprint_split _ _ _ _ _ Hnd)
      as ((N1 & N2 & N3 & N4) & (Na1 & Na2 & Na3 & Na4) & D1 & D2 & D3).
    set (ca := Mem.mkCell ul lr c pnw pne psw pse) in *.
    (* the four recursive calls *)
    destruct (clearSt_child_spec f tnw Mem.NW h a ca F1
                (IH1 f ltac:(lia)) Hc S1 N1) as (h1 & E1 & Q1 & K1 & J1 & X1).
    assert (A1 : Mem.cells h1 a = Some ca)
      by (rewrite J1 by exact Na1; exact Hc).
    assert (T2 : Stored h1 pne tne F2).
    { apply (Stored_frame h); [exact S2|]. intros x Hx. apply J1.
      intros H1. pose proof (D1 x H1). tauto. }
    destruct (clearSt_child_spec f tne Mem.NE h1 a ca F2
                (IH2 f ltac:(lia)) A1 T2 N2) as (h2 & E2 & Q2 & K2 & J2 & X2).
    assert (A2 : Mem.cells h2 a = Some ca)
      by (rewrite J2 by exact Na2; exact A1).
    assert (T3 : Stored h2 psw tsw F3).
    { apply (Stored_frame h); [exact S3|]. intros x Hx.
      rewrite J2 by (intros H2; pose proof (D2 x H2); tauto).
      apply J1. intros H1. pose proof (D1 x H1). tauto. }
    destruct (clearSt_child_spec f tsw Mem.SW h2 a ca F3
                (IH3 f ltac:(lia)) A2 T3 N3) as (h3 & E3 & Q3 & K3 & J3 & X3).
    assert (A3 : Mem.cells h3 a = Some ca)
      by (rewrite J3 by exact Na3; exact A2).
    assert (T4 : Stored h3 pse tse F4).
    { apply (Stored_frame h); [exact S4|]. intros x Hx.
      rewrite J3 by (intros H3; pose proof (D3 x H3); tauto).
      rewrite J2 by (intros H2; pose proof (D2 x H2); tauto).
      apply J1. intros H1. pose proof (D1 x H1). tauto. }
    destruct (clearSt_child_spec f tse Mem.SE h3 a ca F4
                (IH4 f ltac:(lia)) A3 T4 N4) as (h4 & E4 & Q4 & K4 & J4 & X4).
    assert (A4 : Mem.cells h4 a = Some ca)
      by (rewrite J4 by exact Na4; exact A3).
    cbn [ca Mem.NW Mem.NE Mem.SW Mem.SE] in Q1, Q2, Q3, Q4, K1, K2, K3, K4.
    (* where the children are, and that they are still allocated in h4 *)
    assert (P1 : forall b, pnw = Some b -> In b F1 /\ Mem.cells h4 b <> None).
    { intros b E. destruct (Q1 b E) as [Hin Hal]. split; [exact Hin|].
      pose proof (D1 b Hin). rewrite J4, J3, J2 by tauto. exact Hal. }
    assert (P2 : forall b, pne = Some b -> In b F2 /\ Mem.cells h4 b <> None).
    { intros b E. destruct (Q2 b E) as [Hin Hal]. split; [exact Hin|].
      pose proof (D2 b Hin). rewrite J4, J3 by tauto. exact Hal. }
    assert (P3 : forall b, psw = Some b -> In b F3 /\ Mem.cells h4 b <> None).
    { intros b E. destruct (Q3 b E) as [Hin Hal]. split; [exact Hin|].
      pose proof (D3 b Hin). rewrite J4 by tauto. exact Hal. }
    assert (P4 : forall b, pse = Some b -> In b F4 /\ Mem.cells h4 b <> None)
      by exact Q4.
    assert (Z1 : forall x, In x F1 -> pnw <> Some x -> Mem.cells h4 x = None).
    { intros x Hin Hne. pose proof (D1 x Hin).
      rewrite J4, J3, J2 by tauto. exact (K1 x Hin Hne). }
    assert (Z2 : forall x, In x F2 -> pne <> Some x -> Mem.cells h4 x = None).
    { intros x Hin Hne. pose proof (D2 x Hin).
      rewrite J4, J3 by tauto. exact (K2 x Hin Hne). }
    assert (Z3 : forall x, In x F3 -> psw <> Some x -> Mem.cells h4 x = None).
    { intros x Hin Hne. pose proof (D3 x Hin).
      rewrite J4 by tauto. exact (K3 x Hin Hne). }
    assert (Z4 : forall x, In x F4 -> pse <> Some x -> Mem.cells h4 x = None)
      by exact K4.
    assert (O4 : forall x, ~ In x F1 -> ~ In x F2 -> ~ In x F3 -> ~ In x F4 ->
                   Mem.cells h4 x = Mem.cells h x).
    { intros x H1 H2 H3 H4. rewrite J4, J3, J2, J1 by assumption.
      reflexivity. }
    (* the four deletes *)
    destruct (delete_child_spec Mem.NW h4 a ca A4)
      as (h5 & E5 & G5 & M5 & W5 & X5).
    { intros b E. exact (proj2 (P1 b E)). }
    assert (A5 : Mem.cells h5 a = Some ca).
    { rewrite M5; [exact A4|]. intros E. exact (Na1 (proj1 (P1 a E))). }
    destruct (delete_child_spec Mem.NE h5 a ca A5)
      as (h6 & E6 & G6 & M6 & W6 & X6).
    { intros b E. cbn [ca Mem.NE] in E. destruct (P2 b E) as [Hin Hal].
      rewrite M5; [exact Hal|]. intros E1'. cbn [ca Mem.NW] in E1'.
      pose proof (D1 b (proj1 (P1 b E1'))). tauto. }
    assert (A6 : Mem.cells h6 a = Some ca).
    { rewrite M6; [exact A5|]. intros E. exact (Na2 (proj1 (P2 a E))). }
    destruct (delete_child_spec Mem.SW h6 a ca A6)
      as (h7 & E7 & G7 & M7 & W7 & X7).
    { intros b E. cbn [ca Mem.SW] in E. destruct (P3 b E) as [Hin Hal].
      rewrite M6, M5; [exact Hal| |].
      - intros E'. cbn [ca Mem.NW] in E'.
        pose proof (D1 b (proj1 (P1 b E'))). tauto.
      - intros E'. cbn [ca Mem.NE] in E'.
        pose proof (D2 b (proj1 (P2 b E'))). tauto. }
    assert (A7 : Mem.cells h7 a = Some ca).
    { rewrite M7; [exact A6|]. intros E. exact (Na3 (proj1 (P3 a E))). }
    destruct (delete_child_spec Mem.SE h7 a ca A7)
      as (h8 & E8 & G8 & M8 & W8 & X8).
    { intros b E. cbn [ca Mem.SE] in E. destruct (P4 b E) as [Hin Hal].
      rewrite M7, M6, M5; [exact Hal| | |].
      - intros E'. cbn [ca Mem.NW] in E'.
        pose proof (D1 b (proj1 (P1 b E'))). tauto.
      - intros E'. cbn [ca Mem.NE] in E'.
        pose proof (D2 b (proj1 (P2 b E'))). tauto.
      - intros E'. cbn [ca Mem.SW] in E'.
        pose proof (D3 b (proj1 (P3 b E'))). tauto. }
    assert (A8 : Mem.cells h8 a = Some ca).
    { rewrite M8; [exact A7|]. intros E. exact (Na4 (proj1 (P4 a E))). }
    cbn [ca Mem.NW Mem.NE Mem.SW Mem.SE] in G5, G6, G7, G8, M5, M6, M7, M8.
    assert (Y : forall x, In x (F1 ++ F2 ++ F3 ++ F4) ->
                  Mem.cells h8 x = None).
    { intros x Hx. rewrite !in_app_iff in Hx.
      destruct Hx as [Hx|[Hx|[Hx|Hx]]].
      - apply W8, W7, W6. destruct (ptr_dec pnw x) as [E|E];
          [exact (G5 x E)|]. apply W5. exact (Z1 x Hx E).
      - apply W8, W7. destruct (ptr_dec pne x) as [E|E];
          [exact (G6 x E)|]. apply W6, W5. exact (Z2 x Hx E).
      - apply W8. destruct (ptr_dec psw x) as [E|E];
          [exact (G7 x E)|]. apply W7, W6, W5. exact (Z3 x Hx E).
      - destruct (ptr_dec pse x) as [E|E];
          [exact (G8 x E)|]. apply W8, W7, W6, W5. exact (Z4 x Hx E). }
    assert (O8 : forall x, ~ In x F1 -> ~ In x F2 -> ~ In x F3 -> ~ In x F4 ->
                   Mem.cells h8 x = Mem.cells h x).
    { intros x H1 H2 H3 H4. rewrite M8, M7, M6, M5.
      - apply O4; assumption.
      - intros E. exact (H1 (proj1 (P1 x E))).
      - intros E. exact (H2 (proj1 (P2 x E))).
      - intros E. exact (H3 (proj1 (P3 x E))).
      - intros E. exact (H4 (proj1 (P4 x E))). }
    (* the four pointers are reset *)
    destruct (reset_child_spec Mem.set_NW h8 a ca A8)
      as (h9 & E9 & A9 & R9 & X9).
    destruct (reset_child_spec Mem.set_NE h9 a _ A9)
      as (h10 & E10 & A10 & R10 & X10).
    destruct (reset_child_spec Mem.set_SW h10 a _ A10)
      as (h11 & E11 & A11 & R11 & X11).
    destruct (reset_child_spec Mem.set_SE h11 a _ A11)
      as (h12 & E12 & A12 & R12 & X12).
    exists h12. split.
    { cbn [Mem.clearSt]. rewrite E1. cbn [obind]. rewrite E2. cbn [obind].
      rewrite E3. cbn [obind]. rewrite E4. cbn [obind].
      rewrite E5. cbn [obind]. rewrite E6. cbn [obind].
      rewrite E7. cbn [obind]. rewrite E8. cbn [obind].
      rewrite E9. cbn [obind]. rewrite E10. cbn [obind].
      rewrite E11. cbn [obind]. exact E12. }
    split.
    { cbn [clearSt top].
      apply (Stored_node h12 a ul lr c None None None None
               nullptr nullptr nullptr nullptr [] [] [] []);
        try constructor. exact A12. }
    split.
    { intros x [->|Hx] Hne; [exfalso; apply Hne; reflexivity|].
      assert (x <> a).
      { intros ->. rewrite !in_app_iff in Hx. tauto. }
      rewrite R12, R11, R10, R9 by assumption. exact (Y x Hx). }
    split.
    { intros x Hx. cbn [In] in Hx. rewrite !in_app_iff in Hx.
      assert (x <> a) by (intros ->; tauto).
      rewrite R12, R11, R10, R9 by assumption. apply O8; tauto. }
    congruence.
Qed.

(** ** The operations in place: pruneSt, flipHorizontal, rotateCCW *)

Lemma footprint_join (a : nat) (F1 F2 F3 F4 : list nat) :
  NoDup F1 -> NoDup F2 -> NoDup F3 -> NoDup F4 ->
  ~ In a F1 -> ~ In a F2 -> ~ In a F3 -> ~ In a F4 ->
  (forall x, In x F1 -> ~ In x F2 /\ ~ In x F3 /\ ~ In x F4) ->
  (forall x, In x F2 -> ~ In x F3 /\ ~ In x F4) ->
  (forall x, In x F3 -> ~ In x F4) ->
  NoDup (a :: F1 ++ F2 ++ F3 ++ F4).
Proof.
  intros N1 N2 N3 N4 A1 A2 A3 A4 D1 D2 D3. constructor.
  - rewrite !in_app_iff. tauto.
  - apply NoDup_app; [exact N1| |].
    + apply NoDup_app; [exact N2| |].
      * apply NoDup_app; [exact N3|exact N4|exact D3].
      * intros x Hx. rewrite in_app_iff. pose proof (D2 x Hx). tauto.
    + intros x Hx. rewrite !in_app_iff. pose proof (D1 x Hx). tauto.
Qed.

Lemma on_child_spec op f tc get h a ca Fc :
  inPlace op f tc ->
  Mem.cells h a = Some ca ->
  Stored h (get ca) tc Fc -> NoDup Fc ->
  exists h' G,
    Mem.on_child op get h a = Some h' /\
    Stored h' (get ca) (f tc) G /\
    (forall x, In x G -> In x Fc) /\ NoDup G /\
    (forall x, In x Fc -> ~ In x G -> Mem.cells h' x = None) /\
    (forall x, ~ In x Fc -> Mem.cells h' x = Mem.cells h x) /\
    Mem.next h' = Mem.next h.
Proof.
  intros Hspec Ha HS Hnd. unfold Mem.on_child, Mem.load. rewrite Ha.
  cbn [obind]. apply (Hspec h (get ca) Fc HS Hnd).
Qed.

(** Four recursive calls in a row on the children [g1] .. [g4] of the node
    at [a]. *)
Lemma four_calls op f g1 g2 g3 g4 t1 t2 t3 t4 h a ca L1 L2 L3 L4 :
  inPlace op f t1 -> inPlace op f t2 -> inPlace op f t3 -> inPlace op f t4 ->
  Mem.cells h a = Some ca ->
  Stored h (g1 ca) t1 L1 -> Stored h (g2 ca) t2 L2 ->
  Stored h (g3 ca) t3 L3 -> Stored h (g4 ca) t4 L4 ->
  NoDup (a :: L1 ++ L2 ++ L3 ++ L4) ->
  exists h4 G1 G2 G3 G4,
    (h1 <- Mem.on_child op g1 h a ;;
     h2 <- Mem.on_child op g2 h1 a ;;
     h3 <- Mem.on_child op g3 h2 a ;;
     Mem.on_child op g4 h3 a) = Some h4 /\
    Mem.cells h4 a = Some ca /\
    (Stored h4 (g1 ca) (f t1) G1 /\ Stored h4 (g2 ca) (f t2) G2 /\
     Stored h4 (g3 ca) (f t3) G3 /\ Stored h4 (g4 ca) (f t4) G4) /\
    ((forall x, In x G1 -> In x L1) /\ (forall x, In x G2 -> In x L2) /\
     (forall x, In x G3 -> In x L3) /\ (forall x, In x G4 -> In x L4)) /\
    NoDup (a :: G1 ++ G2 ++ G3 ++ G4) /\
    (forall x, In x (L1 ++ L2 ++ L3 ++ L4) ->
       ~ In x (G1 ++ G2 ++ G3 ++ G4) -> Mem.cells h4 x = None) /\
    (forall x, ~ In x (L1 ++ L2 ++ L3 ++ L4) ->
       Mem.cells h4 x = Mem.cells h x) /\
    Mem.next h4 = Mem.next h.
Proof.
  intros I1 I2 I3 I4 Hc S1 S2 S3 S4 Hnd.
  destruct (footprint_split _ _ _ _ _ Hnd)
    as ((N1 & N2 & N3 & N4) & (Na1 & Na2 & Na3 & Na4) & D1 & D2 & D3).
  destruct (on_child_spec op f t1 g1 h a ca L1 I1 Hc S1 N1)
    as (h1 & G1 & E1 & U1 & B1 & V1 & K1 & J1 & X1).
  assert (A1 : Mem.cells h1 a = Some ca)
    by (rewrite J1 by exact Na1; exact Hc).
  assert (T2 : Stored h1 (g2 ca) t2 L2).
  { apply (Stored_frame h); [exact S2|]. intros x Hx. apply J1.
    intros H1. pose proof (D1 x H1). tauto. }
  destruct (on_child_spec op f t2 g2 h1 a ca L2 I2 A1 T2 N2)
    as (h2 & G2 & E2 & U2 & B2 & V2 & K2 & J2 & X2).
  assert (A2 : Mem.cells h2 a = Some ca)
    by (rewrite J2 by exact Na2; exact A1).
  assert (T3 : Stored h2 (g3 ca) t3 L3).
  { apply (Stored_frame h); [exact S3|]. intros x Hx.
    rewrite J2 by (intros H2; pose proof (D2 x H2); tauto).
    apply J1. intros H1. pose proof (D1 x H1). tauto. }
  destruct (on_child_spec op f t3 g3 h2 a ca L3 I3 A2 T3 N3)
    as (h3 & G3 & E3 & U3 & B3 & V3 & K3 & J3 & X3).
  assert (A3 : Mem.cells h3 a = Some ca)
    by (rewrite J3 by exact Na3; exact A2).
  assert (T4 : Stored h3 (g4 ca) t4 L4).
  { apply (Stored_frame h); [exact S4|]. intros x Hx.
    rewrite J3 by (intros H3; pose proof (D3 x H3); tauto).
    rewrite J2 by (intros H2; pose proof (D2 x H2); tauto).
    apply J1. intros H1. pose proof (D1 x H1). tauto. }
  destruct (on_child_spec op f t4 g4 h3 a ca L4 I4 A3 T4 N4)
    as (h4 & G4 & E4 & U4 & B4 & V4 & K4 & J4 & X4).
  assert (A4 : Mem.cells h4 a = Some ca)
    by (rewrite J4 by exact Na4; exact A3).
  exists h4, G1, G2, G3, G4.
  split.
  { rewrite E1. cbn [obind]. rewrite E2. cbn [obind]. rewrite E3.
    cbn [obind]. exact E4. }
  split; [exact A4|].
  split.
  { split; [|split; [|split]].
    - apply (Stored_frame h1); [exact U1|]. intros x Hx.
      pose proof (D1 x (B1 x Hx)). rewrite J4, J3, J2 by tauto. reflexivity.
    - apply (Stored_frame h2); [exact U2|]. intros x Hx.
      pose proof (D2 x (B2 x Hx)). rewrite J4, J3 by tauto. reflexivity.
    - apply (Stored_frame h3); [exact U3|]. intros x Hx.
      pose proof (D3 x (B3 x Hx)). rewrite J4 by tauto. reflexivity.
    - exact U4. }
  split; [tauto|].
  split.
  { apply footprint_join; auto.
    - intros x Hx. pose proof (D1 x (B1 x Hx)).
      split; [|split]; intros Hy; [apply B2 in Hy|apply B3 in Hy|
                                   apply B4 in Hy]; tauto.
    - intros x Hx. pose proof (D2 x (B2 x Hx)).
      split; intros Hy; [apply B3 in Hy|apply B4 in Hy]; tauto.
    - intros x Hx. pose proof (D3 x (B3 x Hx)).
      intros Hy. apply B4 in Hy. tauto. }
  split.
  { intros x Hx Hn. rewrite !in_app_iff in Hx, Hn.
    destruct Hx as [Hx|[Hx|[Hx|Hx]]].
    - pose proof (D1 x Hx). rewrite J4, J3, J2 by tauto. apply K1; tauto.
    - pose proof (D2 x Hx). rewrite J4, J3 by tauto. apply K2; tauto.
    - pose proof (D3 x Hx). rewrite J4 by tauto. apply K3; tauto.
    - apply K4; tauto. }
  split.
  { intros x Hx. rewrite !in_app_iff in Hx.
    rewrite J4, J3, J2, J1 by tauto. reflexivity. }
  congruence.
Qed.

Lemma Stored_isNull h p t F : Stored h p t F -> Mem.isNull p = isNull t.
Proof. intros HS. destruct HS; reflexivity. Qed.

Lemma leavesUnderTol_heap distanceTo tolerance avg0 t :
  forall fuel h p F,
    Stored h p t F -> (depth t < fuel)%nat ->
    Mem.leavesUnderTol distanceTo fuel h p tolerance avg0
    = Some (leavesUnderTol distanceTo t tolerance avg0).
Proof.
  induction t as [|ul lr c tnw IH1 tne IH2 tsw IH3 tse IH4];
    intros fuel h p F HS Hf.
  - inversion HS; subst. destruct fuel as [|f]; [cbn in Hf; lia|].
    reflexivity.
  - destruct fuel as [|f]; [lia|]. cbn [depth] in Hf.
    inversion HS as [|a ul' lr' c' pnw pne psw pse tnw' tne' tsw' tse'
                       F1 F2 F3 F4 Hc S1 S2 S3 S4]; subst.
    cbn [Mem.leavesUnderTol leavesUnderTol]. unfold Mem.load. rewrite Hc.
    cbn [obind]. unfold Mem.no_children, noChildren.
    cbn [Mem.NW Mem.NE Mem.SW Mem.SE Mem.avg].
    rewrite (Stored_isNull _ _ _ _ S1), (Stored_isNull _ _ _ _ S2),
      (Stored_isNull _ _ _ _ S3), (Stored_isNull _ _ _ _ S4).
    destruct (isNull tnw && isNull tne && isNull tsw && isNull tse);
      [reflexivity|].
    rewrite (IH1 f h pnw F1 S1) by lia. cbn [obind].
    destruct (leavesUnderTol distanceTo tnw tolerance avg0);
      cbn [negb andb]; [|reflexivity].
    rewrite (IH2 f h pne F2 S2) by lia. cbn [obind].
    destruct (leavesUnderTol distanceTo tne tolerance avg0);
      cbn [negb andb]; [|reflexivity].
    rewrite (IH3 f h psw F3 S3) by lia. cbn [obind].
    destruct (leavesUnderTol distanceTo tsw tolerance avg0);
      cbn [negb andb]; [|reflexivity].
    apply (IH4 f h pse F4 S4). lia.
Qed.

Lemma pruneSt_inPlace distanceTo tolerance t :
  forall fuel, (depth t < fuel)%nat ->
    inPlace (fun h p => Mem.pruneSt distanceTo fuel h p tolerance)
            (fun t => pruneSt distanceTo t tolerance) t.
Proof.
  induction t as [|ul lr c tnw IH1 tne IH2 tsw IH3 tse IH4];
    intros fuel Hf h p F HS Hnd.
  - inversion HS; subst. destruct fuel as [|f]; [cbn in Hf; lia|].
    exists h, []. cbn [Mem.pruneSt pruneSt]. split; [reflexivity|].
    split; [constructor|]. split; [auto|]. split; [constructor|].
    split; [intros x []|]. split; reflexivity.
  - destruct fuel as [|f]; [lia|]. pose proof Hf as Hf'. cbn [depth] in Hf.
    inversion HS as [|a ul' lr' c' pnw pne psw pse tnw' tne' tsw' tse'
                       F1 F2 F3 F4 Hc S1 S2 S3 S4]; subst.
    cbn [Mem.pruneSt pruneSt]. unfold Mem.load at 1. rewrite Hc.
    cbn [obind]. unfold Mem.no_children, noChildren.
    cbn [Mem.NW Mem.NE Mem.SW Mem.SE Mem.avg].
    rewrite (Stored_isNull _ _ _ _ S1), (Stored_isNull _ _ _ _ S2),
      (Stored_isNull _ _ _ _ S3), (Stored_isNull _ _ _ _ S4).
    destruct (isNull tnw && isNull tne && isNull tsw && isNull tse).
    { exists h, (a :: F1 ++ F2 ++ F3 ++ F4). split; [reflexivity|].
      split; [exact HS|]. split; [auto|]. split; [exact Hnd|].
      split; [intros x Hx Hn; contradiction|]. split; reflexivity. }
    rewrite (leavesUnderTol_heap distanceTo tolerance c _ (S f) h (Some a) _
               HS Hf'). cbn [obind].
    destruct (leavesUnderTol distanceTo
                (mkNode ul lr c tnw tne tsw tse) tolerance c).
    { destruct (clearSt_spec _ (S f) Hf' h (Some a) _ HS Hnd)
        as (h' & E & U & K & J & X).
      exists h', [a]. split; [exact E|]. split; [exact U|].
      split; [intros x [<-|[]]; left; reflexivity|].
      split; [constructor; [intros []|constructor]|].
      split; [|split; assumption].
      intros x Hx Hn. apply K; [exact Hx|]. intros E'. injection E' as ->.
      apply Hn. left. reflexivity. }
    destruct (four_calls
                (fun h p => Mem.pruneSt distanceTo f h p tolerance)
                (fun t => pruneSt distanceTo t tolerance)
                Mem.NW Mem.NE Mem.SW Mem.SE tnw tne tsw tse h a
                (Mem.mkCell ul lr c pnw pne psw pse) F1 F2 F3 F4
                (IH1 f ltac:(lia)) (IH2 f ltac:(lia))
                (IH3 f ltac:(lia)) (IH4 f ltac:(lia)) Hc S1 S2 S3 S4 Hnd)
      as (h4 & G1 & G2 & G3 & G4 & E & A4 & (U1 & U2 & U3 & U4)
          & (B1 & B2 & B3 & B4) & V & K & J & X).
    exists h4, (a :: G1 ++ G2 ++ G3 ++ G4).
    split; [exact E|].
    split; [eapply Stored_node; eassumption|].
    split.
    { intros x [<-|Hx]; [left; reflexivity|]. right.
      rewrite !in_app_iff in *. destruct Hx as [Hx|[Hx|[Hx|Hx]]]; auto. }
    split; [exact V|].
    split.
    { intros x [<-|Hx] Hn; [exfalso; apply Hn; left; reflexivity|].
      apply K; [exact Hx|]. intros Hy. apply Hn. right. exact Hy. }
    split; [|exact X].
    intros x Hx. apply J. intros Hy. apply Hx. right. exact Hy.
Qed.

Lemma footprint_swap (a : nat) (F1 F2 F3 F4 : list nat) :
  NoDup (a :: F1 ++ F2 ++ F3 ++ F4) ->
  NoDup (a :: F2 ++ F1 ++ F4 ++ F3).
Proof.
  intros H. destruct (footprint_split _ _ _ _ _ H)
    as ((N1 & N2 & N3 & N4) & (Na1 & Na2 & Na3 & Na4) & D1 & D2 & D3).
  apply footprint_join; auto.
  - intros x Hx. split; [|split]; intros Hy.
    + pose proof (D1 x Hy). tauto.
    + pose proof (D2 x Hx). tauto.
    + pose proof (D2 x Hx). tauto.
  - intros x Hx. pose proof (D1 x Hx). tauto.
  - intros x Hx Hy. pose proof (D3 x Hy). tauto.
Qed.

Lemma footprint_turn (a : nat) (F1 F2 F3 F4 : list nat) :
  NoDup (a :: F1 ++ F2 ++ F3 ++ F4) ->
  NoDup (a :: F2 ++ F4 ++ F3 ++ F1).
Proof.
  intros H. destruct (footprint_split _ _ _ _ _ H)
    as ((N1 & N2 & N3 & N4) & (Na1 & Na2 & Na3 & Na4) & D1 & D2 & D3).
  apply footprint_join; auto.
  - intros x Hx. pose proof (D2 x Hx). split; [|split]; try tauto.
    intros Hy. pose proof (D1 x Hy). tauto.
  - intros x Hx. split; intros Hy.
    + pose proof (D3 x Hy). tauto.
    + pose proof (D1 x Hy). tauto.
  - intros x Hx Hy. pose proof (D1 x Hy). tauto.
Qed.

Lemma flipHorizontal_inPlace w t :
  forall fuel, (depth t < fuel)%nat ->
    inPlace (Mem.flipHorizontal w fuel) (flipHorizontal w) t.
Proof.
  induction t as [|ul lr c tnw IH1 tne IH2 tsw IH3 tse IH4];
    intros fuel Hf h p F HS Hnd.
  - inversion HS; subst. destruct fuel as [|f]; [cbn in Hf; lia|].
    exists h, []. cbn [Mem.flipHorizontal flipHorizontal].
    split; [reflexivity|].
    split; [constructor|]. split; [auto|]. split; [constructor|].
    split; [intros x []|]. split; reflexivity.
  - destruct fuel as [|f]; [lia|]. cbn [depth] in Hf.
    inversion HS as [|a ul' lr' c' pnw pne psw pse tnw' tne' tsw' tse'
                       F1 F2 F3 F4 Hc S1 S2 S3 S4]; subst.
    destruct (footprint_split _ _ _ _ _ Hnd)
      as (_ & (Na1 & Na2 & Na3 & Na4) & _).
    cbn [Mem.flipHorizontal flipHorizontal]. unfold Mem.load at 1.
    rewrite Hc. cbn [obind Mem.upLeft Mem.lowRight Mem.avg
                     Mem.NW Mem.NE Mem.SW Mem.SE].
    set (corners := if u32 (w - 1 - fst lr) >? u32 (w - 1 - fst ul)
                    then (u32 (w - 1 - fst ul), u32 (w - 1 - fst lr))
                    else (u32 (w - 1 - fst lr), u32 (w - 1 - fst ul))).
    destruct corners as [ulx lrx].
    set (ca := Mem.mkCell (ulx, snd ul) (lrx, snd lr) c pne pnw pse psw).
    unfold Mem.store at 1. rewrite Hc. cbn [obind].
    set (h0 := Mem.mkHeap (Mem.update (Mem.cells h) a (Some ca))
                 (Mem.next h)).
    assert (A0 : Mem.cells h0 a = Some ca) by apply update_same.
    assert (B0 : forall x, x <> a -> Mem.cells h0 x = Mem.cells h x)
      by (intros x Hx; apply update_other; exact Hx).
    assert (T1 : Stored h0 (Mem.NW ca) tne F2).
    { apply (Stored_frame h); [exact S2|]. intros x Hx. apply B0.
      intros ->. tauto. }
    assert (T2 : Stored h0 (Mem.NE ca) tnw F1).
    { apply (Stored_frame h); [exact S1|]. intros x Hx. apply B0.
      intros ->. tauto. }
    assert (T3 : Stored h0 (Mem.SW ca) tse F4).
    { apply (Stored_frame h); [exact S4|]. intros x Hx. apply B0.
      intros ->. tauto. }
    assert (T4 : Stored h0 (Mem.SE ca) tsw F3).
    { apply (Stored_frame h); [exact S3|]. intros x Hx. apply B0.
      intros ->. tauto. }
    destruct (four_calls (Mem.flipHorizontal w f) (flipHorizontal w)
                Mem.NW Mem.NE Mem.SW Mem.SE tne tnw tse tsw h0 a ca
                F2 F1 F4 F3
                (IH2 f ltac:(lia)) (IH1 f ltac:(lia))
                (IH4 f ltac:(lia)) (IH3 f ltac:(lia)) A0 T1 T2 T3 T4
                (footprint_swap _ _ _ _ _ Hnd))
      as (h4 & G1 & G2 & G3 & G4 & E & A4 & (U1 & U2 & U3 & U4)
          & (B1 & B2 & B3 & B4) & V & K & J & X).
    exists h4, (a :: G1 ++ G2 ++ G3 ++ G4).
    split; [exact E|].
    split; [eapply Stored_node; eassumption|].
    split.
    { intros x [<-|Hx]; [left; reflexivity|]. right.
      rewrite !in_app_iff in *. destruct Hx as [Hx|[Hx|[Hx|Hx]]]; auto. }
    split; [exact V|].
    split.
    { intros x [<-|Hx] Hn; [exfalso; apply Hn; left; reflexivity|].
      apply K.
      - rewrite !in_app_iff in *. tauto.
      - intros Hy. apply Hn. right. exact Hy. }
    split; [|exact X].
    intros x Hx. cbn [In] in Hx. rewrite !in_app_iff in Hx.
    rewrite J by (rewrite !in_app_iff; tauto).
    apply B0. intros ->. tauto.
Qed.

Lemma rotateCCW_inPlace ht t :
  forall fuel, (depth t < fuel)%nat ->
    inPlace (Mem.rotateCCW ht fuel) (rotateCCW ht) t.
Proof.
  induction t as [|ul lr c tnw IH1 tne IH2 tsw IH3 tse IH4];
    intros fuel Hf h p F HS Hnd.
  - inversion HS; subst. destruct fuel as [|f]; [cbn in Hf; lia|].
    exists h, []. cbn [Mem.rotateCCW rotateCCW].
    split; [reflexivity|].
    split; [constructor|]. split; [auto|]. split; [constructor|].
    split; [intros x []|]. split; reflexivity.
  - destruct fuel as [|f]; [lia|]. cbn [depth] in Hf.
    inversion HS as [|a ul' lr' c' pnw pne psw pse tnw' tne' tsw' tse'
                       F1 F2 F3 F4 Hc S1 S2 S3 S4]; subst.
    destruct (footprint_split _ _ _ _ _ Hnd)
      as (_ & (Na1 & Na2 & Na3 & Na4) & _).
    cbn [Mem.rotateCCW rotateCCW]. unfold Mem.load at 1.
    rewrite Hc. cbn [obind Mem.upLeft Mem.lowRight Mem.avg
                     Mem.NW Mem.NE Mem.SW Mem.SE].
    set (ca := Mem.mkCell (snd ul, u32 (ht - fst lr - 1))
                 (snd lr, u32 (ht - fst ul - 1)) c pne pse pnw psw).
    unfold Mem.store at 1. rewrite Hc. cbn [obind].
    set (h0 := Mem.mkHeap (Mem.update (Mem.cells h) a (Some ca))
                 (Mem.next h)).
    assert (A0 : Mem.cells h0 a = Some ca) by apply update_same.
    assert (B0 : forall x, x <> a -> Mem.cells h0 x = Mem.cells h x)
      by (intros x Hx; apply update_other; exact Hx).
    assert (T1 : Stored h0 (Mem.NW ca) tne F2).
    { apply (Stored_frame h); [exact S2|]. intros x Hx. apply B0.
      intros ->. tauto. }
    assert (T2 : Stored h0 (Mem.NE ca) tse F4).
    { apply (Stored_frame h); [exact S4|]. intros x Hx. apply B0.
      intros ->. tauto. }
    assert (T3 : Stored h0 (Mem.SE ca) tsw F3).
    { apply (Stored_frame h); [exact S3|]. intros x Hx. apply B0.
      intros ->. tauto. }
    assert (T4 : Stored h0 (Mem.SW ca) tnw F1).
    { apply (Stored_frame h); [exact S1|]. intros x Hx. apply B0.
      intros ->. tauto. }
    destruct (four_calls (Mem.rotateCCW ht f) (rotateCCW ht)
                Mem.NW Mem.NE Mem.SE Mem.SW tne tse tsw tnw h0 a ca
                F2 F4 F3 F1
                (IH2 f ltac:(lia)) (IH4 f ltac:(lia))
                (IH3 f ltac:(lia)) (IH1 f ltac:(lia)) A0 T1 T2 T3 T4
                (footprint_turn _ _ _ _ _ Hnd))
      as (h4 & G1 & G2 & G3 & G4 & E & A4 & (U1 & U2 & U3 & U4)
          & (B1 & B2 & B3 & B4) & V & K & J & X).
    exists h4, (a :: G1 ++ G2 ++ G4 ++ G3).
    split; [exact E|].
    split; [eapply Stored_node; eassumption|].
    assert (V' : NoDup (a :: G1 ++ G2 ++ G4 ++ G3)).
    { destruct (footprint_split _ _ _ _ _ V)
        as ((M1 & M2 & M3 & M4) & (Ma1 & Ma2 & Ma3 & Ma4) & C1 & C2 & C3).
      apply footprint_join; auto.
      - intros x Hx. pose proof (C1 x Hx). tauto.
      - intros x Hx. pose proof (C2 x Hx). tauto.
      - intros x Hx Hy. pose proof (C3 x Hy). tauto. }
    split.
    { intros x [<-|Hx]; [left; reflexivity|]. right.
      rewrite !in_app_iff in *. destruct Hx as [Hx|[Hx|[Hx|Hx]]]; auto. }
    split; [exact V'|].
    split.
    { intros x [<-|Hx] Hn; [exfalso; apply Hn; left; reflexivity|].
      apply K.
      - rewrite !in_app_iff in *. tauto.
      - intros Hy. apply Hn. right. rewrite !in_app_iff in *. tauto. }
    split; [|exact X].
    intros x Hx. cbn [In] in Hx. rewrite !in_app_iff in Hx.
    rewrite J by (rewrite !in_app_iff; tauto).
    apply B0. intros ->. tauto.
Qed.

(** ** The operations on QTree objects in memory *)

Lemma Stored_length h p t F : Stored h p t F -> length F = CountNodes t.
Proof.
  induction 1 as [|a ul lr c pnw pne psw pse tnw tne tsw tse F1 F2 F3 F4
                    Hc S1 IH1 S2 IH2 S3 IH3 S4 IH4]; [reflexivity|].
  cbn [length CountNodes]. rewrite !length_app. lia.
Qed.

Lemma same_cells (F F' : list nat) :
  NoDup F -> NoDup F' -> (forall x, In x F' -> In x F) ->
  length F = length F' -> forall x, In x F' <-> In x F.
Proof.
  intros N N' Hsub Hlen x. split; [apply Hsub|].
  apply (NoDup_length_incl N'); [lia|exact Hsub].
Qed.

Lemma Owns_heap4_2x1 : Owns heap4 obj2x1 tree2x1 [0; 1; 2]%nat.
Proof.
  split.
  - apply (Stored_node heap4 0 (0, 0) (1, 0) (mkRGBAPixel 127 127 0 1)
             (Some 1%nat) (Some 2%nat) None None
             (leaf 0 0 red) (leaf 1 0 green) nullptr nullptr
             [1%nat] [2%nat] [] []); try constructor.
    + apply (Stored_node heap4 1 (0, 0) (0, 0) red None None None None
               nullptr nullptr nullptr nullptr [] [] [] []);
        constructor.
    + apply (Stored_node heap4 2 (1, 0) (1, 0) green None None None None
               nullptr nullptr nullptr nullptr [] [] [] []);
        constructor.
  - split; [|split; reflexivity].
    repeat constructor; cbn; intuition discriminate.
Defined.

Lemma Owns_heap4_1x1 : Owns heap4 obj1x1 tree1x1 [3%nat].
Proof.
  split.
  - apply (Stored_node heap4 3 (0, 0) (0, 0) red None None None None
             nullptr nullptr nullptr nullptr [] [] [] []);
      constructor.
  - split; [|split; reflexivity].
    repeat constructor; cbn; intuition discriminate.
Defined.

Lemma heapOk_heap4 : heapOk heap4.
Proof.
  intros a Ha. cbn [heap4 Mem.next Mem.cells] in *.
  do 4 (destruct a as [|a]; [lia|]). reflexivity.
Defined.

(** X12 (QTree::Copy, QTree::copy).  Copy always returns on a stored tree
    and makes a deep clone: the new object has the sizes of [other] and owns
    the same tree in cells that were all unallocated before the call, one
    cell per node and no cell twice; every cell allocated before the call
    is unchanged, so [other] still owns its tree in its own cells, which
    the copy shares none of. *)
Theorem X12_Copy_makes_a_deep_clone
    (fuel : nat) (h : Mem.Heap) (this other : Mem.Obj) (t : QTree)
    (F : list nat) :
  heapOk h -> Owns h other t F -> (depth (root t) < fuel)%nat ->
  exists h' o F',
    Mem.Copy fuel h this other = Some (h', o) /\
    Owns h' o t F' /\ Owns h' other t F /\
    (forall x, In x F' -> Mem.cells h x = None /\ ~ In x F) /\
    length F' = CountNodes (root t) /\
    (forall x, Mem.cells h x <> None -> Mem.cells h' x = Mem.cells h x) /\
    heapOk h'.
Proof.
  intros Hok (HS & Hnd & Hh & Hw) Hf.
  destruct (copy_spec (root t) fuel Hf h (Mem.root other) F Hok HS)
    as (h' & p' & F' & E & U & V & R & B & Hok' & L).
  exists h', (Mem.mkObj p' (Mem.height other) (Mem.width other)), F'.
  split; [unfold Mem.Copy; rewrite E; reflexivity|].
  split; [repeat split; assumption|].
  split.
  { split; [|repeat split; assumption].
    apply (Stored_older h); assumption. }
  split.
  { intros x Hx. specialize (R x Hx). split; [apply Hok; lia|].
    intros Hin. pose proof (Stored_below h _ _ _ Hok HS x Hin). lia. }
  split; [exact (Stored_length _ _ _ _ U)|].
  split; [|exact Hok'].
  intros x Hx. apply B.
  destruct (Nat.lt_ge_cases x (Mem.next h)) as [Hlt|Hge]; [exact Hlt|].
  exfalso. apply Hx. apply Hok. exact Hge.
Qed.

(** X13 (QTree::Clear, QTree::clear).  Clear returns on an owned tree, frees
    every cell of the tree and no other, and sets width and height to 0;
    the member root keeps its old value, which now dangles: a second Clear
    of a tree that had a node reads a freed node, whatever the fuel. *)
Theorem X13_Clear_frees_the_tree_and_keeps_root
    (fuel : nat) (h : Mem.Heap) (this : Mem.Obj) (t : QTree)
    (F : list nat) :
  Owns h this t F -> (depth (root t) < fuel)%nat ->
  exists h',
    Mem.Clear fuel h this = Some (h', Mem.mkObj (Mem.root this) 0 0) /\
    (forall x, In x F -> Mem.cells h' x = None) /\
    (forall x, ~ In x F -> Mem.cells h' x = Mem.cells h x) /\
    (Mem.root this <> None ->
     forall fuel', Mem.Clear fuel' h' (Mem.mkObj (Mem.root this) 0 0) = None).
Proof.
  intros (HS & Hnd & Hh & Hw) Hf.
  destruct (clear_spec (root t) fuel Hf h (Mem.root this) F HS Hnd)
    as (h' & E & K & J & X).
  exists h'. split; [unfold Mem.Clear; rewrite E; reflexivity|].
  split; [exact K|]. split; [exact J|].
  intros Hr fuel'. unfold Mem.Clear. cbn [Mem.root].
  destruct (Mem.root this) as [a|] eqn:Er; [|congruence].
  pose proof (K a (Stored_top _ _ _ _ HS a eq_refl)) as Ha.
  destruct fuel' as [|f]; [reflexivity|].
  cbn [Mem.clear]. unfold Mem.on_child at 1, Mem.load. rewrite Ha.
  reflexivity.
Qed.

(** X14 (QTree::operator=).  Assigning [rhs] to a different object [this],
    when the two own trees in disjoint cells: the call returns, [this] owns
    a deep clone of the tree of [rhs] (with its sizes) in cells that [rhs]
    has none of, [rhs] and every other object are as before and [rhs] still
    owns its tree, every cell of the old tree of [this] is freed, and no
    other cell allocated before is changed. *)
Theorem X14_assignment_replaces_the_tree
    (fuel : nat) (h : Mem.Heap) (objs : Mem.Objs) (this rhs : nat)
    (t1 t2 : QTree) (F1 F2 : list nat) :
  heapOk h -> this <> rhs ->
  Owns h (objs this) t1 F1 -> Owns h (objs rhs) t2 F2 ->
  (forall x, In x F1 -> ~ In x F2) ->
  (depth (root t1) < fuel)%nat -> (depth (root t2) < fuel)%nat ->
  exists h' objs' F',
    Mem.assign fuel h objs this rhs = Some (h', objs') /\
    Owns h' (objs' this) t2 F' /\ Owns h' (objs' rhs) t2 F2 /\
    (forall j, j <> this -> objs' j = objs j) /\
    (forall x, In x F' -> ~ In x F2) /\
    (forall x, In x F1 -> Mem.cells h' x = None) /\
    (forall x, Mem.cells h x <> None -> ~ In x F1 ->
       Mem.cells h' x = Mem.cells h x) /\
    heapOk h'.
Proof.
  intros Hok Hne (HS1 & Hnd1 & Hh1 & Hw1) (HS2 & Hnd2 & Hh2 & Hw2) Hdis
    Hf1 Hf2.
  destruct (clear_spec (root t1) fuel Hf1 h (Mem.root (objs this)) F1
              HS1 Hnd1) as (h1 & E1 & K1 & J1 & X1).
  assert (Hok1 : heapOk h1).
  { intros a Ha. rewrite X1 in Ha.
    destruct (in_dec Nat.eq_dec a F1) as [Hin|Hni]; [exact (K1 a Hin)|].
    rewrite J1 by exact Hni. apply Hok. exact Ha. }
  assert (HS2' : Stored h1 (Mem.root (objs rhs)) (root t2) F2).
  { apply (Stored_frame h); [exact HS2|]. intros x Hx. apply J1.
    intros Hin. exact (Hdis x Hin Hx). }
  destruct (copy_spec (root t2) fuel Hf2 h1 (Mem.root (objs rhs)) F2
              Hok1 HS2')
    as (h2 & p' & F' & E2 & U & V & R & B & Hok2 & L).
  assert (Hrhs : Mem.setObj objs this
                   (Mem.mkObj (Mem.root (objs this)) 0 0) rhs = objs rhs).
  { unfold Mem.setObj. apply Nat.eqb_neq in Hne.
    rewrite Nat.eqb_sym in Hne. rewrite Hne. reflexivity. }
  eexists h2, _, F'. split.
  { unfold Mem.assign. apply Nat.eqb_neq in Hne. rewrite Hne.
    cbn [negb]. unfold Mem.Clear. rewrite E1. cbn [obind fst snd].
    unfold Mem.Copy. rewrite Hrhs. rewrite E2. cbn [obind fst snd].
    reflexivity. }
  split.
  { unfold Mem.setObj at 1. rewrite Nat.eqb_refl.
    repeat split; assumption. }
  assert (Hj : forall j, j <> this ->
            Mem.setObj (Mem.setObj objs this
                          (Mem.mkObj (Mem.root (objs this)) 0 0)) this
              (Mem.mkObj p' (Mem.height (objs rhs)) (Mem.width (objs rhs))) j
            = objs j).
  { intros j Hj. unfold Mem.setObj. apply Nat.eqb_neq in Hj. rewrite Hj.
    reflexivity. }
  split.
  { rewrite Hj by (intros E; apply Hne; symmetry; exact E).
    split; [|repeat split; assumption].
    apply (Stored_older h1); assumption. }
  split; [exact Hj|].
  split.
  { intros x Hx Hin. specialize (R x Hx).
    pose proof (Stored_below h1 _ _ _ Hok1 HS2' x Hin). lia. }
  split.
  { intros x Hx. rewrite B; [exact (K1 x Hx)|].
    rewrite X1. apply (Stored_below h _ _ _ Hok HS1 x Hx). }
  split; [|exact Hok2].
  intros x Hal Hni. rewrite B; [apply J1; exact Hni|].
  rewrite X1. destruct (Nat.lt_ge_cases x (Mem.next h)) as [Hlt|Hge];
    [exact Hlt|]. exfalso. apply Hal. apply Hok. exact Hge.
Qed.

(** X15 (QTree::clearSt).  On a stored subtree clearSt returns; the node it
    is called on stays where it is, with its corners and colour and its
    four pointers null, which is the node the claims' [clearSt] on trees
    gives; every other cell of the subtree is freed, and no cell outside
    the subtree changes. *)
Theorem X15_clearSt_frees_all_descendants
    (fuel : nat) (h : Mem.Heap) (p : Mem.Ptr) (t : Node) (F : list nat) :
  Stored h p t F -> NoDup F -> (depth t < fuel)%nat ->
  exists h',
    Mem.clearSt fuel h p = Some h' /\
    Stored h' p (clearSt t) (top p) /\
    (forall x, In x F -> p <> Some x -> Mem.cells h' x = None) /\
    (forall x, ~ In x F -> Mem.cells h' x = Mem.cells h x).
Proof.
  intros HS Hnd Hf.
  destruct (clearSt_spec t fuel Hf h p F HS Hnd) as (h' & E & U & K & J & X).
  exists h'. auto.
Qed.

(** X16 (QTree::Prune, QTree::pruneSt, QTree::leavesUnderTol).  Prune on an
    owned tree returns, and the object then owns exactly the tree that
    [Prune] on trees gives, in cells of the old tree, one per remaining
    node; every cell of a removed node is freed (nothing leaks, nothing is
    freed twice) and no cell outside the tree changes. *)
Theorem X16_Prune_in_memory
    (distanceTo : RGBAPixel -> RGBAPixel -> float) (fuel : nat)
    (h : Mem.Heap) (this : Mem.Obj) (t : QTree) (F : list nat)
    (tolerance : float) :
  Owns h this t F -> (depth (root t) < fuel)%nat ->
  exists h' F',
    Mem.Prune distanceTo fuel h this tolerance = Some h' /\
    Owns h' this (Prune distanceTo t tolerance) F' /\
    (forall x, In x F' -> In x F) /\
    length F' = CountNodes (root (Prune distanceTo t tolerance)) /\
    (forall x, In x F -> ~ In x F' -> Mem.cells h' x = None) /\
    (forall x, ~ In x F -> Mem.cells h' x = Mem.cells h x).
Proof.
  intros (HS & Hnd & Hh & Hw) Hf.
  destruct (pruneSt_inPlace distanceTo tolerance (root t) fuel Hf h
              (Mem.root this) F HS Hnd)
    as (h' & F' & E & U & B & V & K & J & X).
  exists h', F'. split; [exact E|].
  split; [repeat split; assumption|].
  split; [exact B|].
  split; [exact (Stored_length _ _ _ _ U)|]. auto.
Qed.

(** X17 (QTree::FlipHorizontal, QTree::flipHorizontal).  FlipHorizontal on
    an owned tree returns, and the object then owns exactly the tree that
    [FlipHorizontal] on trees gives, in the same cells; no node is
    allocated or freed and no cell outside the tree changes. *)
Theorem X17_FlipHorizontal_in_memory
    (fuel : nat) (h : Mem.Heap) (this : Mem.Obj) (t : QTree)
    (F : list nat) :
  Owns h this t F -> (depth (root t) < fuel)%nat ->
  exists h' F',
    Mem.FlipHorizontal fuel h this = Some h' /\
    Owns h' this (FlipHorizontal t) F' /\
    (forall x, In x F' <-> In x F) /\
    (forall x, ~ In x F -> Mem.cells h' x = Mem.cells h x).
Proof.
  intros (HS & Hnd & Hh & Hw) Hf.
  destruct (flipHorizontal_inPlace (width t) (root t) fuel Hf h
              (Mem.root this) F HS Hnd)
    as (h' & F' & E & U & B & V & K & J & X).
  exists h', F'. split; [unfold Mem.FlipHorizontal; rewrite Hw; exact E|].
  split; [repeat split; assumption|].
  split; [|exact J].
  apply same_cells; try assumption.
  rewrite (Stored_length _ _ _ _ HS), (Stored_length _ _ _ _ U).
  symmetry. apply CountNodes_flipHorizontal.
Qed.

(** X18 (QTree::RotateCCW, QTree::rotateCCW).  RotateCCW on an owned tree
    returns; the object keeps its root pointer, has width and height
    swapped, and owns exactly the tree that [RotateCCW] on trees gives, in
    the same cells; no node is allocated or freed and no cell outside the
    tree changes. *)
Theorem X18_RotateCCW_in_memory
    (fuel : nat) (h : Mem.Heap) (this : Mem.Obj) (t : QTree)
    (F : list nat) :
  Owns h this t F -> (depth (root t) < fuel)%nat ->
  exists h' o F',
    Mem.RotateCCW fuel h this = Some (h', o) /\
    Mem.root o = Mem.root this /\
    Owns h' o (RotateCCW t) F' /\
    (forall x, In x F' <-> In x F) /\
    (forall x, ~ In x F -> Mem.cells h' x = Mem.cells h x).
Proof.
  intros (HS & Hnd & Hh & Hw) Hf.
  destruct (rotateCCW_inPlace (width t) (root t) fuel Hf h
              (Mem.root this) F HS Hnd)
    as (h' & F' & E & U & B & V & K & J & X).
  exists h', (Mem.mkObj (Mem.root this) (Mem.width this) (Mem.height this)),
    F'.
  split.
  { unfold Mem.RotateCCW. cbn [Mem.root Mem.height Mem.width].
    rewrite Hw, E. reflexivity. }
  split; [reflexivity|].
  split.
  { split; [exact U|]. split; [exact V|]. split; [exact Hw|exact Hh]. }
  split; [|exact J].
  apply same_cells; try assumption.
  rewrite (Stored_length _ _ _ _ HS), (Stored_length _ _ _ _ U).
  symmetry. apply CountNodes_rotateCCW.
Qed.

(** ** The constructor in memory *)

Lemma addChild_heap h p t F tot area :
  Stored h p t F ->
  Mem.addChild h tot p area = Some (addChild tot t area).
Proof.
  intros HS. destruct HS as [|a ul lr c pnw pne psw pse tnw tne tsw tse
                               F1 F2 F3 F4 Hc S1 S2 S3 S4];
    [reflexivity|].
  unfold Mem.addChild, Mem.load, addChild. rewrite Hc. cbn [obind Mem.avg].
  destruct tot as [[[tR tG] tB] tA]. reflexivity.
Qed.

Lemma averageOf_heap h ul lr midX midY nw ne sw se t1 t2 t3 t4 F1 F2 F3 F4 :
  Stored h nw t1 F1 -> Stored h ne t2 F2 ->
  Stored h sw t3 F3 -> Stored h se t4 F4 ->
  Mem.averageOf h ul lr midX midY nw ne sw se
  = averageOf ul lr midX midY t1 t2 t3 t4.
Proof.
  intros S1 S2 S3 S4. unfold Mem.averageOf, averageOf. cbv zeta.
  rewrite (addChild_heap _ _ _ _ _ _ S1). cbn [obind].
  rewrite (addChild_heap _ _ _ _ _ _ S2). cbn [obind].
  rewrite (addChild_heap _ _ _ _ _ _ S3). cbn [obind].
  rewrite (addChild_heap _ _ _ _ _ _ S4). cbn [obind].
  reflexivity.
Qed.

Lemma set_child_spec set h p q c :
  Mem.cells h p = Some c ->
  exists h',
    Mem.set_child set h p q = Some h' /\
    Mem.cells h' p = Some (set c q) /\
    (forall x, x <> p -> Mem.cells h' x = Mem.cells h x) /\
    Mem.next h' = Mem.next h.
Proof.
  intros Hp. unfold Mem.set_child, Mem.load, Mem.store. rewrite Hp.
  cbn [obind]. eexists. split; [reflexivity|].
  cbn [Mem.cells Mem.next]. split; [apply update_same|].
  split; [|reflexivity]. intros x Hx. apply update_other. exact Hx.
Qed.

Lemma newInternal_spec h ul lr midX midY nw ne sw se t1 t2 t3 t4
    F1 F2 F3 F4 c :
  heapOk h ->
  Stored h nw t1 F1 -> Stored h ne t2 F2 ->
  Stored h sw t3 F3 -> Stored h se t4 F4 ->
  NoDup (F1 ++ F2 ++ F3 ++ F4) ->
  averageOf ul lr midX midY t1 t2 t3 t4 = Some c ->
  exists h',
    Mem.newInternal h ul lr midX midY nw ne sw se
    = Some (h', Some (Mem.next h)) /\
    Stored h' (Some (Mem.next h)) (mkNode ul lr c t1 t2 t3 t4)
      (Mem.next h :: F1 ++ F2 ++ F3 ++ F4) /\
    NoDup (Mem.next h :: F1 ++ F2 ++ F3 ++ F4) /\
    (forall x, (x < Mem.next h)%nat -> Mem.cells h' x = Mem.cells h x) /\
    heapOk h' /\ Mem.next h' = S (Mem.next h).
Proof.
  intros Hok S1 S2 S3 S4 Hnd Ha. unfold Mem.newInternal.
  rewrite (averageOf_heap h ul lr midX midY nw ne sw se t1 t2 t3 t4
             F1 F2 F3 F4 S1 S2 S3 S4), Ha.
  cbn [obind]. unfold Mem.new_Node.
  set (p0 := Mem.next h).
  set (h0 := Mem.mkHeap (Mem.update (Mem.cells h) p0
                (Some (Mem.mkCell ul lr c None None None None))) (S p0)).
  assert (A0 : Mem.cells h0 p0
               = Some (Mem.mkCell ul lr c None None None None))
    by apply update_same.
  assert (B0 : forall x, x <> p0 -> Mem.cells h0 x = Mem.cells h x)
    by (intros x Hx; apply update_other; exact Hx).
  destruct (set_child_spec Mem.set_NW h0 p0 nw _ A0)
    as (h1 & E1 & A1 & B1 & X1).
  destruct (set_child_spec Mem.set_NE h1 p0 ne _ A1)
    as (h2 & E2 & A2 & B2 & X2).
  destruct (set_child_spec Mem.set_SW h2 p0 sw _ A2)
    as (h3 & E3 & A3 & B3 & X3).
  destruct (set_child_spec Mem.set_SE h3 p0 se _ A3)
    as (h4 & E4 & A4 & B4 & X4).
  assert (B : forall x, x <> p0 -> Mem.cells h4 x = Mem.cells h x).
  { intros x Hx. rewrite B4, B3, B2, B1 by exact Hx. apply B0. exact Hx. }
  assert (Hlt : forall x, In x (F1 ++ F2 ++ F3 ++ F4) -> (x < p0)%nat).
  { intros x Hx. rewrite !in_app_iff in Hx.
    destruct Hx as [Hx|[Hx|[Hx|Hx]]];
      [exact (Stored_below h _ _ _ Hok S1 x Hx)
      |exact (Stored_below h _ _ _ Hok S2 x Hx)
      |exact (Stored_below h _ _ _ Hok S3 x Hx)
      |exact (Stored_below h _ _ _ Hok S4 x Hx)]. }
  exists h4. split.
  { rewrite E1. cbn [obind]. rewrite E2. cbn [obind]. rewrite E3.
    cbn [obind]. rewrite E4. reflexivity. }
  split.
  { eapply Stored_node.
    - exact A4.
    - apply (Stored_frame h); [exact S1|]. intros x Hx. apply B.
      pose proof (Hlt x). rewrite !in_app_iff in *. intros ->.
      assert (p0 < p0)%nat by tauto. lia.
    - apply (Stored_frame h); [exact S2|]. intros x Hx. apply B.
      pose proof (Hlt x). rewrite !in_app_iff in *. intros ->.
      assert (p0 < p0)%nat by tauto. lia.
    - apply (Stored_frame h); [exact S3|]. intros x Hx. apply B.
      pose proof (Hlt x). rewrite !in_app_iff in *. intros ->.
      assert (p0 < p0)%nat by tauto. lia.
    - apply (Stored_frame h); [exact S4|]. intros x Hx. apply B.
      pose proof (Hlt x). rewrite !in_app_iff in *. intros ->.
      assert (p0 < p0)%nat by tauto. lia. }
  split.
  { constructor; [|exact Hnd]. intros Hin. specialize (Hlt p0 Hin). lia. }
  split; [intros x Hx; apply B; lia|].
  split; [|rewrite X4, X3, X2, X1; reflexivity].
  intros x Hx. rewrite X4, X3, X2, X1 in Hx. cbn [h0 Mem.next] in Hx.
  rewrite B by lia. apply Hok. fold p0. lia.
Qed.

Lemma NoDup_app_sep (l1 l2 : list nat) (k : nat) :
  NoDup l1 -> NoDup l2 ->
  (forall x, In x l1 -> (x < k)%nat) -> (forall x, In x l2 -> (k <= x)%nat) ->
  NoDup (l1 ++ l2).
Proof.
  intros N1 N2 H1 H2. apply NoDup_app; [exact N1|exact N2|].
  intros x Hx Hy. specialize (H1 x Hx). specialize (H2 x Hy). lia.
Qed.

Lemma BuildNode_heap img :
  forall fuel h ul lr n,
    heapOk h -> BuildNode fuel img ul lr = Some n ->
    exists h' p F,
      Mem.BuildNode fuel img h ul lr = Some (h', p) /\
      Stored h' p n F /\ NoDup F /\
      (forall x, In x F -> (Mem.next h <= x < Mem.next h')%nat) /\
      (forall x, (x < Mem.next h)%nat -> Mem.cells h' x = Mem.cells h x) /\
      heapOk h' /\ (Mem.next h <= Mem.next h')%nat.
Proof.
  induction fuel as [|f IH]; intros h ul lr n Hok Hb; [discriminate|].
  cbn [BuildNode] in Hb. cbn [Mem.BuildNode].
  destruct (pair_eqb ul lr).
  { destruct (PNG.getPixel img (fst ul) (snd ul)) as [px|]; [|discriminate].
    cbn [obind] in *. injection Hb as <-. unfold Mem.new_Node.
    eexists _, _, [Mem.next h]. split; [reflexivity|].
    cbn [Mem.cells Mem.next].
    split.
    { apply (Stored_node _ (Mem.next h) ul lr px None None None None
               nullptr nullptr nullptr nullptr [] [] [] []);
        try constructor. apply update_same. }
    split; [constructor; [intros []|constructor]|].
    split; [intros x [<-|[]]; lia|].
    split; [intros x Hx; apply update_other; lia|].
    split; [|lia].
    intros x Hx. cbn [Mem.cells Mem.next] in *.
    rewrite update_other by lia. apply Hok. lia. }
  set (midX := u32 (fst ul + fst lr) / 2) in *.
  set (midY := u32 (snd ul + snd lr) / 2) in *.
  destruct (BuildNode f img ul (midX, midY)) as [t1|] eqn:E1;
    [|discriminate].
  cbn [obind] in Hb.
  destruct (IH h _ _ _ Hok E1)
    as (h1 & p1 & F1 & H1 & U1 & V1 & R1 & B1 & Hok1 & L1).
  rewrite H1. cbn [obind fst snd].
  destruct (fst lr =? fst ul).
  { (* a column: NW and SW *)
    destruct (BuildNode f img (fst ul, u32 (midY + 1)) (midX, snd lr))
      as [t3|] eqn:E3; [|discriminate].
    cbn [obind] in Hb.
    destruct (averageOf ul lr midX midY t1 nullptr t3 nullptr)
      as [c|] eqn:Ea; [|discriminate].
    cbn [obind] in Hb. injection Hb as <-.
    destruct (IH h1 _ _ _ Hok1 E3)
      as (h3 & p3 & F3 & H3 & U3 & V3 & R3 & B3 & Hok3 & L3).
    rewrite H3. cbn [obind fst snd].
    assert (U1' : Stored h3 p1 t1 F1)
      by (apply (Stored_older h1); assumption).
    assert (Hnd : NoDup (F1 ++ [] ++ F3 ++ [])).
    { cbn [app]. rewrite app_nil_r.
      apply (NoDup_app_sep F1 F3 (Mem.next h1)); try assumption.
      - intros x Hx. specialize (R1 x Hx). lia.
      - intros x Hx. specialize (R3 x Hx). lia. }
    destruct (newInternal_spec h3 ul lr midX midY p1 None p3 None
                t1 nullptr t3 nullptr F1 [] F3 [] c Hok3 U1'
                (Stored_null h3) U3 (Stored_null h3) Hnd Ea)
      as (h' & E & U & V & B & Hok' & X).
    exists h', (Some (Mem.next h3)), (Mem.next h3 :: F1 ++ [] ++ F3 ++ []).
    split; [exact E|]. split; [exact U|]. split; [exact V|].
    split.
    { intros x [<-|Hx]; [lia|]. rewrite !in_app_iff in Hx.
      destruct Hx as [Hx|[[]|[Hx|[]]]].
      - specialize (R1 x Hx). lia.
      - specialize (R3 x Hx). lia. }
    split; [intros x Hx; rewrite B, B3, B1 by lia; reflexivity|].
    split; [exact Hok'|lia]. }
  destruct (BuildNode f img (u32 (midX + 1), snd ul) (fst lr, midY))
    as [t2|] eqn:E2; [|discriminate].
  cbn [obind] in Hb.
  destruct (IH h1 _ _ _ Hok1 E2)
    as (h2 & p2 & F2 & H2 & U2 & V2 & R2 & B2 & Hok2 & L2).
  rewrite H2. cbn [obind fst snd].
  destruct (negb (snd ul =? snd lr)).
  { (* four quadrants *)
    destruct (BuildNode f img (fst ul, u32 (midY + 1)) (midX, snd lr))
      as [t3|] eqn:E3; [|discriminate].
    cbn [obind] in Hb.
    destruct (BuildNode f img (u32 (midX + 1), u32 (midY + 1)) lr)
      as [t4|] eqn:E4; [|discriminate].
    cbn [obind] in Hb.
    destruct (averageOf ul lr midX midY t1 t2 t3 t4)
      as [c|] eqn:Ea; [|discriminate].
    cbn [obind] in Hb. injection Hb as <-.
    destruct (IH h2 _ _ _ Hok2 E3)
      as (h3 & p3 & F3 & H3 & U3 & V3 & R3 & B3 & Hok3 & L3).
    rewrite H3. cbn [obind fst snd].
    destruct (IH h3 _ _ _ Hok3 E4)
      as (h4 & p4 & F4 & H4 & U4 & V4 & R4 & B4 & Hok4 & L4).
    rewrite H4. cbn [obind fst snd].
    assert (U1' : Stored h4 p1 t1 F1).
    { apply (Stored_older h1); try assumption.
      intros x Hx. rewrite B4, B3, B2 by lia. reflexivity. }
    assert (U2' : Stored h4 p2 t2 F2).
    { apply (Stored_older h2); try assumption.
      intros x Hx. rewrite B4, B3 by lia. reflexivity. }
    assert (U3' : Stored h4 p3 t3 F3)
      by (apply (Stored_older h3); assumption).
    assert (Hnd : NoDup (F1 ++ F2 ++ F3 ++ F4)).
    { apply (NoDup_app_sep _ _ (Mem.next h1)); try assumption.
      - apply (NoDup_app_sep _ _ (Mem.next h2)); try assumption.
        + apply (NoDup_app_sep _ _ (Mem.next h3)); try assumption.
          * intros x Hx. specialize (R3 x Hx). lia.
          * intros x Hx. specialize (R4 x Hx). lia.
        + intros x Hx. specialize (R2 x Hx). lia.
        + intros x Hx. rewrite in_app_iff in Hx. destruct Hx as [Hx|Hx].
          * specialize (R3 x Hx). lia.
          * specialize (R4 x Hx). lia.
      - intros x Hx. specialize (R1 x Hx). lia.
      - intros x Hx. rewrite !in_app_iff in Hx.
        destruct Hx as [Hx|[Hx|Hx]].
        + specialize (R2 x Hx). lia.
        + specialize (R3 x Hx). lia.
        + specialize (R4 x Hx). lia. }
    destruct (newInternal_spec h4 ul lr midX midY p1 p2 p3 p4
                t1 t2 t3 t4 F1 F2 F3 F4 c Hok4 U1' U2' U3' U4 Hnd Ea)
      as (h' & E & U & V & B & Hok' & X).
    exists h', (Some (Mem.next h4)), (Mem.next h4 :: F1 ++ F2 ++ F3 ++ F4).
    split; [exact E|]. split; [exact U|]. split; [exact V|].
    split.
    { intros x [<-|Hx]; [lia|]. rewrite !in_app_iff in Hx.
      destruct Hx as [Hx|[Hx|[Hx|Hx]]].
      - specialize (R1 x Hx). lia.
      - specialize (R2 x Hx). lia.
      - specialize (R3 x Hx). lia.
      - specialize (R4 x Hx). lia. }
    split; [intros x Hx; rewrite B, B4, B3, B2, B1 by lia; reflexivity|].
    split; [exact Hok'|lia]. }
  (* a row: NW and NE *)
  cbn [obind] in Hb.
  destruct (averageOf ul lr midX midY t1 t2 nullptr nullptr)
    as [c|] eqn:Ea; [|discriminate].
  cbn [obind] in Hb. injection Hb as <-.
  assert (U1' : Stored h2 p1 t1 F1)
    by (apply (Stored_older h1); assumption).
  assert (Hnd : NoDup (F1 ++ F2 ++ [] ++ [])).
  { cbn [app]. rewrite app_nil_r.
    apply (NoDup_app_sep F1 F2 (Mem.next h1)); try assumption.
    - intros x Hx. specialize (R1 x Hx). lia.
    - intros x Hx. specialize (R2 x Hx). lia. }
  destruct (newInternal_spec h2 ul lr midX midY p1 p2 None None
              t1 t2 nullptr nullptr F1 F2 [] [] c Hok2 U1' U2
              (Stored_null h2) (Stored_null h2) Hnd Ea)
    as (h' & E & U & V & B & Hok' & X).
  exists h', (Some (Mem.next h2)), (Mem.next h2 :: F1 ++ F2 ++ [] ++ []).
  split; [exact E|]. split; [exact U|]. split; [exact V|].
  split.
  { intros x [<-|Hx]; [lia|]. rewrite !in_app_iff in Hx.
    destruct Hx as [Hx|[Hx|[[]|[]]]].
    - specialize (R1 x Hx). lia.
    - specialize (R2 x Hx). lia. }
  split; [intros x Hx; rewrite B, B2, B1 by lia; reflexivity|].
  split; [exact Hok'|lia].
Qed.

(** X19 (QTree::QTree, QTree::BuildNode).  On every raster the constructor
    is defined on, the constructor that allocates its nodes returns, and the
    new object owns exactly the tree that the constructor on values builds,
    with the sizes of the raster, in cells that were all unallocated
    before, one per node and none twice; the cells allocated before are
    unchanged. *)
Theorem X19_constructor_in_memory (h : Mem.Heap) (img : PNG.t) :
  heapOk h -> PNG_ok img ->
  exists t h' o F,
    QTree_of_PNG img = Some t /\
    Mem.QTree_of_PNG h img = Some (h', o) /\
    Owns h' o t F /\
    (forall x, In x F -> Mem.cells h x = None) /\
    length F = CountNodes (root t) /\
    (forall x, Mem.cells h x <> None -> Mem.cells h' x = Mem.cells h x) /\
    heapOk h'.
Proof.
  intros Hok Himg.
  destruct (QTree_of_PNG_returns img Himg) as (rt & Eq & _).
  pose proof Eq as Eq'. unfold QTree_of_PNG in Eq'.
  destruct (BuildNode (Z.to_nat (PNG.width img + PNG.height img)) img
              (0, 0) (u32 (PNG.width img - 1), u32 (PNG.height img - 1)))
    as [n|] eqn:Eb; [|discriminate].
  cbn [obind] in Eq'. injection Eq' as Hn. subst n.
  destruct (BuildNode_heap img _ h _ _ _ Hok Eb)
    as (h' & p & F & E & U & V & R & B & Hok' & L).
  exists (mkQTree rt (PNG.height img) (PNG.width img)), h',
    (Mem.mkObj p (PNG.height img) (PNG.width img)), F.
  split; [exact Eq|].
  split; [unfold Mem.QTree_of_PNG; rewrite E; reflexivity|].
  split; [repeat split; assumption|].
  split; [intros x Hx; specialize (R x Hx); apply Hok; lia|].
  split; [exact (Stored_length _ _ _ _ U)|].
  split; [|exact Hok'].
  intros x Hx. apply B.
  destruct (Nat.lt_ge_cases x (Mem.next h)) as [Hlt|Hge]; [exact Hlt|].
  exfalso. apply Hx. apply Hok. exact Hge.
Qed.

(** ** Render in memory, and the independence of a copy *)

Lemma renderNode_heap t :
  forall fuel h p F img scale,
    Stored h p t F -> (depth t < fuel)%nat ->
    Mem.renderNode fuel h p img scale = renderNode t img scale.
Proof.
  induction t as [|ul lr c tnw IH1 tne IH2 tsw IH3 tse IH4];
    intros fuel h p F img scale HS Hf.
  - inversion HS; subst. destruct fuel as [|f]; [cbn in Hf; lia|].
    reflexivity.
  - destruct fuel as [|f]; [lia|]. cbn [depth] in Hf.
    inversion HS as [|a ul' lr' c' pnw pne psw pse tnw' tne' tsw' tse'
                       F1 F2 F3 F4 Hc S1 S2 S3 S4]; subst.
    cbn [Mem.renderNode renderNode]. unfold Mem.load. rewrite Hc.
    cbn [obind]. unfold Mem.no_children, noChildren.
    cbn [Mem.NW Mem.NE Mem.SW Mem.SE Mem.avg Mem.upLeft].
    rewrite (Stored_isNull _ _ _ _ S1), (Stored_isNull _ _ _ _ S2),
      (Stored_isNull _ _ _ _ S3), (Stored_isNull _ _ _ _ S4).
    destruct (isNull tnw && isNull tne && isNull tsw && isNull tse);
      [reflexivity|].
    rewrite (IH1 f h pnw F1 img scale S1) by lia.
    destruct (renderNode tnw img scale) as [img1|]; [|reflexivity].
    cbn [obind]. rewrite (IH2 f h pne F2 img1 scale S2) by lia.
    destruct (renderNode tne img1 scale) as [img2|]; [|reflexivity].
    cbn [obind]. rewrite (IH3 f h psw F3 img2 scale S3) by lia.
    destruct (renderNode tsw img2 scale) as [img3|]; [|reflexivity].
    cbn [obind]. apply (IH4 f h pse F4 img3 scale S4). lia.
Qed.

(** X20 (QTree::Render, QTree::renderNode).  Render through the pointers of
    an object that owns its tree gives, at every scale, exactly what Render
    on the tree as a value gives (the same raster, or undefined in the same
    cases), once the depth of the recursion is allowed for; the nodes are
    only read. *)
Theorem X20_Render_in_memory
    (blank : RGBAPixel) (fuel : nat) (h : Mem.Heap) (this : Mem.Obj)
    (t : QTree) (F : list nat) (scale : Z) :
  Owns h this t F -> (depth (root t) < fuel)%nat ->
  Mem.Render blank fuel h this scale = Render blank t scale.
Proof.
  intros (HS & Hnd & Hh & Hw) Hf. unfold Mem.Render, Render.
  rewrite Hh, Hw. apply (renderNode_heap (root t) fuel h _ F); assumption.
Qed.

Lemma Owns_frame h h' o t F :
  Owns h o t F ->
  (forall x, In x F -> Mem.cells h' x = Mem.cells h x) ->
  Owns h' o t F.
Proof.
  intros (HS & Hnd & Hh & Hw) Hsame.
  split; [apply (Stored_frame h); assumption|]. auto.
Qed.

(** X21 (QTree::Copy with Prune, FlipHorizontal, RotateCCW and Clear).  A
    copy is independent of its source: after Copy, whichever of Prune,
    FlipHorizontal, RotateCCW and Clear is applied to the copy, the call
    returns and the source object still owns its tree, unchanged and in its
    own cells, and renders as before. *)
Theorem X21_copy_is_independent
    (distanceTo : RGBAPixel -> RGBAPixel -> float) (blank : RGBAPixel)
    (fuel : nat) (h : Mem.Heap) (this other : Mem.Obj) (t : QTree)
    (F : list nat) :
  heapOk h -> Owns h other t F -> (depth (root t) < fuel)%nat ->
  exists h1 o,
    Mem.Copy fuel h this other = Some (h1, o) /\
    (forall tolerance, exists h2,
       Mem.Prune distanceTo fuel h1 o tolerance = Some h2 /\
       Owns h2 other t F /\
       forall s, Mem.Render blank fuel h2 other s = Render blank t s) /\
    (exists h2,
       Mem.FlipHorizontal fuel h1 o = Some h2 /\
       Owns h2 other t F /\
       forall s, Mem.Render blank fuel h2 other s = Render blank t s) /\
    (exists h2 o2,
       Mem.RotateCCW fuel h1 o = Some (h2, o2) /\
       Owns h2 other t F /\
       forall s, Mem.Render blank fuel h2 other s = Render blank t s) /\
    (exists h2 o2,
       Mem.Clear fuel h1 o = Some (h2, o2) /\
       Owns h2 other t F /\
       forall s, Mem.Render blank fuel h2 other s = Render blank t s).
Proof.
  intros Hok HO Hf. pose proof HO as (HS & Hnd & Hh & Hw).
  destruct (copy_spec (root t) fuel Hf h (Mem.root other) F Hok HS)
    as (h1 & p' & F' & E & U & V & R & B & Hok1 & L).
  assert (HO1 : Owns h1 other t F).
  { apply (Owns_frame h); [exact HO|]. intros x Hx. apply B.
    apply (Stored_below h _ _ _ Hok HS x Hx). }
  assert (Hdis : forall x, In x F -> ~ In x F').
  { intros x Hx Hx'. specialize (R x Hx').
    pose proof (Stored_below h _ _ _ Hok HS x Hx). lia. }
  assert (Hrender : forall h2, Owns h2 other t F ->
            forall s, Mem.Render blank fuel h2 other s = Render blank t s).
  { intros h2 (HS2 & _ & Hh2 & Hw2) s. unfold Mem.Render, Render.
    rewrite Hh2, Hw2.
    apply (renderNode_heap (root t) fuel h2 _ F); assumption. }
  exists h1, (Mem.mkObj p' (Mem.height other) (Mem.width other)).
  split; [unfold Mem.Copy; rewrite E; reflexivity|].
  split.
  { intros tolerance.
    destruct (pruneSt_inPlace distanceTo tolerance (root t) fuel Hf h1
                p' F' U V) as (h2 & F2 & E2 & _ & _ & _ & _ & J & _).
    exists h2. split; [exact E2|].
    assert (HO2 : Owns h2 other t F).
    { apply (Owns_frame h1); [exact HO1|]. intros x Hx. apply J.
      exact (Hdis x Hx). }
    split; [exact HO2|exact (Hrender h2 HO2)]. }
  split.
  { destruct (flipHorizontal_inPlace (Mem.width other) (root t) fuel Hf h1
                p' F' U V) as (h2 & F2 & E2 & _ & _ & _ & _ & J & _).
    exists h2. split; [exact E2|].
    assert (HO2 : Owns h2 other t F).
    { apply (Owns_frame h1); [exact HO1|]. intros x Hx. apply J.
      exact (Hdis x Hx). }
    split; [exact HO2|exact (Hrender h2 HO2)]. }
  split.
  { destruct (rotateCCW_inPlace (Mem.width other) (root t) fuel Hf h1
                p' F' U V) as (h2 & F2 & E2 & _ & _ & _ & _ & J & _).
    exists h2. eexists. split.
    { unfold Mem.RotateCCW. cbn [Mem.root Mem.height Mem.width].
      rewrite E2. reflexivity. }
    assert (HO2 : Owns h2 other t F).
    { apply (Owns_frame h1); [exact HO1|]. intros x Hx. apply J.
      exact (Hdis x Hx). }
    split; [exact HO2|exact (Hrender h2 HO2)]. }
  destruct (clear_spec (root t) fuel Hf h1 p' F' U V)
    as (h2 & E2 & _ & J & _).
  exists h2. eexists. split.
  { unfold Mem.Clear. cbn [Mem.root]. rewrite E2. reflexivity. }
  assert (HO2 : Owns h2 other t F).
  { apply (Owns_frame h1); [exact HO1|]. intros x Hx. apply J.
    exact (Hdis x Hx). }
  split; [exact HO2|exact (Hrender h2 HO2)].
Qed.

(** ** Render at scale 0 *)

Lemma renderNode_scale0 nd : forall img, renderNode nd img 0 = Some img.
Proof.
  induction nd as [|ul lr c NW IHNW NE IHNE SW IHSW SE IHSE]; intros img;
    [reflexivity|].
  cbn [renderNode]. destruct (noChildren NW NE SW SE); [reflexivity|].
  rewrite IHNW. cbn [obind]. rewrite IHNE. cbn [obind]. rewrite IHSW.
  cbn [obind]. apply IHSE.
Qed.

(** X22 (QTree::Render, renderNode, draw).  Render at scale 0, which the
    precondition of Render excludes, is harmless on every tree: no pixel is
    written and the result is the raster of width 0 and height 0. *)
Theorem X22_Render_at_scale_zero (blank : RGBAPixel) (t : QTree) :
  exists out,
    Render blank t 0 = Some out /\ PNG.width out = 0 /\ PNG.height out = 0.
Proof.
  exists (PNG.create blank 0 0). split; [|split; reflexivity].
  unfold Render. rewrite !Z.mul_0_r. apply renderNode_scale0.
Qed.

(** ** The further properties at concrete inputs *)

Lemma X3_witness :
  Reachable rgbDistance true
    (FlipHorizontal (RotateCCW (Prune rgbDistance tree4x2 0))) /\
  CountLeaves (root (FlipHorizontal (RotateCCW (Prune rgbDistance tree4x2 0))))
  = 6%nat /\
  hasRect (root (FlipHorizontal (RotateCCW (Prune rgbDistance tree4x2 0))))
    (0, 0)
    (width (FlipHorizontal (RotateCCW (Prune rgbDistance tree4x2 0))) - 1,
     height (FlipHorizontal (RotateCCW (Prune rgbDistance tree4x2 0))) - 1)
  = true /\
  inBounds (width (FlipHorizontal (RotateCCW (Prune rgbDistance tree4x2 0))))
    (height (FlipHorizontal (RotateCCW (Prune rgbDistance tree4x2 0))))
    (root (FlipHorizontal (RotateCCW (Prune rgbDistance tree4x2 0)))) /\
  forall x y,
    coverCount
      (root (FlipHorizontal (RotateCCW (Prune rgbDistance tree4x2 0)))) x y
    = if (0 <=? x)
         && (x <? width (FlipHorizontal
                           (RotateCCW (Prune rgbDistance tree4x2 0))))
         && (0 <=? y)
         && (y <? height (FlipHorizontal
                            (RotateCCW (Prune rgbDistance tree4x2 0))))
      then 1%nat else 0%nat.
Proof.
  split; [exact (Reach_flip rgbDistance true _ Reachable_pruned4x2)|].
  split; [vm_compute; reflexivity|].
  apply (X3_tiling_invariant rgbDistance true
           (FlipHorizontal (RotateCCW (Prune rgbDistance tree4x2 0)))
           (Reach_flip rgbDistance true _ Reachable_pruned4x2)).
Defined.

Lemma X4_witness :
  Reachable rgbDistance true (RotateCCW (Prune rgbDistance tree2x2 300)) /\
  (forall l1 l2,
     In l1 (leaves (root (RotateCCW (Prune rgbDistance tree2x2 300)))) ->
     In l2 (leaves (root (RotateCCW (Prune rgbDistance tree2x2 300)))) ->
     upLeft l1 = upLeft l2 -> l1 = l2) /\
  exists out,
    Render black (RotateCCW (Prune rgbDistance tree2x2 300)) 2 = Some out /\
    PNG.width out = width (RotateCCW (Prune rgbDistance tree2x2 300)) * 2 /\
    PNG.height out = height (RotateCCW (Prune rgbDistance tree2x2 300)) * 2 /\
    forall X Y,
      0 <= X < width (RotateCCW (Prune rgbDistance tree2x2 300)) * 2 ->
      0 <= Y < height (RotateCCW (Prune rgbDistance tree2x2 300)) * 2 ->
      (exists l,
         In l (leaves (root (RotateCCW (Prune rgbDistance tree2x2 300)))) /\
         upLeft l = (X / 2, Y / 2) /\ PNG.imageData out X Y = avg l) \/
      ((forall l,
          In l (leaves (root (RotateCCW (Prune rgbDistance tree2x2 300)))) ->
          upLeft l <> (X / 2, Y / 2)) /\
       PNG.imageData out X Y = black).
Proof.
  split; [exact Reachable_pruned2x2|].
  apply (X4_Render_on_any_tree black rgbDistance true
           (RotateCCW (Prune rgbDistance tree2x2 300)) 2 Reachable_pruned2x2);
    [lia|cbn; lia|cbn; lia].
Defined.

Lemma X5_witness :
  Reachable rgbDistance false (FlipHorizontal tree2x2) /\
  exists before after,
    Render black (FlipHorizontal tree2x2) 3 = Some before /\
    Render black (FlipHorizontal (FlipHorizontal tree2x2)) 3 = Some after /\
    PNG.width after = PNG.width before /\
    PNG.height after = PNG.height before /\
    forall X Y, 0 <= X < PNG.width after -> 0 <= Y < PNG.height after ->
      PNG.imageData after X Y
      = PNG.imageData before (PNG.width before - 1 - X) Y.
Proof.
  split; [exact Reachable_flipped2x2|].
  apply (X5_FlipHorizontal_mirrors black rgbDistance
           (FlipHorizontal tree2x2) 3 Reachable_flipped2x2);
    [lia|cbn; lia|cbn; lia].
Defined.

Lemma X6_witness :
  Reachable rgbDistance false (FlipHorizontal tree2x2) /\
  exists one scaled,
    Render black (FlipHorizontal tree2x2) 1 = Some one /\
    Render black (FlipHorizontal tree2x2) 3 = Some scaled /\
    PNG.width scaled = PNG.width one * 3 /\
    PNG.height scaled = PNG.height one * 3 /\
    forall X Y, 0 <= X < PNG.width scaled -> 0 <= Y < PNG.height scaled ->
      PNG.imageData scaled X Y = PNG.imageData one (X / 3) (Y / 3).
Proof.
  split; [exact Reachable_flipped2x2|].
  apply (X6_Render_upscales_by_blocks black rgbDistance
           (FlipHorizontal tree2x2) 3 Reachable_flipped2x2);
    [lia|cbn; lia|cbn; lia].
Defined.

Lemma X7_witness :
  Reachable rgbDistance true (RotateCCW (Prune rgbDistance tree4x2 0)) /\
  CountLeaves (root (RotateCCW (Prune rgbDistance tree4x2 0))) = 6%nat /\
  FlipHorizontal (RotateCCW (RotateCCW (Prune rgbDistance tree4x2 0)))
  <> RotateCCW (Prune rgbDistance tree4x2 0) /\
  FlipHorizontal
    (RotateCCW
       (FlipHorizontal
          (RotateCCW (RotateCCW (Prune rgbDistance tree4x2 0)))))
  = RotateCCW (Prune rgbDistance tree4x2 0).
Proof.
  split; [exact Reachable_pruned4x2|].
  split; [vm_compute; reflexivity|].
  split; [vm_compute; intros E; discriminate E|].
  apply (X7_flip_after_rotate_is_involutive rgbDistance true
           (RotateCCW (Prune rgbDistance tree4x2 0)) Reachable_pruned4x2).
Defined.

Lemma X8_witness :
  PNG_ok img2x2 /\
  (forall x y, 0 <= x < PNG.width img2x2 -> 0 <= y < PNG.height img2x2 ->
     0 <= r (PNG.imageData img2x2 x y) <= 255) /\
  exists t,
    QTree_of_PNG img2x2 = Some t /\
    allNodes (fun m => 0 <= r (avg m) <= 255) (root t).
Proof.
  split; [exact PNG_ok_img2x2|].
  split; [intros x y Hx Hy; exact (proj1 (pixelsOk_img2x2 x y Hx Hy))|].
  apply (X8_average_between_extremes img2x2 r 0 255).
  - left. reflexivity.
  - exact PNG_ok_img2x2.
  - cbn. lia.
  - lia.
  - lia.
  - intros x y Hx Hy. exact (proj1 (pixelsOk_img2x2 x y Hx Hy)).
Defined.

Lemma X9_witness :
  PNG_ok img2x1 /\
  exists t,
    QTree_of_PNG img2x1 = Some t /\
    PNG.width img2x1 * PNG.height img2x1 <= Z.of_nat (CountNodes (root t))
    <= 2 * (PNG.width img2x1 * PNG.height img2x1) - 1.
Proof.
  split; [exact PNG_ok_img2x1|].
  apply (X9_Build_node_count img2x1). exact PNG_ok_img2x1.
Defined.

Lemma X10_witness :
  PNG.width (PNG.create black 0 3) = 0 /\
  (PNG.width (PNG.create black 0 3) = 0 ->
   u32 (PNG.width (PNG.create black 0 3) - 1) = 4294967295) /\
  (forall fuel ul lr, BuildNode fuel (PNG.create black 0 3) ul lr = None) /\
  QTree_of_PNG (PNG.create black 0 3) = None.
Proof.
  split; [reflexivity|].
  apply (X10_Build_of_empty_raster (PNG.create black 0 3)).
  left. reflexivity.
Defined.

Lemma X11_witness :
  PNG_ok img2x2 /\
  exists t,
    QTree_of_PNG img2x2 = Some t /\
    forall l, In l (leaves (root (Prune rgbDistance t 300))) ->
    forall x y, covers x y l = true ->
      l = leaf x y (PNG.imageData img2x2 x y) \/
      PrimFloat.leb (rgbDistance (PNG.imageData img2x2 x y) (avg l)) 300
      = true.
Proof.
  split; [exact PNG_ok_img2x2|].
  apply (X11_Prune_keeps_colours_within_tolerance rgbDistance img2x2 300).
  exact PNG_ok_img2x2.
Defined.

Lemma X12_witness :
  heapOk heap4 /\ Owns heap4 obj2x1 tree2x1 [0; 1; 2]%nat /\
  exists h' o F',
    Mem.Copy 3 heap4 obj1x1 obj2x1 = Some (h', o) /\
    Owns h' o tree2x1 F' /\ Owns h' obj2x1 tree2x1 [0; 1; 2]%nat /\
    (forall x, In x F' ->
       Mem.cells heap4 x = None /\ ~ In x [0; 1; 2]%nat) /\
    length F' = CountNodes (root tree2x1) /\
    (forall x, Mem.cells heap4 x <> None ->
       Mem.cells h' x = Mem.cells heap4 x) /\
    heapOk h'.
Proof.
  split; [exact heapOk_heap4|]. split; [exact Owns_heap4_2x1|].
  apply (X12_Copy_makes_a_deep_clone 3 heap4 obj1x1 obj2x1 tree2x1
           [0; 1; 2]%nat heapOk_heap4 Owns_heap4_2x1).
  cbn. lia.
Defined.

Lemma X13_witness :
  Owns heap4 obj2x1 tree2x1 [0; 1; 2]%nat /\
  exists h',
    Mem.Clear 3 heap4 obj2x1 = Some (h', Mem.mkObj (Mem.root obj2x1) 0 0) /\
    (forall x, In x [0; 1; 2]%nat -> Mem.cells h' x = None) /\
    (forall x, ~ In x [0; 1; 2]%nat -> Mem.cells h' x = Mem.cells heap4 x) /\
    (Mem.root obj2x1 <> None ->
     forall fuel',
       Mem.Clear fuel' h' (Mem.mkObj (Mem.root obj2x1) 0 0) = None).
Proof.
  split; [exact Owns_heap4_2x1|].
  apply (X13_Clear_frees_the_tree_and_keeps_root 3 heap4 obj2x1 tree2x1
           [0; 1; 2]%nat Owns_heap4_2x1).
  cbn. lia.
Defined.

Lemma X14_witness :
  heapOk heap4 /\ 0%nat <> 1%nat /\
  Owns heap4 (objs2 0%nat) tree2x1 [0; 1; 2]%nat /\
  Owns heap4 (objs2 1%nat) tree1x1 [3%nat] /\
  exists h' objs' F',
    Mem.assign 3 heap4 objs2 0 1 = Some (h', objs') /\
    Owns h' (objs' 0%nat) tree1x1 F' /\
    Owns h' (objs' 1%nat) tree1x1 [3%nat] /\
    (forall j, j <> 0%nat -> objs' j = objs2 j) /\
    (forall x, In x F' -> ~ In x [3%nat]) /\
    (forall x, In x [0; 1; 2]%nat -> Mem.cells h' x = None) /\
    (forall x, Mem.cells heap4 x <> None -> ~ In x [0; 1; 2]%nat ->
       Mem.cells h' x = Mem.cells heap4 x) /\
    heapOk h'.
Proof.
  split; [exact heapOk_heap4|]. split; [discriminate|].
  split; [exact Owns_heap4_2x1|]. split; [exact Owns_heap4_1x1|].
  apply (X14_assignment_replaces_the_tree 3 heap4 objs2 0 1 tree2x1 tree1x1
           [0; 1; 2]%nat [3%nat] heapOk_heap4).
  - discriminate.
  - exact Owns_heap4_2x1.
  - exact Owns_heap4_1x1.
  - intros x [<-|[<-|[<-|[]]]] [E|[]]; discriminate E.
  - cbn. lia.
  - cbn. lia.
Defined.

Lemma X15_witness :
  Stored heap4 (Some 0%nat) (root tree2x1) [0; 1; 2]%nat /\
  NoDup [0; 1; 2]%nat /\
  exists h',
    Mem.clearSt 3 heap4 (Some 0%nat) = Some h' /\
    Stored h' (Some 0%nat) (clearSt (root tree2x1)) (top (Some 0%nat)) /\
    (forall x, In x [0; 1; 2]%nat -> Some 0%nat <> Some x ->
       Mem.cells h' x = None) /\
    (forall x, ~ In x [0; 1; 2]%nat -> Mem.cells h' x = Mem.cells heap4 x).
Proof.
  split; [exact (proj1 Owns_heap4_2x1)|].
  split; [exact (proj1 (proj2 Owns_heap4_2x1))|].
  apply (X15_clearSt_frees_all_descendants 3 heap4 (Some 0%nat)
           (root tree2x1) [0; 1; 2]%nat (proj1 Owns_heap4_2x1)
           (proj1 (proj2 Owns_heap4_2x1))).
  cbn. lia.
Defined.

Lemma X16_witness :
  Owns heap4 obj2x1 tree2x1 [0; 1; 2]%nat /\
  exists h' F',
    Mem.Prune rgbDistance 3 heap4 obj2x1 300 = Some h' /\
    Owns h' obj2x1 (Prune rgbDistance tree2x1 300) F' /\
    (forall x, In x F' -> In x [0; 1; 2]%nat) /\
    length F' = CountNodes (root (Prune rgbDistance tree2x1 300)) /\
    (forall x, In x [0; 1; 2]%nat -> ~ In x F' -> Mem.cells h' x = None) /\
    (forall x, ~ In x [0; 1; 2]%nat -> Mem.cells h' x = Mem.cells heap4 x).
Proof.
  split; [exact Owns_heap4_2x1|].
  apply (X16_Prune_in_memory rgbDistance 3 heap4 obj2x1 tree2x1
           [0; 1; 2]%nat 300 Owns_heap4_2x1).
  cbn. lia.
Defined.

Lemma X17_witness :
  Owns heap4 obj2x1 tree2x1 [0; 1; 2]%nat /\
  exists h' F',
    Mem.FlipHorizontal 3 heap4 obj2x1 = Some h' /\
    Owns h' obj2x1 (FlipHorizontal tree2x1) F' /\
    (forall x, In x F' <-> In x [0; 1; 2]%nat) /\
    (forall x, ~ In x [0; 1; 2]%nat -> Mem.cells h' x = Mem.cells heap4 x).
Proof.
  split; [exact Owns_heap4_2x1|].
  apply (X17_FlipHorizontal_in_memory 3 heap4 obj2x1 tree2x1
           [0; 1; 2]%nat Owns_heap4_2x1).
  cbn. lia.
Defined.

Lemma X18_witness :
  Owns heap4 obj2x1 tree2x1 [0; 1; 2]%nat /\
  exists h' o F',
    Mem.RotateCCW 3 heap4 obj2x1 = Some (h', o) /\
    Mem.root o = Mem.root obj2x1 /\
    Owns h' o (RotateCCW tree2x1) F' /\
    (forall x, In x F' <-> In x [0; 1; 2]%nat) /\
    (forall x, ~ In x [0; 1; 2]%nat -> Mem.cells h' x = Mem.cells heap4 x).
Proof.
  split; [exact Owns_heap4_2x1|].
  apply (X18_RotateCCW_in_memory 3 heap4 obj2x1 tree2x1
           [0; 1; 2]%nat Owns_heap4_2x1).
  cbn. lia.
Defined.

Lemma X19_witness :
  heapOk heap4 /\ PNG_ok img2x1 /\
  exists t h' o F,
    QTree_of_PNG img2x1 = Some t /\
    Mem.QTree_of_PNG heap4 img2x1 = Some (h', o) /\
    Owns h' o t F /\
    (forall x, In x F -> Mem.cells heap4 x = None) /\
    length F = CountNodes (root t) /\
    (forall x, Mem.cells heap4 x <> None ->
       Mem.cells h' x = Mem.cells heap4 x) /\
    heapOk h'.
Proof.
  split; [exact heapOk_heap4|]. split; [exact PNG_ok_img2x1|].
  apply (X19_constructor_in_memory heap4 img2x1 heapOk_heap4 PNG_ok_img2x1).
Defined.

Lemma X20_witness :
  Owns heap4 obj2x1 tree2x1 [0; 1; 2]%nat /\
  Mem.Render black 3 heap4 obj2x1 2 = Render black tree2x1 2.
Proof.
  split; [exact Owns_heap4_2x1|].
  apply (X20_Render_in_memory black 3 heap4 obj2x1 tree2x1 [0; 1; 2]%nat 2
           Owns_heap4_2x1).
  cbn. lia.
Defined.

Lemma X21_witness :
  heapOk heap4 /\ Owns heap4 obj2x1 tree2x1 [0; 1; 2]%nat /\
  exists h1 o,
    Mem.Copy 3 heap4 obj1x1 obj2x1 = Some (h1, o) /\
    (forall tolerance, exists h2,
       Mem.Prune rgbDistance 3 h1 o tolerance = Some h2 /\
       Owns h2 obj2x1 tree2x1 [0; 1; 2]%nat /\
       forall s, Mem.Render black 3 h2 obj2x1 s = Render black tree2x1 s) /\
    (exists h2,
       Mem.FlipHorizontal 3 h1 o = Some h2 /\
       Owns h2 obj2x1 tree2x1 [0; 1; 2]%nat /\
       forall s, Mem.Render black 3 h2 obj2x1 s = Render black tree2x1 s) /\
    (exists h2 o2,
       Mem.RotateCCW 3 h1 o = Some (h2, o2) /\
       Owns h2 obj2x1 tree2x1 [0; 1; 2]%nat /\
       forall s, Mem.Render black 3 h2 obj2x1 s = Render black tree2x1 s) /\
    (exists h2 o2,
       Mem.Clear 3 h1 o = Some (h2, o2) /\
       Owns h2 obj2x1 tree2x1 [0; 1; 2]%nat /\
       forall s, Mem.Render black 3 h2 obj2x1 s = Render black tree2x1 s).
Proof.
  split; [exact heapOk_heap4|]. split; [exact Owns_heap4_2x1|].
  apply (X21_copy_is_independent rgbDistance black 3 heap4 obj1x1 obj2x1
           tree2x1 [0; 1; 2]%nat heapOk_heap4 Owns_heap4_2x1).
  cbn. lia.
Defined.
